(** * Optimizers: a shallow embedding of circuit_toolkit/Optimizers.py

    The evolution-strategy engines of the toolkit (CholeskyCMAES and its
    torch copies, HessCMAES, ZOHA_Sphere_lr_euclid, rankweight) are
    translated to functions over an abstract scalar type.  The scalar
    interface has two instances: the real numbers, in which the algebraic
    properties are proved, and binary64 floats, in which concrete runs show
    what the arithmetic of the interpreter produces (NaN, infinities). *)

From Stdlib Require Import Reals Lra Lia List ZArith Bool Arith PeanoNat Floats
  Permutation Sorted.
Import ListNotations.

Set Implicit Arguments.

(** ** Scalars *)

(** The arithmetic the source uses on array elements and Python floats. *)
Class Num (T : Type) := {
  sofZ  : Z -> T;
  sadd  : T -> T -> T;
  ssub  : T -> T -> T;
  smul  : T -> T -> T;
  sdiv  : T -> T -> T;
  sopp  : T -> T;
  ssqrt : T -> T;
  sltb  : T -> T -> bool
}.

(** numpy / math functions beyond the field operations. *)
Class Trans (T : Type) := {
  sexp   : T -> T;
  sln    : T -> T;
  spow   : T -> T -> T;
  spi    : T;
  sfloor : T -> Z
}.

Declare Scope num_scope.
Delimit Scope num_scope with num.
Infix "+" := sadd : num_scope.
Infix "-" := ssub : num_scope.
Infix "*" := smul : num_scope.
Infix "/" := sdiv : num_scope.
Notation "- x" := (sopp x) : num_scope.
Infix "<?" := sltb : num_scope.

(** ** Exceptions and the state monad of a Python object

    A method reads and assigns attributes of [self] and may raise; an
    assignment made before the exception stays made.  A computation is
    therefore a function from the object to an outcome and the object after. *)

Inductive exn : Type := ValueError | IndexError | AttributeError | RuntimeError.

Inductive result (A : Type) : Type :=
| Ok (a : A)
| Raise (e : exn).
Arguments Ok {A} a.
Arguments Raise {A} e.

Definition M (S A : Type) : Type := S -> result A * S.

Definition ret {S A} (a : A) : M S A := fun s => (Ok a, s).
Definition raise {S A} (e : exn) : M S A := fun s => (Raise e, s).
Definition bind {S A B} (m : M S A) (k : A -> M S B) : M S B :=
  fun s => match m s with
           | (Ok a, s') => k a s'
           | (Raise e, s') => (Raise e, s')
           end.
Definition get {S} : M S S := fun s => (Ok s, s).
Definition modify {S} (f : S -> S) : M S unit := fun s => (Ok tt, f s).
Definition lift {S A} (r : result A) : M S A := fun s => (r, s).

Declare Scope monad_scope.
Delimit Scope monad_scope with monad.
Notation "x <- m ;; k" := (bind m (fun x => k))
  (at level 61, m at next level, right associativity) : monad_scope.
Notation "m ;; k" := (bind m (fun _ => k))
  (at level 61, right associativity) : monad_scope.

Definition rbind {A B} (r : result A) (k : A -> result B) : result B :=
  match r with Ok a => k a | Raise e => Raise e end.

(** ** Arrays *)

Section Arrays.
Context {T : Type} `{Num T}.
Local Open Scope num_scope.

Definition s0 : T := sofZ 0.
Definition s1 : T := sofZ 1.
Definition sofnat (n : nat) : T := sofZ (Z.of_nat n).

(** Python's [max(0, x)]: the first argument unless the second is larger. *)
Definition smax (a b : T) : T := if a <? b then b else a.

(** [f 0 + f 1 + ... + f (n-1)], accumulated from the left. *)
Fixpoint vsum (n : nat) (f : nat -> T) : T :=
  match n with
  | O => s0
  | S k => vsum k f + f k
  end.

(** The builtin [sum] / [ndarray.sum] of a one-dimensional array. *)
Definition lsum (l : list T) : T := vsum (length l) (fun i => nth i l s0).

(** A two-dimensional ndarray: its shape and its elements. *)
Record matrix : Type := mk_matrix {
  nrows : nat;
  ncols : nat;
  mget  : nat -> nat -> T
}.

Definition zeros (r c : nat) : matrix := mk_matrix r c (fun _ _ => s0).
Definition eye (r c : nat) : matrix :=
  mk_matrix r c (fun i j => if Nat.eqb i j then s1 else s0).
Definition transpose (a : matrix) : matrix :=
  mk_matrix (ncols a) (nrows a) (fun i j => mget a j i).
(** [x * a] with [x] a scalar. *)
Definition scale (x : T) (a : matrix) : matrix :=
  mk_matrix (nrows a) (ncols a) (fun i j => x * mget a i j).
(** [a / x] with [x] a scalar. *)
Definition mdivs (a : matrix) (x : T) : matrix :=
  mk_matrix (nrows a) (ncols a) (fun i j => mget a i j / x).
(** [a * x] with [x] a scalar. *)
Definition mmuls (a : matrix) (x : T) : matrix :=
  mk_matrix (nrows a) (ncols a) (fun i j => mget a i j * x).
(** [weights[np.newaxis, :]]: a one-dimensional array as a single row. *)
Definition row_of_list (l : list T) : matrix :=
  mk_matrix 1 (length l) (fun _ j => nth j l s0).
(** [scaling[:, np.newaxis]]: a one-dimensional array as a single column. *)
Definition col_of_list (l : list T) : matrix :=
  mk_matrix (length l) 1 (fun i _ => nth i l s0).
(** [l[i]] for a Python integer [i]: negative indices count from the end. *)
Definition index (l : list T) (i : Z) : result T :=
  let n := Z.of_nat (length l) in
  if (0 <=? i)%Z && (i <? n)%Z then Ok (nth (Z.to_nat i) l s0)
  else if (- n <=? i)%Z && (i <? 0)%Z then Ok (nth (Z.to_nat (n + i)) l s0)
  else Raise IndexError.
(** [a.item()] and the scalar use of a 1x1 array. *)
Definition item (a : matrix) : T := mget a 0 0.
(** [a[:, :k]]. *)
Definition cols_upto (a : matrix) (k : nat) : matrix :=
  mk_matrix (nrows a) (Nat.min k (ncols a)) (mget a).
(** [a[0:1, :]]. *)
Definition first_row (a : matrix) : matrix :=
  mk_matrix (Nat.min 1 (nrows a)) (ncols a) (mget a).

(** Broadcasting of one axis: equal lengths, or one of them is 1. *)
Definition bshape (m n : nat) : result nat :=
  if Nat.eqb m n then Ok m
  else if Nat.eqb m 1 then Ok n
  else if Nat.eqb n 1 then Ok m
  else Raise ValueError.
Definition bidx (n i : nat) : nat := if Nat.eqb n 1 then 0 else i.

Definition broadcast2 (op : T -> T -> T) (a b : matrix) : result matrix :=
  rbind (bshape (nrows a) (nrows b)) (fun r =>
  rbind (bshape (ncols a) (ncols b)) (fun c =>
  Ok (mk_matrix r c (fun i j =>
        op (mget a (bidx (nrows a) i) (bidx (ncols a) j))
           (mget b (bidx (nrows b) i) (bidx (ncols b) j)))))).

Definition madd := broadcast2 sadd.
Definition msub := broadcast2 ssub.
Definition mmul_elt := broadcast2 smul.

(** [a @ b]. *)
Definition matmul (a b : matrix) : result matrix :=
  if Nat.eqb (ncols a) (nrows b)
  then Ok (mk_matrix (nrows a) (ncols b)
             (fun i j => vsum (ncols a) (fun k => mget a i k * mget b k j)))
  else Raise ValueError.

(** [a[idx, :]] with [idx] an integer index array. *)
Definition take_rows (a : matrix) (idx : list nat) : result matrix :=
  if forallb (fun i => Nat.ltb i (nrows a)) idx
  then Ok (mk_matrix (length idx) (ncols a) (fun i j => mget a (nth i idx 0%nat) j))
  else Raise IndexError.

(** [numpy.linalg.norm] of a two-dimensional array (Frobenius). *)
Definition norm (a : matrix) : T :=
  ssqrt (vsum (nrows a) (fun i => vsum (ncols a) (fun j => mget a i j * mget a i j))).

(** The Euclidean norm of row [i]. *)
Definition row_norm (a : matrix) (i : nat) : T :=
  ssqrt (vsum (ncols a) (fun j => mget a i j * mget a i j)).

(** Stable insertion of index [i] by key; [argsort] sorts ascending.
    numpy leaves the order of equal keys to the sort kind; here the
    smaller index comes first. *)
Fixpoint insert_idx {K} (ltb : K -> K -> bool) (key : nat -> K) (i : nat)
         (l : list nat) : list nat :=
  match l with
  | [] => [i]
  | j :: l' => if ltb (key j) (key i) then j :: insert_idx ltb key i l'
               else i :: l
  end.
Definition argsort_by {K} (ltb : K -> K -> bool) (d : K) (l : list K) : list nat :=
  fold_right (insert_idx ltb (fun i => nth i l d)) [] (seq 0 (length l)).
Definition argsort (l : list T) : list nat := argsort_by sltb s0 l.
Definition argsort_nat (l : list nat) : list nat := argsort_by Nat.ltb 0%nat l.

(** Same shape and same elements. *)
Definition meq (a b : matrix) : Prop :=
  nrows a = nrows b /\ ncols a = ncols b /\
  forall i j, (i < nrows a)%nat -> (j < ncols a)%nat -> mget a i j = mget b i j.
End Arrays.

Arguments matrix T : clear implicits.

(** ** The two scalar instances *)

Definition Rltb (x y : R) : bool := if Rlt_dec x y then true else false.

#[export] Instance Num_R : Num R := {|
  sofZ := IZR; sadd := Rplus; ssub := Rminus; smul := Rmult; sdiv := Rdiv;
  sopp := Ropp; ssqrt := R_sqrt.sqrt; sltb := Rltb |}.

#[export] Instance Trans_R : Trans R := {|
  sexp := exp; sln := ln; spow := Rpower; spi := PI; sfloor := Zfloor |}.

Definition float_of_Z (z : Z) : float :=
  match z with
  | Z0 => PrimFloat.zero
  | Zpos _ => PrimFloat.of_uint63 (Uint63.of_Z z)
  | Zneg _ => PrimFloat.opp (PrimFloat.of_uint63 (Uint63.of_Z (Z.opp z)))
  end.

#[export] Instance Num_float : Num float := {|
  sofZ := float_of_Z; sadd := PrimFloat.add; ssub := PrimFloat.sub;
  smul := PrimFloat.mul; sdiv := PrimFloat.div; sopp := PrimFloat.opp;
  ssqrt := PrimFloat.sqrt; sltb := PrimFloat.ltb |}.

(** ** Helpers shared by the engines *)

Section Helpers.
Context {T : Type} `{Num T} `{Trans T}.
Local Open Scope num_scope.

(** [x ** 2]. *)
Definition sqr (x : T) : T := x * x.
(** [log2]. *)
Definition log2 (x : T) : T := sln x / sln (sofZ 2).
(** [log10]. *)
Definition log10 (x : T) : T := sln x / sln (sofZ 10).
(** [np.sum] of a two-dimensional array. *)
Definition msum (a : matrix T) : T :=
  vsum (nrows a) (fun i => vsum (ncols a) (fun j => mget a i j)).

(** [log(mu + 1 / 2) - log(np.arange(1, 1 + floor(mu)))]: the unnormalized
    recombination weights of ranks [1 .. floor(mu)]. *)
Definition log_weights (mu : T) : list T :=
  map (fun i => sln (mu + sofZ 1 / sofZ 2) - sln (sofnat i))
      (seq 1 (Z.to_nat (sfloor mu))).

(** [w / sum(w)] for a one-dimensional array. *)
Definition normalize (w : list T) : list T := map (fun x => x / lsum w) w.

(** Overrides of the adaptation constants ([optim_params]). *)
Record optim_params : Type := mk_params {
  op_cc : option T;
  op_cs : option T;
  op_c1 : option T
}.
Definition no_params : optim_params := mk_params None None None.
Definition override (o : option T) (d : T) : T :=
  match o with Some x => x | None => d end.

(** [int(4 + floor(3 * log2(N)))]. *)
Definition default_lambda (N : nat) : nat :=
  Z.to_nat (4 + sfloor (sofZ 3 * log2 (sofnat N))).

(** [sqrt(N) * (1 - 1 / (4 * N) + 1 / (21 * N ** 2))]. *)
Definition chi (N : nat) : T :=
  ssqrt (sofnat N)
  * (sofZ 1 - sofZ 1 / (sofZ 4 * sofnat N) + sofZ 1 / (sofZ 21 * sqr (sofnat N))).

(** [init_code] reshaped to [(1, N)]; a wrong size is a ValueError. *)
Definition reshape_init (N : nat) (init_code : option (list T))
  : result (option (matrix T)) :=
  match init_code with
  | None => Ok None
  | Some l => if Nat.eqb (length l) N then Ok (Some (row_of_list l))
              else Raise ValueError
  end.
End Helpers.

(** ** CholeskyCMAES (numpy) *)

Module CholeskyCMAES.
Section Engine.
Context {T : Type} `{Num T} `{Trans T}.
Local Open Scope num_scope.
Local Open Scope monad_scope.

(** The attributes of the optimizer object. [randz] does not exist before
    the first sampling. *)
Record t : Type := mk {
  space_dimen : nat;
  maximize : bool;
  lambda_ : nat;
  mu : nat;
  weights : matrix T;
  mueff : T;
  sigma : T;
  cc : T;
  cs : T;
  c1 : T;
  damps : T;
  init_x : option (matrix T);
  xmean : matrix T;
  xold : matrix T;
  pc : matrix T;
  ps : matrix T;
  A : matrix T;
  Ainv : matrix T;
  eigeneval : Z;
  counteval : Z;
  update_crit : T;
  chiN : T;
  istep : nat;
  randz : option (matrix T)
}.

Definition set_sigma (x : _) (s : t) : t :=
  mk (space_dimen s) (maximize s) (lambda_ s) (mu s) (weights s) (mueff s) x (cc s) (cs s) (c1 s) (damps s) (init_x s) (xmean s) (xold s) (pc s) (ps s) (A s) (Ainv s) (eigeneval s) (counteval s) (update_crit s) (chiN s) (istep s) (randz s).
Definition set_xmean (x : _) (s : t) : t :=
  mk (space_dimen s) (maximize s) (lambda_ s) (mu s) (weights s) (mueff s) (sigma s) (cc s) (cs s) (c1 s) (damps s) (init_x s) x (xold s) (pc s) (ps s) (A s) (Ainv s) (eigeneval s) (counteval s) (update_crit s) (chiN s) (istep s) (randz s).
Definition set_xold (x : _) (s : t) : t :=
  mk (space_dimen s) (maximize s) (lambda_ s) (mu s) (weights s) (mueff s) (sigma s) (cc s) (cs s) (c1 s) (damps s) (init_x s) (xmean s) x (pc s) (ps s) (A s) (Ainv s) (eigeneval s) (counteval s) (update_crit s) (chiN s) (istep s) (randz s).
Definition set_pc (x : _) (s : t) : t :=
  mk (space_dimen s) (maximize s) (lambda_ s) (mu s) (weights s) (mueff s) (sigma s) (cc s) (cs s) (c1 s) (damps s) (init_x s) (xmean s) (xold s) x (ps s) (A s) (Ainv s) (eigeneval s) (counteval s) (update_crit s) (chiN s) (istep s) (randz s).
Definition set_ps (x : _) (s : t) : t :=
  mk (space_dimen s) (maximize s) (lambda_ s) (mu s) (weights s) (mueff s) (sigma s) (cc s) (cs s) (c1 s) (damps s) (init_x s) (xmean s) (xold s) (pc s) x (A s) (Ainv s) (eigeneval s) (counteval s) (update_crit s) (chiN s) (istep s) (randz s).
Definition set_A (x : _) (s : t) : t :=
  mk (space_dimen s) (maximize s) (lambda_ s) (mu s) (weights s) (mueff s) (sigma s) (cc s) (cs s) (c1 s) (damps s) (init_x s) (xmean s) (xold s) (pc s) (ps s) x (Ainv s) (eigeneval s) (counteval s) (update_crit s) (chiN s) (istep s) (randz s).
Definition set_Ainv (x : _) (s : t) : t :=
  mk (space_dimen s) (maximize s) (lambda_ s) (mu s) (weights s) (mueff s) (sigma s) (cc s) (cs s) (c1 s) (damps s) (init_x s) (xmean s) (xold s) (pc s) (ps s) (A s) x (eigeneval s) (counteval s) (update_crit s) (chiN s) (istep s) (randz s).
Definition set_eigeneval (x : _) (s : t) : t :=
  mk (space_dimen s) (maximize s) (lambda_ s) (mu s) (weights s) (mueff s) (sigma s) (cc s) (cs s) (c1 s) (damps s) (init_x s) (xmean s) (xold s) (pc s) (ps s) (A s) (Ainv s) x (counteval s) (update_crit s) (chiN s) (istep s) (randz s).
Definition set_counteval (x : _) (s : t) : t :=
  mk (space_dimen s) (maximize s) (lambda_ s) (mu s) (weights s) (mueff s) (sigma s) (cc s) (cs s) (c1 s) (damps s) (init_x s) (xmean s) (xold s) (pc s) (ps s) (A s) (Ainv s) (eigeneval s) x (update_crit s) (chiN s) (istep s) (randz s).
Definition set_istep (x : _) (s : t) : t :=
  mk (space_dimen s) (maximize s) (lambda_ s) (mu s) (weights s) (mueff s) (sigma s) (cc s) (cs s) (c1 s) (damps s) (init_x s) (xmean s) (xold s) (pc s) (ps s) (A s) (Ainv s) (eigeneval s) (counteval s) (update_crit s) (chiN s) x (randz s).
Definition set_randz (x : _) (s : t) : t :=
  mk (space_dimen s) (maximize s) (lambda_ s) (mu s) (weights s) (mueff s) (sigma s) (cc s) (cs s) (c1 s) (damps s) (init_x s) (xmean s) (xold s) (pc s) (ps s) (A s) (Ainv s) (eigeneval s) (counteval s) (update_crit s) (chiN s) (istep s) x.

(** [__init__]. *)
Definition init (space_dimen : nat) (population_size : option nat)
  (init_sigma : T) (init_code : option (list T)) (Aupdate_freq : option Z)
  (maximize : bool) (params : optim_params) : result t :=
  let N := space_dimen in
  let lambda_ := match population_size with
                 | None => default_lambda (T:=T) N
                 | Some p => p
                 end in
  let mu_f := sofnat lambda_ / sofZ 2 in
  let w := log_weights mu_f in
  let mu := Z.to_nat (sfloor mu_f) in
  let weights := normalize w in
  let mueff := sqr (lsum weights) / lsum (map sqr weights) in
  let cc := override (op_cc params) (sofZ 4 / (sofnat N + sofZ 4)) in
  let cs := override (op_cs params)
              (ssqrt mueff / (ssqrt mueff + ssqrt (sofnat N))) in
  let c1 := override (op_c1 params)
              (sofZ 2 / sqr (sofnat N + ssqrt (sofZ 2))) in
  let damps := sofZ 1 + cs
               + sofZ 2 * smax (sofZ 0)
                   (ssqrt ((mueff - sofZ 1) / (sofnat N + sofZ 1)) - sofZ 1) in
  rbind (reshape_init N init_code) (fun init_x =>
  let update_crit := match Aupdate_freq with
                     | None => sofnat lambda_ / c1 / sofnat N / sofZ 10
                     | Some f => sofZ (f * Z.of_nat lambda_)
                     end in
  Ok (mk N maximize lambda_ mu (row_of_list weights) mueff init_sigma
         cc cs c1 damps init_x
         (zeros 1 N) (zeros 1 N) (zeros 1 N) (zeros 1 N)
         (eye N N) (eye N N) 0%Z 0%Z update_crit (chi N) 0 None)).

(** [np.argsort(scores)] when minimizing, [np.argsort(-scores)] otherwise. *)
Definition sort_index (maximize : bool) (scores : list T) : list nat :=
  if maximize then argsort (map sopp scores) else argsort scores.

(** Lines 93-98: the mean of the first generation. *)
Definition init_mean (code_sort_index : list nat) (codes : matrix T) : M t unit :=
  self <- get ;;
  match init_x self with
  | None =>
      let select_n := length (firstn (mu self) code_sort_index) in
      let wsel := cols_upto (weights self) select_n in
      let temp_weight := mdivs wsel (msum wsel) in
      sel <- lift (take_rows codes (firstn (mu self) code_sort_index)) ;;
      xm <- lift (matmul temp_weight sel) ;;
      modify (set_xmean xm)
  | Some x => modify (set_xmean x)
  end.

(** The attribute [self.randz]. *)
Definition get_randz : M t (matrix T) :=
  self <- get ;;
  match randz self with
  | Some z => ret z
  | None => raise AttributeError
  end.

(** Lines 100-107: recombination, evolution paths and step size. *)
Definition update_paths (code_sort_index : list nat) (codes : matrix T) : M t unit :=
  self <- get ;;
  modify (set_xold (xmean self)) ;;
  sel <- lift (take_rows codes (firstn (mu self) code_sort_index)) ;;
  xm <- lift (matmul (weights self) sel) ;;
  modify (set_xmean xm) ;;
  rz <- get_randz ;;
  rsel <- lift (take_rows rz (firstn (mu self) code_sort_index)) ;;
  randzw <- lift (matmul (weights self) rsel) ;;
  ps' <- lift (madd (scale (sofZ 1 - cs self) (ps self))
                 (scale (ssqrt (cs self * (sofZ 2 - cs self) * mueff self)) randzw)) ;;
  modify (set_ps ps') ;;
  zA <- lift (matmul (scale (ssqrt (cc self * (sofZ 2 - cc self) * mueff self)) randzw)
                (A self)) ;;
  pc' <- lift (madd (scale (sofZ 1 - cc self) (pc self)) zA) ;;
  modify (set_pc pc') ;;
  modify (set_sigma
            (sigma self
             * sexp ((cs self / damps self) * (norm ps' / chiN self - sofZ 1)))).

(** Lines 113-121: the rank-one refresh of the factor pair.  [pc] has one
    row, so [v @ v.T] is a 1x1 array that numpy broadcasts as a scalar; the
    model reads its element. *)
Definition refresh : M t unit :=
  self <- get ;;
  modify (set_eigeneval (counteval self)) ;;
  v <- lift (matmul (pc self) (Ainv self)) ;;
  vv <- lift (matmul v (transpose v)) ;;
  let normv := item vv in
  let c1 := c1 self in
  cA <- lift (matmul
                (scale (ssqrt (sofZ 1 - c1) / normv
                        * (ssqrt (sofZ 1 + normv * c1 / (sofZ 1 - c1)) - sofZ 1))
                   (transpose v))
                (pc self)) ;;
  A' <- lift (madd (scale (ssqrt (sofZ 1 - c1)) (A self)) cA) ;;
  modify (set_A A') ;;
  u <- lift (matmul
               (scale (sofZ 1 / ssqrt (sofZ 1 - c1) / normv
                       * (sofZ 1 - sofZ 1 / ssqrt (sofZ 1 + normv * c1 / (sofZ 1 - c1))))
                  (Ainv self))
               (transpose v)) ;;
  cAinv <- lift (matmul u v) ;;
  Ainv' <- lift (msub (scale (sofZ 1 / ssqrt (sofZ 1 - c1)) (Ainv self)) cAinv) ;;
  modify (set_Ainv Ainv').

(** Line 112: [self.counteval - self.eigeneval > self.update_crit]. *)
Definition refresh_due (self : t) : bool :=
  update_crit self <? sofZ (counteval self - eigeneval self).

(** Lines 127-138: sampling the next generation from the drawn normals [z]. *)
Definition sample (z : nat -> nat -> T) : M t (matrix T) :=
  self <- get ;;
  let rz := mk_matrix (lambda_ self) (space_dimen self) z in
  modify (set_randz (Some rz)) ;;
  zA <- lift (matmul (scale (sigma self) rz) (A self)) ;;
  new_samples <- lift (madd (xmean self) zA) ;;
  modify (fun s => set_counteval (counteval s + Z.of_nat (lambda_ s))%Z s) ;;
  modify (fun s => set_istep (S (istep s)) s) ;;
  ret new_samples.

(** [step_simple(scores, codes)]; [z] is what [randn(lambda_, N)] returns in
    this call.  Printing is left out. *)
Definition step_simple (scores : list T) (codes : matrix T)
  (z : nat -> nat -> T) : M t (matrix T) :=
  self <- get ;;
  let code_sort_index := sort_index (maximize self) scores in
  (if Nat.eqb (istep self) 0 then init_mean code_sort_index codes
   else
     update_paths code_sort_index codes ;;
     self <- get ;;
     if refresh_due self then refresh else ret tt) ;;
  sample z.
End Engine.
End CholeskyCMAES.

(** ** CholeskyCMAES_torch

    The object has the attributes of [CholeskyCMAES.t] (device and dtype
    aside) and [__init__] makes the same assignments; [step_simple] groups
    some products differently and reads [normv] with [.item()]. *)

Module CholeskyCMAES_torch.
Import CholeskyCMAES.
Section Engine.
Context {T : Type} `{Num T} `{Trans T}.
Local Open Scope num_scope.
Local Open Scope monad_scope.

Definition t : Type := CholeskyCMAES.t (T:=T).

Definition init := CholeskyCMAES.init (T:=T).

(** [x.item()]: the tensor must hold exactly one element. *)
Definition item_checked (a : matrix T) : result T :=
  if Nat.eqb (nrows a * ncols a) 1 then Ok (item a) else Raise RuntimeError.

(** Lines 251-260. *)
Definition update_paths (code_sort_index : list nat) (codes : matrix T) : M t unit :=
  self <- get ;;
  modify (set_xold (xmean self)) ;;
  sel <- lift (take_rows codes (firstn (mu self) code_sort_index)) ;;
  xm <- lift (matmul (weights self) sel) ;;
  modify (set_xmean xm) ;;
  rz <- get_randz ;;
  rsel <- lift (take_rows rz (firstn (mu self) code_sort_index)) ;;
  randzw <- lift (matmul (weights self) rsel) ;;
  ps' <- lift (madd (scale (sofZ 1 - cs self) (ps self))
                 (scale (ssqrt (cs self * (sofZ 2 - cs self) * mueff self)) randzw)) ;;
  modify (set_ps ps') ;;
  zA <- lift (matmul randzw (A self)) ;;
  pc' <- lift (madd (scale (sofZ 1 - cc self) (pc self))
                 (scale (ssqrt (cc self * (sofZ 2 - cc self) * mueff self)) zA)) ;;
  modify (set_pc pc') ;;
  modify (set_sigma
            (sigma self
             * sexp ((cs self / damps self) * (norm ps' / chiN self - sofZ 1)))).

(** Lines 266-274. *)
Definition refresh : M t unit :=
  self <- get ;;
  modify (set_eigeneval (counteval self)) ;;
  v <- lift (matmul (pc self) (Ainv self)) ;;
  vv <- lift (matmul v (transpose v)) ;;
  normv <- lift (item_checked vv) ;;
  let c1 := c1 self in
  let sqrt_term := ssqrt (sofZ 1 + normv * c1 / (sofZ 1 - c1)) in
  cA <- lift (matmul
                (scale (ssqrt (sofZ 1 - c1) / normv * (sqrt_term - sofZ 1))
                   (transpose v))
                (pc self)) ;;
  A' <- lift (madd (scale (ssqrt (sofZ 1 - c1)) (A self)) cA) ;;
  modify (set_A A') ;;
  u <- lift (matmul (Ainv self) (transpose v)) ;;
  uv <- lift (matmul u v) ;;
  Ainv' <- lift (msub (scale (sofZ 1 / ssqrt (sofZ 1 - c1)) (Ainv self))
                   (scale (sofZ 1 / (ssqrt (sofZ 1 - c1) * normv)
                           * (sofZ 1 - sofZ 1 / sqrt_term)) uv)) ;;
  modify (set_Ainv Ainv').

(** Lines 280-284. *)
Definition sample (z : nat -> nat -> T) : M t (matrix T) :=
  self <- get ;;
  let rz := mk_matrix (lambda_ self) (space_dimen self) z in
  modify (set_randz (Some rz)) ;;
  zA <- lift (matmul rz (A self)) ;;
  new_samples <- lift (madd (xmean self) (scale (sigma self) zA)) ;;
  modify (fun s => set_counteval (counteval s + Z.of_nat (lambda_ s))%Z s) ;;
  modify (fun s => set_istep (S (istep s)) s) ;;
  ret new_samples.

Definition step_simple (scores : list T) (codes : matrix T)
  (z : nat -> nat -> T) : M t (matrix T) :=
  self <- get ;;
  let code_sort_index := sort_index (maximize self) scores in
  (if Nat.eqb (istep self) 0 then init_mean code_sort_index codes
   else
     update_paths code_sort_index codes ;;
     self <- get ;;
     if refresh_due self then refresh else ret tt) ;;
  sample z.
End Engine.
End CholeskyCMAES_torch.

(** ** CholeskyCMAES_torch_noCMA: the copy with the factor pair commented out *)

Module CholeskyCMAES_torch_noCMA.
Section Engine.
Context {T : Type} `{Num T} `{Trans T}.
Local Open Scope num_scope.
Local Open Scope monad_scope.

(** The attributes: those of the torch engine without [A] and [Ainv]. *)
Record t : Type := mk {
  space_dimen : nat;
  maximize : bool;
  lambda_ : nat;
  mu : nat;
  weights : matrix T;
  mueff : T;
  sigma : T;
  cc : T;
  cs : T;
  c1 : T;
  damps : T;
  init_x : option (matrix T);
  xmean : matrix T;
  xold : matrix T;
  pc : matrix T;
  ps : matrix T;
  eigeneval : Z;
  counteval : Z;
  update_crit : T;
  chiN : T;
  istep : nat;
  randz : option (matrix T)
}.

Definition set_sigma (x : _) (s : t) : t :=
  mk (space_dimen s) (maximize s) (lambda_ s) (mu s) (weights s) (mueff s) x (cc s) (cs s) (c1 s) (damps s) (init_x s) (xmean s) (xold s) (pc s) (ps s) (eigeneval s) (counteval s) (update_crit s) (chiN s) (istep s) (randz s).
Definition set_xmean (x : _) (s : t) : t :=
  mk (space_dimen s) (maximize s) (lambda_ s) (mu s) (weights s) (mueff s) (sigma s) (cc s) (cs s) (c1 s) (damps s) (init_x s) x (xold s) (pc s) (ps s) (eigeneval s) (counteval s) (update_crit s) (chiN s) (istep s) (randz s).
Definition set_xold (x : _) (s : t) : t :=
  mk (space_dimen s) (maximize s) (lambda_ s) (mu s) (weights s) (mueff s) (sigma s) (cc s) (cs s) (c1 s) (damps s) (init_x s) (xmean s) x (pc s) (ps s) (eigeneval s) (counteval s) (update_crit s) (chiN s) (istep s) (randz s).
Definition set_pc (x : _) (s : t) : t :=
  mk (space_dimen s) (maximize s) (lambda_ s) (mu s) (weights s) (mueff s) (sigma s) (cc s) (cs s) (c1 s) (damps s) (init_x s) (xmean s) (xold s) x (ps s) (eigeneval s) (counteval s) (update_crit s) (chiN s) (istep s) (randz s).
Definition set_ps (x : _) (s : t) : t :=
  mk (space_dimen s) (maximize s) (lambda_ s) (mu s) (weights s) (mueff s) (sigma s) (cc s) (cs s) (c1 s) (damps s) (init_x s) (xmean s) (xold s) (pc s) x (eigeneval s) (counteval s) (update_crit s) (chiN s) (istep s) (randz s).
Definition set_counteval (x : _) (s : t) : t :=
  mk (space_dimen s) (maximize s) (lambda_ s) (mu s) (weights s) (mueff s) (sigma s) (cc s) (cs s) (c1 s) (damps s) (init_x s) (xmean s) (xold s) (pc s) (ps s) (eigeneval s) x (update_crit s) (chiN s) (istep s) (randz s).
Definition set_istep (x : _) (s : t) : t :=
  mk (space_dimen s) (maximize s) (lambda_ s) (mu s) (weights s) (mueff s) (sigma s) (cc s) (cs s) (c1 s) (damps s) (init_x s) (xmean s) (xold s) (pc s) (ps s) (eigeneval s) (counteval s) (update_crit s) (chiN s) x (randz s).
Definition set_randz (x : _) (s : t) : t :=
  mk (space_dimen s) (maximize s) (lambda_ s) (mu s) (weights s) (mueff s) (sigma s) (cc s) (cs s) (c1 s) (damps s) (init_x s) (xmean s) (xold s) (pc s) (ps s) (eigeneval s) (counteval s) (update_crit s) (chiN s) (istep s) x.

(** [__init__]. *)
Definition init (space_dimen : nat) (population_size : option nat)
  (init_sigma : T) (init_code : option (list T)) (Aupdate_freq : option Z)
  (maximize : bool) (params : optim_params) : result t :=
  let N := space_dimen in
  let lambda_ := match population_size with
                 | None => default_lambda (T:=T) N
                 | Some p => p
                 end in
  let mu_f := sofnat lambda_ / sofZ 2 in
  let mu := Z.to_nat (sfloor mu_f) in
  let w := log_weights mu_f in
  let weights := normalize w in
  let mueff := sqr (lsum weights) / lsum (map sqr weights) in
  let cc := override (op_cc params) (sofZ 4 / (sofnat N + sofZ 4)) in
  let cs := override (op_cs params)
              (ssqrt mueff / (ssqrt mueff + ssqrt (sofnat N))) in
  let c1 := override (op_c1 params)
              (sofZ 2 / sqr (sofnat N + ssqrt (sofZ 2))) in
  let damps := sofZ 1 + cs
               + sofZ 2 * smax (sofZ 0)
                   (ssqrt ((mueff - sofZ 1) / (sofnat N + sofZ 1)) - sofZ 1) in
  rbind (reshape_init N init_code) (fun init_x =>
  let update_crit := match Aupdate_freq with
                     | None => sofnat lambda_ / c1 / sofnat N / sofZ 10
                     | Some f => sofZ (f * Z.of_nat lambda_)
                     end in
  Ok (mk N maximize lambda_ mu (row_of_list weights) mueff init_sigma
         cc cs c1 damps init_x
         (zeros 1 N) (zeros 1 N) (zeros 1 N) (zeros 1 N)
         0%Z 0%Z update_crit (chi N) 0 None)).

Definition sort_index := CholeskyCMAES.sort_index (T:=T).

(** Lines 376-381. *)
Definition init_mean (code_sort_index : list nat) (codes : matrix T) : M t unit :=
  self <- get ;;
  match init_x self with
  | None =>
      let select_n := length (firstn (mu self) code_sort_index) in
      let wsel := cols_upto (weights self) select_n in
      let temp_weight := mdivs wsel (msum wsel) in
      sel <- lift (take_rows codes (firstn (mu self) code_sort_index)) ;;
      xm <- lift (matmul temp_weight sel) ;;
      modify (set_xmean xm)
  | Some x => modify (set_xmean x)
  end.

Definition get_randz : M t (matrix T) :=
  self <- get ;;
  match randz self with
  | Some z => ret z
  | None => raise AttributeError
  end.

(** Lines 383-392: as the torch engine, without [@ self.A]. *)
Definition update_paths (code_sort_index : list nat) (codes : matrix T) : M t unit :=
  self <- get ;;
  modify (set_xold (xmean self)) ;;
  sel <- lift (take_rows codes (firstn (mu self) code_sort_index)) ;;
  xm <- lift (matmul (weights self) sel) ;;
  modify (set_xmean xm) ;;
  rz <- get_randz ;;
  rsel <- lift (take_rows rz (firstn (mu self) code_sort_index)) ;;
  randzw <- lift (matmul (weights self) rsel) ;;
  ps' <- lift (madd (scale (sofZ 1 - cs self) (ps self))
                 (scale (ssqrt (cs self * (sofZ 2 - cs self) * mueff self)) randzw)) ;;
  modify (set_ps ps') ;;
  pc' <- lift (madd (scale (sofZ 1 - cc self) (pc self))
                 (scale (ssqrt (cc self * (sofZ 2 - cc self) * mueff self)) randzw)) ;;
  modify (set_pc pc') ;;
  modify (set_sigma
            (sigma self
             * sexp ((cs self / damps self) * (norm ps' / chiN self - sofZ 1)))).

(** Lines 412-416. *)
Definition sample (z : nat -> nat -> T) : M t (matrix T) :=
  self <- get ;;
  let rz := mk_matrix (lambda_ self) (space_dimen self) z in
  modify (set_randz (Some rz)) ;;
  new_samples <- lift (madd (xmean self) (scale (sigma self) rz)) ;;
  modify (fun s => set_counteval (counteval s + Z.of_nat (lambda_ s))%Z s) ;;
  modify (fun s => set_istep (S (istep s)) s) ;;
  ret new_samples.

Definition step_simple (scores : list T) (codes : matrix T)
  (z : nat -> nat -> T) : M t (matrix T) :=
  self <- get ;;
  let code_sort_index := sort_index (maximize self) scores in
  (if Nat.eqb (istep self) 0 then init_mean code_sort_index codes
   else update_paths code_sort_index codes) ;;
  sample z.
End Engine.
End CholeskyCMAES_torch_noCMA.

(** ** rankweight *)

Module RankWeighting.
Section Weights.
Context {T : Type} `{Num T} `{Trans T}.
Local Open Scope num_scope.

(** [rankweight(lambda_, mu=None)].  The slice [weights[:mu_int]] has
    [min(mu_int, lambda_)] elements (for a negative [mu_int], all but the
    last [-mu_int]); the assignment needs a right-hand side of that length
    or of length 1, and raises ValueError otherwise. *)
Definition rankweight (lambda_ : nat) (mu : option T) : result (list T) :=
  let mu := match mu with
            | None => sofnat lambda_ / sofZ 2
            | Some m => m
            end in
  let mu_int := sfloor mu in
  let rhs := log_weights mu in
  let slice_len := if (mu_int <? 0)%Z
                   then Z.to_nat (Z.of_nat lambda_ + mu_int)
                   else Nat.min (Z.to_nat mu_int) lambda_ in
  if Nat.eqb (length rhs) slice_len || Nat.eqb (length rhs) 1
  then let weights := firstn slice_len rhs ++ repeat s0 (lambda_ - slice_len) in
       Ok (normalize weights)
  else Raise ValueError.
End Weights.
End RankWeighting.

(** ** ZOHA_Sphere_lr_euclid *)

Module ZOHA_Sphere_lr_euclid.
Section Engine.
Context {T : Type} `{Num T} `{Trans T}.
Local Open Scope num_scope.
Local Open Scope monad_scope.

(** [ExpMap] and [SLERP] of circuit_toolkit/geometry_utils.py, which is not
    among the sources; the engine is parameterized by them.  [ang_dist] only
    feeds the printed diagnostics and is left out with the printing. *)
Variable ExpMap : matrix T -> matrix T -> matrix T.
Variable SLERP : matrix T -> matrix T -> T -> matrix T.

(** Modelled from the spec: [renormalize] of circuit_toolkit/geometry_utils.py
    is not among the sources.  The spec has the engine "renormalize every row
    to exactly radius r", a projection "onto the sphere of radius r by
    rescaling to unit norm times r". *)
Definition renormalize (a : matrix T) (r : T) : matrix T :=
  mk_matrix (nrows a) (ncols a) (fun i j => mget a i j / row_norm a i * r).

(** The attributes; [mulist], [mu_init] and [mu_final] exist only after
    [lr_schedule]. *)
Record t : Type := mk {
  dimen : nat;
  B : nat;
  select_cutoff : T;
  sphere_norm : T;
  lr : T;
  tang_codes : matrix T;
  grad : matrix T;
  innerU : matrix T;
  outerV : matrix T;
  xcur : matrix T;
  xnew : matrix T;
  istep : Z;
  maximize : bool;
  rankweight : bool;
  rankbasis : bool;
  mulist : option (list T);
  mu_init : option T;
  mu_final : option T
}.

Definition set_tang_codes (x : _) (s : t) : t :=
  mk (dimen s) (B s) (select_cutoff s) (sphere_norm s) (lr s) x (grad s) (innerU s) (outerV s) (xcur s) (xnew s) (istep s) (maximize s) (rankweight s) (rankbasis s) (mulist s) (mu_init s) (mu_final s).
Definition set_innerU (x : _) (s : t) : t :=
  mk (dimen s) (B s) (select_cutoff s) (sphere_norm s) (lr s) (tang_codes s) (grad s) x (outerV s) (xcur s) (xnew s) (istep s) (maximize s) (rankweight s) (rankbasis s) (mulist s) (mu_init s) (mu_final s).
Definition set_outerV (x : _) (s : t) : t :=
  mk (dimen s) (B s) (select_cutoff s) (sphere_norm s) (lr s) (tang_codes s) (grad s) (innerU s) x (xcur s) (xnew s) (istep s) (maximize s) (rankweight s) (rankbasis s) (mulist s) (mu_init s) (mu_final s).
Definition set_xcur (x : _) (s : t) : t :=
  mk (dimen s) (B s) (select_cutoff s) (sphere_norm s) (lr s) (tang_codes s) (grad s) (innerU s) (outerV s) x (xnew s) (istep s) (maximize s) (rankweight s) (rankbasis s) (mulist s) (mu_init s) (mu_final s).
Definition set_xnew (x : _) (s : t) : t :=
  mk (dimen s) (B s) (select_cutoff s) (sphere_norm s) (lr s) (tang_codes s) (grad s) (innerU s) (outerV s) (xcur s) x (istep s) (maximize s) (rankweight s) (rankbasis s) (mulist s) (mu_init s) (mu_final s).
Definition set_istep (x : _) (s : t) : t :=
  mk (dimen s) (B s) (select_cutoff s) (sphere_norm s) (lr s) (tang_codes s) (grad s) (innerU s) (outerV s) (xcur s) (xnew s) x (maximize s) (rankweight s) (rankbasis s) (mulist s) (mu_init s) (mu_final s).
Definition set_mulist (x : _) (s : t) : t :=
  mk (dimen s) (B s) (select_cutoff s) (sphere_norm s) (lr s) (tang_codes s) (grad s) (innerU s) (outerV s) (xcur s) (xnew s) (istep s) (maximize s) (rankweight s) (rankbasis s) x (mu_init s) (mu_final s).
Definition set_mu_init (x : _) (s : t) : t :=
  mk (dimen s) (B s) (select_cutoff s) (sphere_norm s) (lr s) (tang_codes s) (grad s) (innerU s) (outerV s) (xcur s) (xnew s) (istep s) (maximize s) (rankweight s) (rankbasis s) (mulist s) x (mu_final s).
Definition set_mu_final (x : _) (s : t) : t :=
  mk (dimen s) (B s) (select_cutoff s) (sphere_norm s) (lr s) (tang_codes s) (grad s) (innerU s) (outerV s) (xcur s) (xnew s) (istep s) (maximize s) (rankweight s) (rankbasis s) (mulist s) (mu_init s) x.

(** [__init__]. *)
Definition init (space_dimen population_size : nat) (select_size lr : T)
  (maximize rankweight rankbasis : bool) (sphere_norm : T) : t :=
  mk space_dimen population_size select_size sphere_norm lr
     (zeros population_size space_dimen) (zeros 1 space_dimen)
     (zeros population_size space_dimen) (zeros population_size space_dimen)
     (zeros 1 space_dimen) (zeros 1 space_dimen)
     (-1)%Z maximize rankweight rankbasis None None None.

(** [get_init_pop], from the drawn normals [z]. *)
Definition get_init_pop (z : nat -> nat -> T) (self : t) : matrix T :=
  renormalize (mk_matrix (B self) (dimen self) z) (sphere_norm self).

Inductive schedule_mode : Type := Inv | Lin | Exp | OtherMode.

(** [np.arange(1, n + 1)] as floats. *)
Definition arange1 (n : Z) : list T :=
  map (fun i => sofnat i) (seq 1 (Z.to_nat n)).

(** [np.linspace(start, stop, num)]; a negative [num] is a ValueError. *)
Definition linspace (start stop : T) (num : Z) : result (list T) :=
  if (num <? 0)%Z then Raise ValueError
  else
    let n := Z.to_nat num in
    let step := (stop - start) / sofnat (n - 1) in
    Ok (map (fun i => if Nat.ltb 1 n && Nat.eqb i (n - 1) then stop
                      else sofnat i * step + start)
            (seq 0 n)).

(** [np.logspace(a, b, num)]. *)
Definition logspace (a b : T) (num : Z) : result (list T) :=
  rbind (linspace a b num) (fun l => Ok (map (fun y => spow (sofZ 10) y) l)).

(** [x / 180 * np.pi / sqrt(self.dimen)], elementwise. *)
Definition to_radians (dimen : nat) (l : list T) : list T :=
  map (fun x => x / sofZ 180 * spi / ssqrt (sofnat dimen)) l.

(** [lr_schedule(n_gen, mode, lim)]. *)
Definition lr_schedule (n_gen : Z) (mode : schedule_mode) (lim : T * T)
  : M t unit :=
  self <- get ;;
  match mode with
  | Inv =>
      let l := map (fun k => sofZ 15
                             + sofZ 1 / (sofZ 17 / sofZ 10000 * k
                                         + sofZ 146 / sofZ 10000))
                   (arange1 n_gen) in
      modify (set_mulist (Some l)) ;;
      let l' := to_radians (dimen self) l in
      modify (set_mulist (Some l')) ;;
      a <- lift (index l' 0) ;;
      modify (set_mu_init (Some a)) ;;
      b <- lift (index l' (-1)) ;;
      modify (set_mu_final (Some b))
  | _ =>
      modify (set_mu_init (Some (fst lim))) ;;
      modify (set_mu_final (Some (snd lim))) ;;
      match mode with
      | Lin =>
          l <- lift (linspace (fst lim) (snd lim) n_gen) ;;
          modify (set_mulist (Some (to_radians (dimen self) l)))
      | Exp =>
          l <- lift (logspace (log10 (fst lim)) (log10 (snd lim)) n_gen) ;;
          modify (set_mulist (Some (to_radians (dimen self) l)))
      | _ => ret tt
      end
  end.

(** [x.argsort().argsort()]: the rank of each element. *)
Definition ranks (l : list T) : list nat := argsort_nat (argsort l).

(** [(scores - scores[0]) / self.B]. *)
Definition raw_score_weights (scores : list T) (B : nat) : result (list T) :=
  rbind (index scores 0) (fun s_0 =>
  Ok (map (fun s => (s - s_0) / sofnat B) scores)).

(** [raw_weights[code_rank]]. *)
Definition gather (raw_weights : list T) (code_rank : list nat) : result (list T) :=
  if forallb (fun k => Nat.ltb k (length raw_weights)) code_rank
  then Ok (map (fun k => nth k raw_weights s0) code_rank)
  else Raise IndexError.

(** The weights of the uninitialized generation (lines 482-492). *)
Definition first_weights (self : t) (scores : list T) : result (list T) :=
  if negb (rankweight self) then raw_score_weights scores (B self)
  else
    let code_rank := if negb (maximize self) then ranks scores
                     else ranks (map sopp scores) in
    rbind (RankWeighting.rankweight (length code_rank) None) (fun raw_weights =>
    gather raw_weights code_rank).

(** The weights of a running generation (lines 499-516). *)
Definition running_weights (self : t) (scores : list T) : result (list T) :=
  if negb (rankweight self) then raw_score_weights scores (B self)
  else
    let rankedscore := if negb (rankbasis self) then tl scores else scores in
    let code_rank := if negb (maximize self) then ranks rankedscore
                     else ranks (map sopp rankedscore) in
    rbind (RankWeighting.rankweight (length code_rank) (Some (select_cutoff self)))
      (fun raw_weights =>
    rbind (gather raw_weights code_rank) (fun weights =>
    Ok (if negb (rankbasis self) then s0 :: weights else weights))).

(** [w_mean / norm(w_mean) * self.sphere_norm]. *)
Definition to_shell (w_mean : matrix T) (r : T) : matrix T :=
  mmuls (mdivs w_mean (norm w_mean)) r.

(** Lines 477-525: the new base point. *)
Definition move_base (scores : list T) (codes : matrix T) : M t unit :=
  self <- get ;;
  modify (set_xcur (first_row codes)) ;;
  if (istep self =? -1)%Z then
    weights <- lift (first_weights self scores) ;;
    w_mean <- lift (matmul (row_of_list weights) codes) ;;
    modify (set_xnew (to_shell w_mean (sphere_norm self)))
  else
    weights <- lift (running_weights self scores) ;;
    w_mean <- lift (matmul (row_of_list weights) codes) ;;
    let w_mean := to_shell w_mean (sphere_norm self) in
    modify (set_xnew (SLERP (first_row codes) w_mean (lr self))).

(** Line 532: the tangent scale of this generation. *)
Definition schedule_entry (self : t) : result T :=
  match mulist self with
  | None => Raise AttributeError
  | Some l =>
      if (istep self <? Z.of_nat (length l) - 1)%Z
      then index l (istep self + 1)
      else index l (-1)
  end.

(** [dst[...] = src] for a destination of [r] rows and [c] columns: the
    source is broadcast to that shape or the assignment raises. *)
Definition assign_block (r c : nat) (src : matrix T) : result (matrix T) :=
  if (Nat.eqb (nrows src) r || Nat.eqb (nrows src) 1)
     && (Nat.eqb (ncols src) c || Nat.eqb (ncols src) 1)
  then Ok (mk_matrix r c (fun i j =>
             mget src (bidx (nrows src) i) (bidx (ncols src) j)))
  else Raise ValueError.

(** Lines 528-543: the samples before the final renormalization. *)
Definition propose (z : nat -> nat -> T) : M t (matrix T) :=
  self <- get ;;
  let N := dimen self in
  modify (set_tang_codes (zeros (B self) N)) ;;
  let U := mk_matrix (B self) N z in
  modify (set_innerU U) ;;
  modify (set_outerV U) ;;
  p <- lift (matmul U (transpose (xnew self))) ;;
  q <- lift (matmul p (xnew self)) ;;
  V <- lift (msub U (mdivs q (sqr (norm (xnew self))))) ;;
  modify (set_outerV V) ;;
  mu <- lift (schedule_entry self) ;;
  row0 <- lift (assign_block 1 N (xnew self)) ;;
  modify (set_tang_codes (scale mu V)) ;;
  rest <- lift (assign_block (B self) N (ExpMap (xnew self) (scale mu V))) ;;
  modify (fun s => set_istep (istep s + 1)%Z s) ;;
  ret (mk_matrix (S (B self)) N
         (fun i j => match i with
                     | O => mget row0 0 j
                     | S i' => mget rest i' j
                     end)).

(** [step_simple(scores, codes, verbosity)].  Of the printing only the
    exception of [max(scores)] on an empty score array is kept. *)
Definition step_simple (scores : list T) (codes : matrix T) (verbosity : bool)
  (z : nat -> nat -> T) : M t (matrix T) :=
  (if verbosity && Nat.eqb (length scores) 0 then raise ValueError else ret tt) ;;
  move_base scores codes ;;
  new_samples <- propose z ;;
  self <- get ;;
  ret (renormalize new_samples (sphere_norm self)).
End Engine.
End ZOHA_Sphere_lr_euclid.

(** ** HessCMAES: construction and [set_Hessian] *)

Module HessCMAES.
Section Engine.
Context {T : Type} `{Num T} `{Trans T}.
Local Open Scope num_scope.
Local Open Scope monad_scope.

(** The attributes; [eigvals], [eigvects] and [scaling] exist only after
    [set_Hessian]. *)
Record t : Type := mk {
  code_len : nat;
  space_dimen : nat;
  maximize : bool;
  lambda_ : nat;
  mu : nat;
  weights : matrix T;
  mueff : T;
  sigma : T;
  cc : T;
  cs : T;
  c1 : T;
  damps : T;
  init_x : option (matrix T);
  xmean : matrix T;
  xold : matrix T;
  pc : matrix T;
  ps : matrix T;
  A : matrix T;
  Ainv : matrix T;
  eigeneval : Z;
  counteval : Z;
  update_crit : T;
  chiN : T;
  istep : nat;
  randz : option (matrix T);
  eigvals : option (list T);
  eigvects : option (matrix T);
  scaling : option (list T)
}.

Definition set_A (x : _) (s : t) : t :=
  mk (code_len s) (space_dimen s) (maximize s) (lambda_ s) (mu s) (weights s) (mueff s) (sigma s) (cc s) (cs s) (c1 s) (damps s) (init_x s) (xmean s) (xold s) (pc s) (ps s) x (Ainv s) (eigeneval s) (counteval s) (update_crit s) (chiN s) (istep s) (randz s) (eigvals s) (eigvects s) (scaling s).
Definition set_Ainv (x : _) (s : t) : t :=
  mk (code_len s) (space_dimen s) (maximize s) (lambda_ s) (mu s) (weights s) (mueff s) (sigma s) (cc s) (cs s) (c1 s) (damps s) (init_x s) (xmean s) (xold s) (pc s) (ps s) (A s) x (eigeneval s) (counteval s) (update_crit s) (chiN s) (istep s) (randz s) (eigvals s) (eigvects s) (scaling s).
Definition set_eigvals (x : _) (s : t) : t :=
  mk (code_len s) (space_dimen s) (maximize s) (lambda_ s) (mu s) (weights s) (mueff s) (sigma s) (cc s) (cs s) (c1 s) (damps s) (init_x s) (xmean s) (xold s) (pc s) (ps s) (A s) (Ainv s) (eigeneval s) (counteval s) (update_crit s) (chiN s) (istep s) (randz s) x (eigvects s) (scaling s).
Definition set_eigvects (x : _) (s : t) : t :=
  mk (code_len s) (space_dimen s) (maximize s) (lambda_ s) (mu s) (weights s) (mueff s) (sigma s) (cc s) (cs s) (c1 s) (damps s) (init_x s) (xmean s) (xold s) (pc s) (ps s) (A s) (Ainv s) (eigeneval s) (counteval s) (update_crit s) (chiN s) (istep s) (randz s) (eigvals s) x (scaling s).
Definition set_scaling (x : _) (s : t) : t :=
  mk (code_len s) (space_dimen s) (maximize s) (lambda_ s) (mu s) (weights s) (mueff s) (sigma s) (cc s) (cs s) (c1 s) (damps s) (init_x s) (xmean s) (xold s) (pc s) (ps s) (A s) (Ainv s) (eigeneval s) (counteval s) (update_crit s) (chiN s) (istep s) (randz s) (eigvals s) (eigvects s) x.

(** [__init__]: the engine works in [cutoff] dimensions, [space_dimen]
    being kept as [code_len]. *)
Definition init (space_dimen : nat) (population_size : option nat)
  (cutoff : option nat) (init_sigma : T) (init_code : option (list T))
  (Aupdate_freq : option Z) (maximize : bool) (params : optim_params) : t :=
  let cutoff := match cutoff with None => space_dimen | Some c => c end in
  let N := cutoff in
  let lambda_ := match population_size with
                 | None => default_lambda (T:=T) N
                 | Some p => p
                 end in
  let mu_f := sofnat lambda_ / sofZ 2 in
  let w := log_weights mu_f in
  let mu := Z.to_nat (sfloor mu_f) in
  let weights := normalize w in
  let mueff := sqr (lsum weights) / lsum (map sqr weights) in
  let cc := override (op_cc params) (sofZ 4 / (sofnat N + sofZ 4)) in
  let cs := override (op_cs params)
              (ssqrt mueff / (ssqrt mueff + ssqrt (sofnat N))) in
  let c1 := override (op_c1 params)
              (sofZ 2 / sqr (sofnat N + ssqrt (sofZ 2))) in
  let damps := sofZ 1 + cs
               + sofZ 2 * smax (sofZ 0)
                   (ssqrt ((mueff - sofZ 1) / (sofnat N + sofZ 1)) - sofZ 1) in
  let init_x := match init_code with
                | None => None
                | Some l => Some (row_of_list l)
                end in
  let update_crit := match Aupdate_freq with
                     | None => sofnat lambda_ / c1 / sofnat N / sofZ 10
                     | Some f => sofZ (f * Z.of_nat lambda_)
                     end in
  mk space_dimen cutoff maximize lambda_ mu (row_of_list weights) mueff
     init_sigma cc cs c1 damps init_x
     (zeros 1 N) (zeros 1 N) (zeros 1 space_dimen) (zeros 1 N)
     (eye N space_dimen) (eye space_dimen N)
     0%Z 0%Z update_crit (chi N) 0 None None None None.

(** The default of [expon]: [1/2.5]. *)
Definition default_expon : T := sofZ 1 / (sofZ 5 / sofZ 2).

(** [set_Hessian(eigvals, eigvects, cutoff, expon)]: the [cutoff] argument
    is overwritten by [self.space_dimen]. *)
Definition set_Hessian (eigvals : list T) (eigvects : matrix T)
  (cutoff : option nat) (expon : T) : M t unit :=
  self <- get ;;
  let cutoff := space_dimen self in
  let ev := firstn cutoff eigvals in
  modify (set_eigvals (Some ev)) ;;
  let V := cols_upto eigvects cutoff in
  modify (set_eigvects (Some V)) ;;
  let scaling := map (fun x => spow x (- expon)) ev in
  modify (set_scaling (Some scaling)) ;;
  A' <- lift (mmul_elt (col_of_list scaling) (transpose V)) ;;
  modify (set_A A') ;;
  Ainv' <- lift (mmul_elt (row_of_list (map (fun x => sofZ 1 / x) scaling)) V) ;;
  modify (set_Ainv Ainv').

(** ** HessCMAES: [step_simple]

    The method copies [sigma], [A], [Ainv], [ps] and [pc] into local
    variables, works on the copies and assigns them back in its last
    statements; the mean, [eigeneval], [randz] and [counteval] are assigned
    on the way. *)
Definition set_sigma (x : _) (s : t) : t :=
  mk (code_len s) (space_dimen s) (maximize s) (lambda_ s) (mu s) (weights s) (mueff s) x (cc s) (cs s) (c1 s) (damps s) (init_x s) (xmean s) (xold s) (pc s) (ps s) (A s) (Ainv s) (eigeneval s) (counteval s) (update_crit s) (chiN s) (istep s) (randz s) (eigvals s) (eigvects s) (scaling s).
Definition set_xmean (x : _) (s : t) : t :=
  mk (code_len s) (space_dimen s) (maximize s) (lambda_ s) (mu s) (weights s) (mueff s) (sigma s) (cc s) (cs s) (c1 s) (damps s) (init_x s) x (xold s) (pc s) (ps s) (A s) (Ainv s) (eigeneval s) (counteval s) (update_crit s) (chiN s) (istep s) (randz s) (eigvals s) (eigvects s) (scaling s).
Definition set_xold (x : _) (s : t) : t :=
  mk (code_len s) (space_dimen s) (maximize s) (lambda_ s) (mu s) (weights s) (mueff s) (sigma s) (cc s) (cs s) (c1 s) (damps s) (init_x s) (xmean s) x (pc s) (ps s) (A s) (Ainv s) (eigeneval s) (counteval s) (update_crit s) (chiN s) (istep s) (randz s) (eigvals s) (eigvects s) (scaling s).
Definition set_pc (x : _) (s : t) : t :=
  mk (code_len s) (space_dimen s) (maximize s) (lambda_ s) (mu s) (weights s) (mueff s) (sigma s) (cc s) (cs s) (c1 s) (damps s) (init_x s) (xmean s) (xold s) x (ps s) (A s) (Ainv s) (eigeneval s) (counteval s) (update_crit s) (chiN s) (istep s) (randz s) (eigvals s) (eigvects s) (scaling s).
Definition set_ps (x : _) (s : t) : t :=
  mk (code_len s) (space_dimen s) (maximize s) (lambda_ s) (mu s) (weights s) (mueff s) (sigma s) (cc s) (cs s) (c1 s) (damps s) (init_x s) (xmean s) (xold s) (pc s) x (A s) (Ainv s) (eigeneval s) (counteval s) (update_crit s) (chiN s) (istep s) (randz s) (eigvals s) (eigvects s) (scaling s).
Definition set_eigeneval (x : _) (s : t) : t :=
  mk (code_len s) (space_dimen s) (maximize s) (lambda_ s) (mu s) (weights s) (mueff s) (sigma s) (cc s) (cs s) (c1 s) (damps s) (init_x s) (xmean s) (xold s) (pc s) (ps s) (A s) (Ainv s) x (counteval s) (update_crit s) (chiN s) (istep s) (randz s) (eigvals s) (eigvects s) (scaling s).
Definition set_counteval (x : _) (s : t) : t :=
  mk (code_len s) (space_dimen s) (maximize s) (lambda_ s) (mu s) (weights s) (mueff s) (sigma s) (cc s) (cs s) (c1 s) (damps s) (init_x s) (xmean s) (xold s) (pc s) (ps s) (A s) (Ainv s) (eigeneval s) x (update_crit s) (chiN s) (istep s) (randz s) (eigvals s) (eigvects s) (scaling s).
Definition set_istep (x : _) (s : t) : t :=
  mk (code_len s) (space_dimen s) (maximize s) (lambda_ s) (mu s) (weights s) (mueff s) (sigma s) (cc s) (cs s) (c1 s) (damps s) (init_x s) (xmean s) (xold s) (pc s) (ps s) (A s) (Ainv s) (eigeneval s) (counteval s) (update_crit s) (chiN s) x (randz s) (eigvals s) (eigvects s) (scaling s).
Definition set_randz (x : _) (s : t) : t :=
  mk (code_len s) (space_dimen s) (maximize s) (lambda_ s) (mu s) (weights s) (mueff s) (sigma s) (cc s) (cs s) (c1 s) (damps s) (init_x s) (xmean s) (xold s) (pc s) (ps s) (A s) (Ainv s) (eigeneval s) (counteval s) (update_crit s) (chiN s) (istep s) x (eigvals s) (eigvects s) (scaling s).

(** The local variables [sigma, A, Ainv, ps, pc] of a call. *)
Record locals : Type := mk_locals {
  l_sigma : T;
  l_A : matrix T;
  l_Ainv : matrix T;
  l_ps : matrix T;
  l_pc : matrix T
}.

(** Lines 643-648: the mean of the first generation. *)
Definition init_mean (code_sort_index : list nat) (codes : matrix T) : M t unit :=
  self <- get ;;
  match init_x self with
  | None =>
      let select_n := length (firstn (mu self) code_sort_index) in
      let wsel := cols_upto (weights self) select_n in
      let temp_weight := mdivs wsel (msum wsel) in
      sel <- lift (take_rows codes (firstn (mu self) code_sort_index)) ;;
      xm <- lift (matmul temp_weight sel) ;;
      modify (set_xmean xm)
  | Some x => modify (set_xmean x)
  end.

(** The attribute [self.randz]. *)
Definition get_randz : M t (matrix T) :=
  self <- get ;;
  match randz self with
  | Some z => ret z
  | None => raise AttributeError
  end.

(** Line 661: [self.counteval - self.eigeneval > self.update_crit]. *)
Definition refresh_due (self : t) : bool :=
  update_crit self <? sofZ (counteval self - eigeneval self).

(** Lines 663-670: the rank-one refresh, on the local copies. *)
Definition refresh_locals (sigma' : T) (ps' pc' : matrix T) (loc : locals)
  : M t locals :=
  self <- get ;;
  modify (set_eigeneval (counteval self)) ;;
  v <- lift (matmul pc' (l_Ainv loc)) ;;
  vv <- lift (matmul v (transpose v)) ;;
  let normv := item vv in
  let c1 := c1 self in
  cA <- lift (matmul
                (scale (ssqrt (sofZ 1 - c1) / normv
                        * (ssqrt (sofZ 1 + normv * c1 / (sofZ 1 - c1)) - sofZ 1))
                   (transpose v))
                pc') ;;
  A' <- lift (madd (scale (ssqrt (sofZ 1 - c1)) (l_A loc)) cA) ;;
  u <- lift (matmul
               (scale (sofZ 1 / ssqrt (sofZ 1 - c1) / normv
                       * (sofZ 1 - sofZ 1 / ssqrt (sofZ 1 + normv * c1 / (sofZ 1 - c1))))
                  (l_Ainv loc))
               (transpose v)) ;;
  cAinv <- lift (matmul u v) ;;
  Ainv' <- lift (msub (scale (sofZ 1 / ssqrt (sofZ 1 - c1)) (l_Ainv loc)) cAinv) ;;
  ret (mk_locals sigma' A' Ainv' ps' pc').

(** Lines 650-672: recombination, evolution paths, step size and refresh of
    a later generation. *)
Definition update_locals (code_sort_index : list nat) (codes : matrix T)
  (loc : locals) : M t locals :=
  self <- get ;;
  modify (set_xold (xmean self)) ;;
  sel <- lift (take_rows codes (firstn (mu self) code_sort_index)) ;;
  xm <- lift (matmul (weights self) sel) ;;
  modify (set_xmean xm) ;;
  rz <- get_randz ;;
  rsel <- lift (take_rows rz (firstn (mu self) code_sort_index)) ;;
  randzw <- lift (matmul (weights self) rsel) ;;
  ps' <- lift (madd (scale (sofZ 1 - cs self) (l_ps loc))
                 (scale (ssqrt (cs self * (sofZ 2 - cs self) * mueff self)) randzw)) ;;
  zA <- lift (matmul (scale (ssqrt (cc self * (sofZ 2 - cc self) * mueff self)) randzw)
                (l_A loc)) ;;
  pc' <- lift (madd (scale (sofZ 1 - cc self) (l_pc loc)) zA) ;;
  let sigma' := l_sigma loc
                * sexp ((cs self / damps self) * (norm ps' / chiN self - sofZ 1)) in
  if refresh_due self then refresh_locals sigma' ps' pc' loc
  else ret (mk_locals sigma' (l_A loc) (l_Ainv loc) ps' pc').

(** Lines 674-683: sampling from the local copies, then the write-back. *)
Definition sample (z : nat -> nat -> T) (loc : locals) : M t (matrix T) :=
  self <- get ;;
  let rz := mk_matrix (lambda_ self) (space_dimen self) z in
  modify (set_randz (Some rz)) ;;
  zA <- lift (matmul (scale (l_sigma loc) rz) (l_A loc)) ;;
  new_samples <- lift (madd (xmean self) zA) ;;
  modify (fun s => set_counteval (counteval s + Z.of_nat (lambda_ s))%Z s) ;;
  modify (set_sigma (l_sigma loc)) ;;
  modify (set_A (l_A loc)) ;;
  modify (set_Ainv (l_Ainv loc)) ;;
  modify (set_ps (l_ps loc)) ;;
  modify (set_pc (l_pc loc)) ;;
  modify (fun s => set_istep (S (istep s)) s) ;;
  ret new_samples.

(** [step_simple(scores, codes)]; [z] is what [randn(lambda_, N)] returns in
    this call.  Printing is left out. *)
Definition step_simple (scores : list T) (codes : matrix T)
  (z : nat -> nat -> T) : M t (matrix T) :=
  self <- get ;;
  let loc := mk_locals (sigma self) (A self) (Ainv self) (ps self) (pc self) in
  let code_sort_index := CholeskyCMAES.sort_index (maximize self) scores in
  loc' <- (if Nat.eqb (istep self) 0
           then init_mean code_sort_index codes ;; ret loc
           else update_locals code_sort_index codes loc) ;;
  sample z loc'.
End Engine.
End HessCMAES.

(** ** The wrappers: [concat_wrapper] and [fix_param_wrapper]

    Both hold "any optimizer in this format": an object with a
    [step_simple(scores, codes)] method, of which [concat_wrapper] also reads
    the attribute [space_dimen]. *)

Class Optimizer (T : Type) (S : Type) : Type := {
  (** The attribute [space_dimen], or the AttributeError of an object that
      has none. *)
  opt_space_dimen : S -> result nat;
  (** [step_simple(scores, codes)], with the normals drawn in the call. *)
  opt_step_simple : list T -> matrix T -> (nat -> nat -> T) -> M S (matrix T)
}.

Section Slices.
Context {T : Type} `{Num T}.

(** [a[:, k:]]. *)
Definition cols_from (a : matrix T) (k : nat) : matrix T :=
  mk_matrix (nrows a) (ncols a - k) (fun i j => mget a i (k + j)).

(** [a[:, :-k]]: for [k = 0] the stop index is [-0 = 0] and the slice is
    empty. *)
Definition cols_drop_last (a : matrix T) (k : nat) : matrix T :=
  mk_matrix (nrows a) (if Nat.eqb k 0 then 0 else ncols a - k) (mget a).

(** [np.repeat(a, n, axis=0)]: every row [n] times in a row. *)
Definition repeat_rows (a : matrix T) (n : nat) : matrix T :=
  mk_matrix (nrows a * n) (ncols a) (fun i j => mget a (i / n) j).

(** [np.concatenate((a, b), axis=1)]. *)
Definition hconcat (a b : matrix T) : result (matrix T) :=
  if Nat.eqb (nrows a) (nrows b)
  then Ok (mk_matrix (nrows a) (ncols a + ncols b)
             (fun i j => if Nat.ltb j (ncols a) then mget a i j
                         else mget b i (j - ncols a)))
  else Raise ValueError.
End Slices.

Module concat_wrapper.
Section Wrapper.
Context {T : Type} `{Num T} {S1 S2 : Type} `{Optimizer T S1} `{Optimizer T S2}.
Local Open Scope monad_scope.

(** The two optimizers are taken to be two objects: a wrapper around the
    same object twice is not modelled. *)
Record t : Type := mk {
  optim1 : S1;
  optim2 : S2;
  sep : nat
}.

(** [__init__(optim1, optim2)]. *)
Definition init (o1 : S1) (o2 : S2) : result t :=
  rbind (opt_space_dimen o1) (fun d => Ok (mk o1 o2 d)).

(** A method call on [self.optim1], on [self.optim2]. *)
Definition on_optim1 {A} (m : M S1 A) : M t A :=
  fun w => (fst (m (optim1 w)), mk (snd (m (optim1 w))) (optim2 w) (sep w)).
Definition on_optim2 {A} (m : M S2 A) : M t A :=
  fun w => (fst (m (optim2 w)), mk (optim1 w) (snd (m (optim2 w))) (sep w)).

(** [step_simple(scores, codes)]; [z1] and [z2] are the normals the two
    optimizers draw. *)
Definition step_simple (scores : list T) (codes : matrix T)
  (z1 z2 : nat -> nat -> T) : M t (matrix T) :=
  self <- get ;;
  new_codes1 <- on_optim1 (opt_step_simple scores (cols_upto codes (sep self)) z1) ;;
  new_codes2 <- on_optim2 (opt_step_simple scores (cols_from codes (sep self)) z2) ;;
  lift (hconcat new_codes1 new_codes2).
End Wrapper.
End concat_wrapper.

Module fix_param_wrapper.
Section Wrapper.
Context {T : Type} `{Num T} {S : Type} `{Optimizer T S}.
Local Open Scope monad_scope.

Record t : Type := mk {
  optim : S;
  fix_code : matrix T;
  pre : bool;
  sep : nat
}.

(** [__init__(optim, fixed_code, pre=True)]. *)
Definition init (o : S) (fixed_code : matrix T) (pre : bool) : t :=
  mk o fixed_code pre (ncols fixed_code).

(** A method call on [self.optim]. *)
Definition on_optim {A} (m : M S A) : M t A :=
  fun w => (fst (m (optim w)),
            mk (snd (m (optim w))) (fix_code w) (pre w) (sep w)).

(** [step_simple(scores, codes)]. *)
Definition step_simple (scores : list T) (codes : matrix T)
  (z : nat -> nat -> T) : M t (matrix T) :=
  self <- get ;;
  if pre self then
    new_codes1 <- on_optim (opt_step_simple scores (cols_from codes (sep self)) z) ;;
    lift (hconcat (repeat_rows (fix_code self) (nrows new_codes1)) new_codes1)
  else
    new_codes1 <- on_optim (opt_step_simple scores (cols_drop_last codes (sep self)) z) ;;
    lift (hconcat new_codes1 (repeat_rows (fix_code self) (nrows new_codes1))).
End Wrapper.
End fix_param_wrapper.

(** The engines as optimizers "in this format". *)
#[export] Instance Optimizer_CholeskyCMAES {T : Type} `{Num T} `{Trans T}
  : Optimizer T (CholeskyCMAES.t (T:=T)) := {|
  opt_space_dimen := fun s => Ok (CholeskyCMAES.space_dimen s);
  opt_step_simple := CholeskyCMAES.step_simple |}.

#[export] Instance Optimizer_HessCMAES {T : Type} `{Num T} `{Trans T}
  : Optimizer T (HessCMAES.t (T:=T)) := {|
  opt_space_dimen := fun s => Ok (HessCMAES.space_dimen s);
  opt_step_simple := HessCMAES.step_simple |}.

Unset Implicit Arguments.
Local Open Scope R_scope.

(** * Specification vocabulary *)

Import CholeskyCMAES.

(** [A @ Ainv] is the identity matrix. *)
Definition inverse_pair (A Ainv : matrix R) : Prop :=
  match matmul A Ainv with
  | Ok P => meq P (eye (nrows A) (nrows A))
  | Raise _ => False
  end.

(** [normv], the normalizer [v @ v.T] of the refresh, with [v = pc @ Ainv]. *)
Definition normv {T} `{Num T} (st : CholeskyCMAES.t) : result T :=
  rbind (matmul (pc st) (Ainv st)) (fun v =>
  rbind (matmul v (transpose v)) (fun vv => Ok (item vv))).

(** The state is ready for the refresh: shapes of a [(1, K)] path against
    the factor pair, the pair inverse to each other, and the three numeric
    side conditions of the closed form. *)
Definition refresh_ready (st : CholeskyCMAES.t) (nv : R) : Prop :=
  nrows (pc st) = 1%nat /\ ncols (pc st) = ncols (A st) /\
  inverse_pair (A st) (Ainv st) /\
  normv st = Ok nv /\ nv <> 0 /\
  c1 st < 1 /\ 0 < 1 + nv * c1 st / (1 - c1 st).

(** A one-dimensional engine in its second generation, one evaluation past
    the refresh threshold, with [c1] and the path [pc = [[p]]] left open. *)
Definition demo_state {T} `{Num T} (c1 p : T) : CholeskyCMAES.t :=
  CholeskyCMAES.mk 1 true 1 1 (row_of_list [s1]) s1 s1
    (sdiv s1 (sofZ 2)) (sdiv s1 (sofZ 2)) c1 s1 None
    (zeros 1 1) (zeros 1 1) (row_of_list [p]) (zeros 1 1) (eye 1 1) (eye 1 1)
    0%Z 1%Z s0 s1 1 (Some (zeros 1 1)).

(** The state of [demo_state c1 1] when the refresh is reached. *)
Definition demo_after_paths (c1 : R) : CholeskyCMAES.t :=
  snd (update_paths (sort_index true [0]) (zeros 1 1) (demo_state c1 1)).

Definition demo_normv (c1 : R) : R :=
  match normv (demo_after_paths c1) with Ok x => x | Raise _ => 0 end.

(** The readiness of the claim as it is worded: without the bounds on [c1]
    and on the radicand. *)
Definition refresh_ready_unbounded (st : CholeskyCMAES.t) (nv : R) : Prop :=
  nrows (pc st) = 1%nat /\ ncols (pc st) = ncols (A st) /\
  inverse_pair (A st) (Ainv st) /\
  normv st = Ok nv /\ nv <> 0.

(** One call of an engine's [step_simple]: scores, codes and the normals
    drawn in the call. *)
Definition call (T : Type) : Type := (list T * matrix T * (nat -> nat -> T))%type.

(** The object after a sequence of calls, whether they return or raise. *)
Definition run {S O T} (step : list T -> matrix T -> (nat -> nat -> T) -> M S O)
  (calls : list (call T)) (s : S) : S :=
  fold_left (fun s c => snd (step (fst (fst c)) (snd (fst c)) (snd c) s)) calls s.

(** A property of the object that a computation keeps, whatever its outcome. *)
Definition preserves {S A} (P : S -> Prop) (m : M S A) : Prop :=
  forall s, P s -> P (snd (m s)).

(** A freshly constructed one-dimensional engine:
    [CholeskyCMAES(1, population_size=2, init_sigma=3.0)]. *)
Definition demo_init : CholeskyCMAES.t :=
  match init 1 (Some 2%nat) 3 None (Some 10%Z) true no_params with
  | Ok s => s
  | Raise _ => demo_state 0 0
  end.

Definition demo_call : call R := ([0; 0], zeros 2 1, fun _ _ => 0).

(** The cutoff [rankweight] works with: its argument, or half the population. *)
Definition cutoff_of (lambda_ : nat) (mu : option R) : R :=
  match mu with
  | None => INR lambda_ / 2
  | Some m => m
  end.


(** [CholeskyCMAES(2, population_size=4, init_sigma=3.0)]: selection size 2. *)
Definition demo_init4 : CholeskyCMAES.t :=
  match init 2 (Some 4%nat) 3 None (Some 10%Z) true no_params with
  | Ok s => s
  | Raise _ => demo_state 0 0
  end.

(** The best fitness score of a population: the largest when maximizing,
    the smallest otherwise. *)
Definition best_score (maximize : bool) (scores : list R) : R :=
  match scores with
  | [] => 0
  | s :: rest => fold_left (if maximize then Rmax else Rmin) rest s
  end.

(** A spherical engine before its first generation, after [lr_schedule], in
    raw-score weight mode: one dimension, population size 1, radius 3. *)
Definition demo_sphere {T} `{Num T} : ZOHA_Sphere_lr_euclid.t :=
  ZOHA_Sphere_lr_euclid.set_mulist (Some [s1])
    (ZOHA_Sphere_lr_euclid.init 1 1 (sofZ 1) s1 true false false (sofZ 3)).

(** Two codes at distance 3 from the origin. *)
Definition demo_codes {T} `{Num T} : matrix T :=
  mk_matrix 2 1 (fun _ _ => sofZ 3).

(** First-order stand-ins for the two geometry helpers, for concrete runs:
    base point plus tangent vector, and a full move to the target. *)
Definition flat_ExpMap {T} `{Num T} (x tang : matrix T) : matrix T :=
  mk_matrix (nrows tang) (ncols tang) (fun i j => sadd (mget x 0 j) (mget tang i j)).
Definition full_SLERP {T} `{Num T} (a b : matrix T) (lr : T) : matrix T := b.




(** The new base point of an uninitialized generation in raw-score weight
    mode (lines 484 and 495-496), over any scalar type. *)
Definition base_point_raw {T} `{Num T} (scores : list T) (codes : matrix T)
  (B : nat) (r : T) : result (matrix T) :=
  rbind (ZOHA_Sphere_lr_euclid.raw_score_weights scores B) (fun weights =>
  rbind (matmul (row_of_list weights) codes) (fun w_mean =>
  Ok (ZOHA_Sphere_lr_euclid.to_shell w_mean r))).






(** The cutoff an engine is constructed with. *)
Definition cutoff_at_construction (space_dimen : nat) (cutoff : option nat) : nat :=
  match cutoff with None => space_dimen | Some c => c end.

(** ** Vocabulary of the comparison of the two torch engines *)

(** The torch engine [a] and the factor-free engine [b] hold the same
    attributes, the covariance path up to array equality, and the factor
    pair of [a] is the identity; the retained normals have [N] columns. *)
Set Implicit Arguments.
Record agree (a : CholeskyCMAES.t (T:=R)) (b : CholeskyCMAES_torch_noCMA.t (T:=R))
  : Prop := {
  ag_space_dimen : CholeskyCMAES.space_dimen a = CholeskyCMAES_torch_noCMA.space_dimen b;
  ag_maximize : CholeskyCMAES.maximize a = CholeskyCMAES_torch_noCMA.maximize b;
  ag_lambda_ : CholeskyCMAES.lambda_ a = CholeskyCMAES_torch_noCMA.lambda_ b;
  ag_mu : CholeskyCMAES.mu a = CholeskyCMAES_torch_noCMA.mu b;
  ag_weights : CholeskyCMAES.weights a = CholeskyCMAES_torch_noCMA.weights b;
  ag_mueff : CholeskyCMAES.mueff a = CholeskyCMAES_torch_noCMA.mueff b;
  ag_sigma : CholeskyCMAES.sigma a = CholeskyCMAES_torch_noCMA.sigma b;
  ag_cc : CholeskyCMAES.cc a = CholeskyCMAES_torch_noCMA.cc b;
  ag_cs : CholeskyCMAES.cs a = CholeskyCMAES_torch_noCMA.cs b;
  ag_c1 : CholeskyCMAES.c1 a = CholeskyCMAES_torch_noCMA.c1 b;
  ag_damps : CholeskyCMAES.damps a = CholeskyCMAES_torch_noCMA.damps b;
  ag_init_x : CholeskyCMAES.init_x a = CholeskyCMAES_torch_noCMA.init_x b;
  ag_xmean : CholeskyCMAES.xmean a = CholeskyCMAES_torch_noCMA.xmean b;
  ag_xold : CholeskyCMAES.xold a = CholeskyCMAES_torch_noCMA.xold b;
  ag_ps : CholeskyCMAES.ps a = CholeskyCMAES_torch_noCMA.ps b;
  ag_eigeneval : CholeskyCMAES.eigeneval a = CholeskyCMAES_torch_noCMA.eigeneval b;
  ag_counteval : CholeskyCMAES.counteval a = CholeskyCMAES_torch_noCMA.counteval b;
  ag_update_crit : CholeskyCMAES.update_crit a = CholeskyCMAES_torch_noCMA.update_crit b;
  ag_chiN : CholeskyCMAES.chiN a = CholeskyCMAES_torch_noCMA.chiN b;
  ag_istep : CholeskyCMAES.istep a = CholeskyCMAES_torch_noCMA.istep b;
  ag_randz : CholeskyCMAES.randz a = CholeskyCMAES_torch_noCMA.randz b;
  ag_pc : meq (CholeskyCMAES.pc a) (CholeskyCMAES_torch_noCMA.pc b);
  ag_A : meq (CholeskyCMAES.A a) (eye (CholeskyCMAES.space_dimen a) (CholeskyCMAES.space_dimen a));
  ag_Ainv : meq (CholeskyCMAES.Ainv a) (eye (CholeskyCMAES.space_dimen a) (CholeskyCMAES.space_dimen a));
  ag_randz_cols : forall rz, CholeskyCMAES.randz a = Some rz ->
                  ncols rz = CholeskyCMAES.space_dimen a
}.
Unset Implicit Arguments.

(** The same exception, or two arrays of the same shape and elements. *)
Definition same_outcome (ra rb : result (matrix R)) : Prop :=
  match ra, rb with
  | Ok x, Ok y => meq x y
  | Raise e, Raise e' => e = e'
  | _, _ => False
  end.

(** What each call of a sequence returned or raised. *)
Fixpoint trace {S O T} (step : list T -> matrix T -> (nat -> nat -> T) -> M S O)
  (calls : list (call T)) (s : S) : list (result O) :=
  match calls with
  | [] => []
  | c :: rest =>
      fst (step (fst (fst c)) (snd (fst c)) (snd c) s)
      :: trace step rest (snd (step (fst (fst c)) (snd (fst c)) (snd c) s))
  end.

(** The refresh condition [counteval - eigeneval > update_crit] holds at no
    call of the sequence that tests it: the first call of an object
    ([istep = 0]) takes the other branch and does not look at it. *)
Fixpoint never_refreshes (calls : list (call R)) (a : CholeskyCMAES.t) : Prop :=
  match calls with
  | [] => True
  | c :: rest =>
      (CholeskyCMAES.istep a <> 0%nat -> CholeskyCMAES.refresh_due a = false)
      /\ never_refreshes rest
           (snd (CholeskyCMAES_torch.step_simple (fst (fst c)) (snd (fst c)) (snd c) a))
  end.

(** Two computations, one on each engine, started from related objects end
    in related objects with related outcomes. *)
Definition simulates {St Sn A} (Rel : St -> Sn -> Prop) (RA : A -> A -> Prop)
  (mt : M St A) (mn : M Sn A) : Prop :=
  forall a b, Rel a b ->
    Rel (snd (mt a)) (snd (mn b))
    /\ match fst (mt a), fst (mn b) with
       | Ok x, Ok y => RA x y
       | Raise e, Raise e' => e = e'
       | _, _ => False
       end.

(** [agree] between engines of dimension [N]. *)
Definition agree_at (N : nat) (a : CholeskyCMAES.t (T:=R))
  (b : CholeskyCMAES_torch_noCMA.t (T:=R)) : Prop :=
  agree a b /\ CholeskyCMAES.space_dimen a = N.

(** Two engines built with the same constructor arguments. *)
Definition demo_torch : CholeskyCMAES.t (T:=R) :=
  match CholeskyCMAES_torch.init 1 (Some 2%nat) 3 None (Some 10%Z) true no_params with
  | Ok s => s
  | Raise _ => demo_state 0 0
  end.

Definition demo_noCMA : result (CholeskyCMAES_torch_noCMA.t (T:=R)) :=
  CholeskyCMAES_torch_noCMA.init 1 (Some 2%nat) 3 None (Some 10%Z) true no_params.


(** ** Vocabulary of the further properties *)

(** How many calls of a sequence returned. *)
Definition returned_count {A} (l : list (result A)) : nat :=
  length (filter (fun r => match r with Ok _ => true | Raise _ => false end) l).

(** The shapes and the bookkeeping a CholeskyCMAES object keeps: the weights
    are one row of [mu] entries, the factor pair is square of the engine's
    dimension, the paths are one row, the retained normals are [lambda_] rows and exist
    once a generation was sampled, and every sampled generation was counted as
    [lambda_] evaluations. *)
Set Implicit Arguments.
Record shaped (s : CholeskyCMAES.t (T:=R)) : Prop := {
  sh_weights_rows : nrows (CholeskyCMAES.weights s) = 1%nat;
  sh_weights_cols : ncols (CholeskyCMAES.weights s) = CholeskyCMAES.mu s;
  sh_A_rows : nrows (CholeskyCMAES.A s) = CholeskyCMAES.space_dimen s;
  sh_A_cols : ncols (CholeskyCMAES.A s) = CholeskyCMAES.space_dimen s;
  sh_Ainv_rows : nrows (CholeskyCMAES.Ainv s) = CholeskyCMAES.space_dimen s;
  sh_Ainv_cols : ncols (CholeskyCMAES.Ainv s) = CholeskyCMAES.space_dimen s;
  sh_pc_rows : nrows (CholeskyCMAES.pc s) = 1%nat;
  sh_pc_cols : ncols (CholeskyCMAES.pc s) = CholeskyCMAES.space_dimen s;
  sh_ps_rows : nrows (CholeskyCMAES.ps s) = 1%nat;
  sh_ps_cols : ncols (CholeskyCMAES.ps s) = CholeskyCMAES.space_dimen s;
  sh_init_x : forall x, CholeskyCMAES.init_x s = Some x ->
              nrows x = 1%nat /\ ncols x = CholeskyCMAES.space_dimen s;
  sh_randz : forall rz, CholeskyCMAES.randz s = Some rz ->
             nrows rz = CholeskyCMAES.lambda_ s
             /\ ncols rz = CholeskyCMAES.space_dimen s;
  sh_sampled : CholeskyCMAES.istep s <> 0%nat -> CholeskyCMAES.randz s <> None;
  sh_count : CholeskyCMAES.counteval s
             = (Z.of_nat (CholeskyCMAES.lambda_ s) * Z.of_nat (CholeskyCMAES.istep s))%Z
}.
Unset Implicit Arguments.

(** The configuration of [a], which no call changes, is that of [s]. *)
Definition same_setup (a s : CholeskyCMAES.t (T:=R)) : Prop :=
  CholeskyCMAES.space_dimen s = CholeskyCMAES.space_dimen a
  /\ CholeskyCMAES.lambda_ s = CholeskyCMAES.lambda_ a
  /\ CholeskyCMAES.mu s = CholeskyCMAES.mu a
  /\ CholeskyCMAES.weights s = CholeskyCMAES.weights a
  /\ CholeskyCMAES.maximize s = CholeskyCMAES.maximize a
  /\ CholeskyCMAES.init_x s = CholeskyCMAES.init_x a.

(** The mean is one row of the engine's dimension. *)
Definition mean_shaped (s : CholeskyCMAES.t (T:=R)) : Prop :=
  nrows (CholeskyCMAES.xmean s) = 1%nat
  /\ ncols (CholeskyCMAES.xmean s) = CholeskyCMAES.space_dimen s.

(** A call that fits the engine [a]: one score per code, codes of the
    engine's dimension, at least [mu] and at most [lambda_] of them. *)
Definition fitting (a : CholeskyCMAES.t (T:=R)) (c : call R) : Prop :=
  nrows (snd (fst c)) = length (fst (fst c))
  /\ ncols (snd (fst c)) = CholeskyCMAES.space_dimen a
  /\ (CholeskyCMAES.mu a <= length (fst (fst c)) <= CholeskyCMAES.lambda_ a)%nat.

(** [CholeskyCMAES(2, population_size=3, init_sigma=3.0, init_code=[5, 7])]. *)
Definition demo_init_coded : CholeskyCMAES.t (T:=R) :=
  match CholeskyCMAES.init 2 (Some 3%nat) 3 (Some [5; 7]) (Some 10%Z) true no_params with
  | Ok s => s
  | Raise _ => demo_state 0 0
  end.

(** One score with one code of dimension 2. *)
Definition demo_short_call : call R := ([5], row_of_list [1; 2], fun _ _ => 0).

(** At every call of the sequence that reaches the refresh, the normalizer
    [v @ v.T] is not zero. *)
Fixpoint normalizer_regular (calls : list (call R)) (s : CholeskyCMAES.t (T:=R)) : Prop :=
  match calls with
  | [] => True
  | c :: rest =>
      (forall s1,
         CholeskyCMAES.istep s <> 0%nat ->
         CholeskyCMAES.update_paths
           (CholeskyCMAES.sort_index (CholeskyCMAES.maximize s) (fst (fst c)))
           (snd (fst c)) s = (Ok tt, s1) ->
         CholeskyCMAES.refresh_due s1 = true ->
         normv s1 <> Ok 0)
      /\ normalizer_regular rest
           (snd (CholeskyCMAES.step_simple (fst (fst c)) (snd (fst c)) (snd c) s))
  end.



(** A spherical engine of dimension 2 and population 1 whose base point is
    [[3, 4]], on the sphere of radius 5. *)
Definition demo_sphere_based : ZOHA_Sphere_lr_euclid.t (T:=R) :=
  ZOHA_Sphere_lr_euclid.set_xnew (row_of_list [3; 4])
    (ZOHA_Sphere_lr_euclid.init 2 1 1 1 true false false 5).

(** The attributes of a HessCMAES object that [step_simple] writes only in
    its last statements. *)
Definition same_strategy (a s : HessCMAES.t (T:=R)) : Prop :=
  HessCMAES.sigma s = HessCMAES.sigma a /\ HessCMAES.A s = HessCMAES.A a
  /\ HessCMAES.Ainv s = HessCMAES.Ainv a /\ HessCMAES.ps s = HessCMAES.ps a
  /\ HessCMAES.pc s = HessCMAES.pc a.


(** [HessCMAES(2, population_size=4, cutoff=1, init_code=[5, 7])]. *)
Definition demo_hess : HessCMAES.t (T:=R) :=
  HessCMAES.init 2 (Some 4%nat) (Some 1%nat) 3 (Some [5; 7]) (Some 10%Z) true no_params.

(** The same with an initial code of three entries, one too many. *)
Definition demo_hess_long : HessCMAES.t (T:=R) :=
  HessCMAES.init 2 (Some 4%nat) (Some 1%nat) 3 (Some [5; 7; 9]) (Some 10%Z) true no_params.

(** The part of the codes that a [fix_param_wrapper] hands to its optimizer:
    [codes[:, sep:]] when the fixed part comes first, [codes[:, :-sep]]
    otherwise. *)
Definition free_part (pre : bool) (sep : nat) (codes : matrix R) : matrix R :=
  if pre then cols_from codes sep else cols_drop_last codes sep.

(** A call of the wrapper as its optimizer sees it. *)
Definition free_call (pre : bool) (sep : nat) (c : call R) : call R :=
  (fst (fst c), free_part pre sep (snd (fst c)), snd c).

(** A call that fits the engine [a] behind [k] more columns: one score per
    code, codes of [k] columns more than the engine's dimension, at least
    [mu] and at most [lambda_] of them. *)
Definition fitting_wide (a : CholeskyCMAES.t (T:=R)) (k : nat) (c : call R) : Prop :=
  nrows (snd (fst c)) = length (fst (fst c))
  /\ ncols (snd (fst c)) = (k + CholeskyCMAES.space_dimen a)%nat
  /\ (CholeskyCMAES.mu a <= length (fst (fst c)) <= CholeskyCMAES.lambda_ a)%nat.

(** One call of a [concat_wrapper]: scores, codes, and the normals that the
    first and the second optimizer draw in the call. *)
Definition call2 (T : Type) : Type :=
  (list T * matrix T * (nat -> nat -> T) * (nat -> nat -> T))%type.

(** The wrapper after a sequence of calls, whether they return or raise. *)
Definition run2 {S O T}
  (step : list T -> matrix T -> (nat -> nat -> T) -> (nat -> nat -> T) -> M S O)
  (calls : list (call2 T)) (s : S) : S :=
  fold_left (fun s c => snd (step (fst (fst (fst c))) (snd (fst (fst c)))
                               (snd (fst c)) (snd c) s)) calls s.

(** What each call of the sequence returned or raised. *)
Fixpoint trace2 {S O T}
  (step : list T -> matrix T -> (nat -> nat -> T) -> (nat -> nat -> T) -> M S O)
  (calls : list (call2 T)) (s : S) : list (result O) :=
  match calls with
  | [] => []
  | c :: rest =>
      fst (step (fst (fst (fst c))) (snd (fst (fst c))) (snd (fst c)) (snd c) s)
      :: trace2 step rest
           (snd (step (fst (fst (fst c))) (snd (fst (fst c))) (snd (fst c)) (snd c) s))
  end.

(** A call of the wrapper as its first and as its second optimizer see it. *)
Definition left_call (sep : nat) (c : call2 R) : call R :=
  (fst (fst (fst c)), cols_upto (snd (fst (fst c))) sep, snd (fst c)).
Definition right_call (sep : nat) (c : call2 R) : call R :=
  (fst (fst (fst c)), cols_from (snd (fst (fst c))) sep, snd c).

(** A call that fits the engines [a] and [b] side by side. *)
Definition fitting_pair (a b : CholeskyCMAES.t (T:=R)) (c : call2 R) : Prop :=
  nrows (snd (fst (fst c))) = length (fst (fst (fst c)))
  /\ ncols (snd (fst (fst c)))
     = (CholeskyCMAES.space_dimen a + CholeskyCMAES.space_dimen b)%nat
  /\ (CholeskyCMAES.mu a <= length (fst (fst (fst c))) <= CholeskyCMAES.lambda_ a)%nat
  /\ (CholeskyCMAES.mu b <= length (fst (fst (fst c))) <= CholeskyCMAES.lambda_ b)%nat.

(** [CholeskyCMAES(2, population_size=6, init_sigma=3.0)]. *)
Definition demo_init6 : CholeskyCMAES.t (T:=R) :=
  match CholeskyCMAES.init 2 (Some 6%nat) 3 None (Some 10%Z) true no_params with
  | Ok s => s
  | Raise _ => demo_state 0 0
  end.

(** The numpy engine [a] and its torch port [b] hold the same attributes,
    the covariance path and the factor pair up to array equality; the
    weights and the path are one row. *)
Set Implicit Arguments.
Record ported (a b : CholeskyCMAES.t (T:=R)) : Prop := {
  po_space_dimen : CholeskyCMAES.space_dimen a = CholeskyCMAES.space_dimen b;
  po_maximize : CholeskyCMAES.maximize a = CholeskyCMAES.maximize b;
  po_lambda_ : CholeskyCMAES.lambda_ a = CholeskyCMAES.lambda_ b;
  po_mu : CholeskyCMAES.mu a = CholeskyCMAES.mu b;
  po_weights : CholeskyCMAES.weights a = CholeskyCMAES.weights b;
  po_mueff : CholeskyCMAES.mueff a = CholeskyCMAES.mueff b;
  po_sigma : CholeskyCMAES.sigma a = CholeskyCMAES.sigma b;
  po_cc : CholeskyCMAES.cc a = CholeskyCMAES.cc b;
  po_cs : CholeskyCMAES.cs a = CholeskyCMAES.cs b;
  po_c1 : CholeskyCMAES.c1 a = CholeskyCMAES.c1 b;
  po_damps : CholeskyCMAES.damps a = CholeskyCMAES.damps b;
  po_init_x : CholeskyCMAES.init_x a = CholeskyCMAES.init_x b;
  po_xmean : CholeskyCMAES.xmean a = CholeskyCMAES.xmean b;
  po_xold : CholeskyCMAES.xold a = CholeskyCMAES.xold b;
  po_ps : CholeskyCMAES.ps a = CholeskyCMAES.ps b;
  po_eigeneval : CholeskyCMAES.eigeneval a = CholeskyCMAES.eigeneval b;
  po_counteval : CholeskyCMAES.counteval a = CholeskyCMAES.counteval b;
  po_update_crit : CholeskyCMAES.update_crit a = CholeskyCMAES.update_crit b;
  po_chiN : CholeskyCMAES.chiN a = CholeskyCMAES.chiN b;
  po_istep : CholeskyCMAES.istep a = CholeskyCMAES.istep b;
  po_randz : CholeskyCMAES.randz a = CholeskyCMAES.randz b;
  po_pc : meq (CholeskyCMAES.pc a) (CholeskyCMAES.pc b);
  po_A : meq (CholeskyCMAES.A a) (CholeskyCMAES.A b);
  po_Ainv : meq (CholeskyCMAES.Ainv a) (CholeskyCMAES.Ainv b);
  po_pc_row : nrows (CholeskyCMAES.pc a) = 1%nat;
  po_weights_row : nrows (CholeskyCMAES.weights a) = 1%nat
}.
Unset Implicit Arguments.

(** Both calls raised, or both returned arrays of the same shape and
    elements. *)
Definition same_codes (ra rb : result (matrix R)) : Prop :=
  match ra, rb with
  | Ok x, Ok y => meq x y
  | Raise _, Raise _ => True
  | _, _ => False
  end.

(** A strategy on which every square root and every quotient of
    [step_simple] is taken where it is defined: a dimension and a selection
    that are not empty, learning rates [cc] and [cs] in [[0, 2]] and [c1] in
    [[0, 1)]. *)
Definition regular_strategy (s : CholeskyCMAES.t (T:=R)) : Prop :=
  (1 <= CholeskyCMAES.space_dimen s)%nat /\ (2 <= CholeskyCMAES.lambda_ s)%nat
  /\ 0 <= CholeskyCMAES.cc s <= 2 /\ 0 <= CholeskyCMAES.cs s <= 2
  /\ 0 <= CholeskyCMAES.c1 s < 1.

(** [CholeskyCMAES(1, population_size=2,
    optim_params={"cc": 0.5, "cs": 0.5, "c1": 0.5})]. *)
Definition demo_init_tuned : CholeskyCMAES.t (T:=R) :=
  match CholeskyCMAES.init 1 (Some 2%nat) 3 None (Some 10%Z) true
          (mk_params (Some (1 / 2)) (Some (1 / 2)) (Some (1 / 2))) with
  | Ok s => s
  | Raise _ => demo_state 0 0
  end.

(** The HessCMAES object [h] holds the attributes of the CholeskyCMAES
    object [s], and works on the whole code. *)
Set Implicit Arguments.
Record alike (h : HessCMAES.t (T:=R)) (s : CholeskyCMAES.t (T:=R)) : Prop := {
  al_code_len : HessCMAES.code_len h = CholeskyCMAES.space_dimen s;
  al_space_dimen : HessCMAES.space_dimen h = CholeskyCMAES.space_dimen s;
  al_maximize : HessCMAES.maximize h = CholeskyCMAES.maximize s;
  al_lambda_ : HessCMAES.lambda_ h = CholeskyCMAES.lambda_ s;
  al_mu : HessCMAES.mu h = CholeskyCMAES.mu s;
  al_weights : HessCMAES.weights h = CholeskyCMAES.weights s;
  al_mueff : HessCMAES.mueff h = CholeskyCMAES.mueff s;
  al_sigma : HessCMAES.sigma h = CholeskyCMAES.sigma s;
  al_cc : HessCMAES.cc h = CholeskyCMAES.cc s;
  al_cs : HessCMAES.cs h = CholeskyCMAES.cs s;
  al_c1 : HessCMAES.c1 h = CholeskyCMAES.c1 s;
  al_damps : HessCMAES.damps h = CholeskyCMAES.damps s;
  al_init_x : HessCMAES.init_x h = CholeskyCMAES.init_x s;
  al_xmean : HessCMAES.xmean h = CholeskyCMAES.xmean s;
  al_xold : HessCMAES.xold h = CholeskyCMAES.xold s;
  al_pc : HessCMAES.pc h = CholeskyCMAES.pc s;
  al_ps : HessCMAES.ps h = CholeskyCMAES.ps s;
  al_A : HessCMAES.A h = CholeskyCMAES.A s;
  al_Ainv : HessCMAES.Ainv h = CholeskyCMAES.Ainv s;
  al_eigeneval : HessCMAES.eigeneval h = CholeskyCMAES.eigeneval s;
  al_counteval : HessCMAES.counteval h = CholeskyCMAES.counteval s;
  al_update_crit : HessCMAES.update_crit h = CholeskyCMAES.update_crit s;
  al_chiN : HessCMAES.chiN h = CholeskyCMAES.chiN s;
  al_istep : HessCMAES.istep h = CholeskyCMAES.istep s;
  al_randz : HessCMAES.randz h = CholeskyCMAES.randz s
}.
Unset Implicit Arguments.

(** * Properties *)

(** ** Sums *)

Ltac unR :=
  cbn [sofZ sadd ssub smul sdiv sopp ssqrt sltb Num_R sexp sln spow spi sfloor Trans_R] in *.

Lemma vsum_ext {T} `{Num T} n (f g : nat -> T) :
  (forall k, (k < n)%nat -> f k = g k) -> vsum n f = vsum n g.
Proof.
  induction n as [|n IH]; intros E; simpl; [reflexivity|].
  rewrite IH, E by (intros; try apply E; lia). reflexivity.
Qed.

Lemma vsum_add n (f g : nat -> R) :
  vsum n (fun k => f k + g k) = vsum n f + vsum n g.
Proof. induction n as [|n IH]; simpl; unfold s0; unR; [lra | rewrite IH; lra]. Qed.

Lemma vsum_scal_l n c (f : nat -> R) :
  vsum n (fun k => c * f k) = c * vsum n f.
Proof. induction n as [|n IH]; simpl; unfold s0; unR; [lra | rewrite IH; lra]. Qed.

Lemma vsum_scal_r n c (f : nat -> R) :
  vsum n (fun k => f k * c) = vsum n f * c.
Proof. induction n as [|n IH]; simpl; unfold s0; unR; [lra | rewrite IH; lra]. Qed.

Lemma vsum_zero n : vsum n (fun _ => 0) = 0.
Proof. induction n as [|n IH]; simpl; unfold s0; unR; [lra | rewrite IH; lra]. Qed.

Lemma vsum_swap n m (f : nat -> nat -> R) :
  vsum n (fun i => vsum m (fun j => f i j)) = vsum m (fun j => vsum n (fun i => f i j)).
Proof.
  induction n as [|n IH]; simpl.
  - unfold s0; unR. now rewrite vsum_zero.
  - unR. rewrite IH, <- vsum_add. reflexivity.
Qed.

Lemma vsum_delta n i (f : nat -> R) : (i < n)%nat ->
  vsum n (fun k => (if Nat.eqb i k then 1 else 0) * f k) = f i.
Proof.
  induction n as [|n IH]; intros Hi; [lia|]. simpl. unR.
  destruct (Nat.eqb_spec i n) as [->|Hne].
  - rewrite vsum_ext with (g := fun _ => 0).
    + rewrite vsum_zero. lra.
    + intros k Hk. destruct (Nat.eqb_spec n k); [lia | unR; lra].
  - rewrite IH by lia. lra.
Qed.

Lemma vsum_assoc K N (x : nat -> R) (b : nat -> nat -> R) (y : nat -> R) :
  vsum K (fun k => x k * vsum N (fun m => b k m * y m))
  = vsum N (fun m => vsum K (fun k => x k * b k m) * y m).
Proof.
  rewrite vsum_ext with (g := fun k => vsum N (fun m => x k * b k m * y m)).
  2:{ intros k _. rewrite <- vsum_scal_l. apply vsum_ext. intros; unR; ring. }
  rewrite vsum_swap. apply vsum_ext. intros m _.
  now rewrite <- vsum_scal_r.
Qed.

Lemma vsum_delta_r n i (f : nat -> R) : (i < n)%nat ->
  vsum n (fun k => (if Nat.eqb i k then 1 else 0) * f k) = f i.
Proof. apply vsum_delta. Qed.

(** The entry of the product of the two rank-one corrections. *)
Lemma rank_one_entry (K N : nat) (a b : nat -> nat -> R) (p : nat -> R)
  (al ga ca cb nv : R) (i j : nat) :
  let v := fun j => vsum K (fun k => p k * b k j) in
  (forall i j, (i < N)%nat -> (j < N)%nat ->
     vsum K (fun k => a i k * b k j) = if Nat.eqb i j then 1 else 0) ->
  vsum N (fun m => v m * v m) = nv ->
  (i < N)%nat -> (j < N)%nat ->
  al * ga = 1 -> ca * ga - al * cb - ca * cb * nv = 0 ->
  vsum K (fun k => (al * a i k + ca * v i * p k)
                   * (ga * b k j - vsum N (fun m => cb * b k m * v m) * v j))
  = if Nat.eqb i j then 1 else 0.
Proof.
  intros v Hid Hnv Hi Hj H1 H2.
  set (W := fun k => vsum N (fun m => b k m * v m)).
  rewrite vsum_ext with
    (g := fun k => (al * ga) * (a i k * b k j) + ((- (al * cb * v j)) * (a i k * W k)
                   + ((ca * v i * ga) * (p k * b k j)
                      + (- (ca * cb * v i * v j)) * (p k * W k)))).
  2:{ intros k _. unfold W.
      replace (vsum N (fun m => cb * b k m * v m)) with (cb * vsum N (fun m => b k m * v m)).
      - unR. ring.
      - rewrite <- vsum_scal_l. apply vsum_ext. intros; unR; ring. }
  rewrite !vsum_add, !vsum_scal_l. unfold W.
  rewrite !vsum_assoc.
  rewrite (Hid i j Hi Hj).
  rewrite vsum_ext with (f := fun m => vsum K (fun k => a i k * b k m) * v m)
                        (g := fun m => (if Nat.eqb i m then 1 else 0) * v m).
  2:{ intros m Hm. now rewrite Hid. }
  rewrite vsum_delta by exact Hi.
  fold (v j). change (vsum N (fun m => vsum K (fun k => p k * b k m) * v m))
    with (vsum N (fun m => v m * v m)). rewrite Hnv.
  destruct (Nat.eqb i j).
  - replace (al * ga * 1 + (- (al * cb * v j) * v i + (ca * v i * ga * v j + - (ca * cb * v i * v j) * nv)))
      with (al * ga + v i * v j * (ca * ga - al * cb - ca * cb * nv)) by ring.
    rewrite H1, H2. ring.
  - replace (al * ga * 0 + (- (al * cb * v j) * v i + (ca * v i * ga * v j + - (ca * cb * v i * v j) * nv)))
      with (v i * v j * (ca * ga - al * cb - ca * cb * nv)) by ring.
    rewrite H2. ring.
Qed.

(** ** The monad, shapes, and the factor refresh *)

Lemma bidx_lt n i : (i < n)%nat -> bidx n i = i.
Proof. unfold bidx. destruct (Nat.eqb_spec n 1); lia. Qed.

Lemma bshape_refl n : bshape n n = Ok n.
Proof. unfold bshape. now rewrite Nat.eqb_refl. Qed.

Lemma vsum_1 (f : nat -> R) : vsum 1 f = f 0%nat.
Proof. simpl. unfold s0. unR. lra. Qed.

Lemma inverse_pair_inv (A Ainv : matrix R) :
  inverse_pair A Ainv ->
  ncols A = nrows Ainv /\ ncols Ainv = nrows A /\
  forall i j, (i < nrows A)%nat -> (j < nrows A)%nat ->
    vsum (ncols A) (fun k => mget A i k * mget Ainv k j)
    = if Nat.eqb i j then 1 else 0.
Proof.
  unfold inverse_pair, matmul.
  destruct (Nat.eqb_spec (ncols A) (nrows Ainv)) as [E|E]; [|tauto].
  intros (H1 & H2 & H3). simpl in *. split; [exact E|]. split; [exact H2|].
  intros i j Hi Hj. specialize (H3 i j Hi). rewrite H2 in H3. specialize (H3 Hj).
  unR. exact H3.
Qed.

Import CholeskyCMAES.

Lemma bind_get {S A} (k : S -> M S A) s : bind get k s = k s s.
Proof. reflexivity. Qed.
Lemma bind_modify {S A} (f : S -> S) (k : unit -> M S A) s :
  bind (modify f) k s = k tt (f s).
Proof. reflexivity. Qed.
Lemma bind_lift_ok {S A B} (r : result A) a (k : A -> M S B) s :
  r = Ok a -> bind (lift r) k s = k a s.
Proof. intros ->. reflexivity. Qed.
Lemma bind_lift_raise {S A B} (r : result A) e (k : A -> M S B) s :
  r = Raise e -> bind (lift r) k s = (Raise e, s).
Proof. intros ->. reflexivity. Qed.

Lemma matmul_ok {T} `{Num T} (a b : matrix T) :
  ncols a = nrows b ->
  matmul a b = Ok (mk_matrix (nrows a) (ncols b)
                     (fun i j => vsum (ncols a) (fun k => smul (mget a i k) (mget b k j)))).
Proof. intros E. unfold matmul. rewrite E, Nat.eqb_refl. reflexivity. Qed.

Lemma broadcast2_same {T} `{Num T} op (a b : matrix T) :
  nrows a = nrows b -> ncols a = ncols b ->
  broadcast2 op a b
  = Ok (mk_matrix (nrows a) (ncols a) (fun i j =>
          op (mget a (bidx (nrows a) i) (bidx (ncols a) j))
             (mget b (bidx (nrows b) i) (bidx (ncols b) j)))).
Proof.
  intros E1 E2. unfold broadcast2. rewrite <- E1, <- E2, !bshape_refl. reflexivity.
Qed.

Lemma refresh_keeps_inverse (st : CholeskyCMAES.t) nv :
  nrows (pc st) = 1%nat -> ncols (pc st) = ncols (A st) ->
  inverse_pair (A st) (Ainv st) ->
  normv st = Ok nv -> nv <> 0 ->
  c1 st < 1 -> 0 < 1 + nv * c1 st / (1 - c1 st) ->
  exists st', refresh st = (Ok tt, st') /\ inverse_pair (A st') (Ainv st').
Proof.
  intros Hp1 Hp2 Hinv Hnv Hnz Hc Hrad.
  destruct (inverse_pair_inv _ _ Hinv) as (E1 & E2 & Hid).
  assert (Hpv : ncols (pc st) = nrows (Ainv st)) by congruence.
  pose (v := mk_matrix (nrows (pc st)) (ncols (Ainv st))
               (fun i j => vsum (ncols (pc st))
                  (fun k => mget (pc st) i k * mget (Ainv st) k j))).
  assert (Hv : matmul (pc st) (Ainv st) = Ok v) by exact (matmul_ok _ _ Hpv).
  pose (vv := mk_matrix (nrows v) (nrows v)
               (fun i j => vsum (ncols v)
                  (fun k => mget v i k * mget (transpose v) k j))).
  assert (Hvv : matmul v (transpose v) = Ok vv) by exact (matmul_ok v (transpose v) eq_refl).
  assert (Hitem : item vv = nv).
  { unfold normv in Hnv. rewrite Hv in Hnv. cbn [rbind] in Hnv. rewrite Hvv in Hnv.
    cbn [rbind] in Hnv. congruence. }
  unfold refresh. rewrite bind_get, bind_modify.
  rewrite (bind_lift_ok _ _ _ _ Hv), (bind_lift_ok _ _ _ _ Hvv).
  cbv zeta. rewrite Hitem.
  set (ca := (ssqrt (sofZ 1 - c1 st) / nv *
              (ssqrt (sofZ 1 + nv * c1 st / (sofZ 1 - c1 st)) - sofZ 1))%num).
  set (cb := (sofZ 1 / ssqrt (sofZ 1 - c1 st) / nv *
              (sofZ 1 - sofZ 1 / ssqrt (sofZ 1 + nv * c1 st / (sofZ 1 - c1 st))))%num).
  set (al := (ssqrt (sofZ 1 - c1 st))%num).
  set (ga := (sofZ 1 / al)%num).
  erewrite bind_lift_ok by (apply matmul_ok; reflexivity).
  erewrite bind_lift_ok by (apply broadcast2_same; cbn; congruence).
  rewrite bind_modify.
  erewrite bind_lift_ok by (apply matmul_ok; reflexivity).
  erewrite bind_lift_ok by (apply matmul_ok; reflexivity).
  erewrite bind_lift_ok by (apply broadcast2_same; reflexivity).
  eexists. split; [reflexivity|].
  unfold inverse_pair. cbn [A Ainv set_A set_Ainv set_eigeneval].
  rewrite matmul_ok by (cbn; congruence).
  cbn [nrows ncols scale transpose]. split; [reflexivity|]. split; [cbn; congruence|].
  cbn [nrows ncols mget eye]. intros i j Hi Hj.
  assert (Hal : 0 < al) by (apply sqrt_lt_R0; unR; lra).
  assert (Hs : 0 < ssqrt (sofZ 1 + nv * c1 st / (sofZ 1 - c1 st))%num)
    by (apply sqrt_lt_R0; unR; lra).
  unfold s0, s1. unR.
  rewrite <- (rank_one_entry (ncols (A st)) (nrows (A st)) (mget (A st)) (mget (Ainv st))
               (fun k => mget (pc st) 0%nat k) al ga ca cb nv i j).
  - apply vsum_ext. intros k Hk. unfold v.
    cbn [nrows ncols mget scale transpose]. rewrite Hp1, E2, <- E1, Hp2.
    rewrite E2 in Hj.
    rewrite !vsum_1, !bidx_lt by assumption. unR. reflexivity.
  - exact Hid.
  - rewrite <- Hitem. unfold item, vv, v. cbn [nrows ncols mget transpose].
    rewrite E2, Hp2. reflexivity.
  - exact Hi.
  - rewrite <- E2. exact Hj.
  - unfold ga. field. lra.
  - unfold ca, cb, ga. fold al.
    set (s := R_sqrt.sqrt (1 + nv * c1 st / (1 - c1 st))) in *.
    field. repeat split; lra.
Qed.

Lemma item_checked_ok {T} `{Num T} (a : matrix T) :
  nrows a = 1%nat -> ncols a = 1%nat ->
  CholeskyCMAES_torch.item_checked a = Ok (item a).
Proof. intros E1 E2. unfold CholeskyCMAES_torch.item_checked. now rewrite E1, E2. Qed.

Lemma refresh_torch_keeps_inverse (st : CholeskyCMAES.t) nv :
  nrows (pc st) = 1%nat -> ncols (pc st) = ncols (A st) ->
  inverse_pair (A st) (Ainv st) ->
  normv st = Ok nv -> nv <> 0 ->
  c1 st < 1 -> 0 < 1 + nv * c1 st / (1 - c1 st) ->
  exists st', CholeskyCMAES_torch.refresh st = (Ok tt, st')
              /\ inverse_pair (A st') (Ainv st').
Proof.
  intros Hp1 Hp2 Hinv Hnv Hnz Hc Hrad.
  destruct (inverse_pair_inv _ _ Hinv) as (E1 & E2 & Hid).
  assert (Hpv : ncols (pc st) = nrows (Ainv st)) by congruence.
  pose (v := mk_matrix (nrows (pc st)) (ncols (Ainv st))
               (fun i j => vsum (ncols (pc st))
                  (fun k => mget (pc st) i k * mget (Ainv st) k j))).
  assert (Hv : matmul (pc st) (Ainv st) = Ok v) by exact (matmul_ok _ _ Hpv).
  pose (vv := mk_matrix (nrows v) (nrows v)
               (fun i j => vsum (ncols v)
                  (fun k => mget v i k * mget (transpose v) k j))).
  assert (Hvv : matmul v (transpose v) = Ok vv) by exact (matmul_ok v (transpose v) eq_refl).
  assert (Hitem : item vv = nv).
  { unfold normv in Hnv. rewrite Hv in Hnv. cbn [rbind] in Hnv. rewrite Hvv in Hnv.
    cbn [rbind] in Hnv. congruence. }
  unfold CholeskyCMAES_torch.refresh. rewrite bind_get, bind_modify.
  rewrite (bind_lift_ok _ _ _ _ Hv), (bind_lift_ok _ _ _ _ Hvv).
  erewrite bind_lift_ok by (apply item_checked_ok; exact Hp1).
  cbv zeta. rewrite Hitem.
  set (s := (ssqrt (sofZ 1 + nv * c1 st / (sofZ 1 - c1 st)))%num).
  set (al := (ssqrt (sofZ 1 - c1 st))%num).
  set (ca := (al / nv * (s - sofZ 1))%num).
  set (cb := (sofZ 1 / (al * nv) * (sofZ 1 - sofZ 1 / s))%num).
  set (ga := (sofZ 1 / al)%num).
  erewrite bind_lift_ok by (apply matmul_ok; reflexivity).
  erewrite bind_lift_ok by (apply broadcast2_same; cbn; congruence).
  rewrite bind_modify.
  erewrite bind_lift_ok by (apply matmul_ok; cbn; congruence).
  erewrite bind_lift_ok by (apply matmul_ok; reflexivity).
  erewrite bind_lift_ok by (apply broadcast2_same; reflexivity).
  eexists. split; [reflexivity|].
  unfold inverse_pair. cbn [A Ainv set_A set_Ainv set_eigeneval].
  rewrite matmul_ok by (cbn; congruence).
  cbn [nrows ncols scale transpose]. split; [reflexivity|]. split; [cbn; congruence|].
  cbn [nrows ncols mget eye]. intros i j Hi Hj.
  assert (Hal : 0 < al) by (apply sqrt_lt_R0; unR; lra).
  assert (Hs : 0 < s) by (apply sqrt_lt_R0; unR; lra).
  unfold s0, s1. unR.
  rewrite <- (rank_one_entry (ncols (A st)) (nrows (A st)) (mget (A st)) (mget (Ainv st))
               (fun k => mget (pc st) 0%nat k) al ga ca cb nv i j).
  - apply vsum_ext. intros k Hk. unfold v.
    cbn [nrows ncols mget scale transpose]. rewrite Hp1, E2, <- E1, Hp2.
    rewrite E2 in Hj.
    rewrite !vsum_1, !bidx_lt by assumption. unR.
    f_equal. f_equal.
    rewrite <- Rmult_assoc. f_equal.
    rewrite <- vsum_scal_l. apply vsum_ext. intros m _. ring.
  - exact Hid.
  - rewrite <- Hitem. unfold item, vv, v. cbn [nrows ncols mget transpose].
    rewrite E2, Hp2. reflexivity.
  - exact Hi.
  - rewrite <- E2. exact Hj.
  - unfold ga. field. lra.
  - unfold ca, cb, ga. field. repeat split; lra.
Qed.

Lemma bind_ok {S A B} (m : M S A) (k : A -> M S B) s a s' :
  m s = (Ok a, s') -> bind m k s = k a s'.
Proof. unfold bind. intros ->. reflexivity. Qed.

Lemma bind_raise {S A B} (m : M S A) (k : A -> M S B) s e s' :
  m s = (Raise e, s') -> bind m k s = (Raise e, s').
Proof. unfold bind. intros ->. reflexivity. Qed.

Lemma sample_frame {T} `{Num T} (z : nat -> nat -> T) s :
  A (snd (sample z s)) = A s /\ Ainv (snd (sample z s)) = Ainv s.
Proof.
  unfold sample, bind, get, modify, lift, ret.
  destruct (matmul _ _); [destruct (madd _ _)|]; split; reflexivity.
Qed.

Lemma sample_torch_frame {T} `{Num T} (z : nat -> nat -> T) s :
  A (snd (CholeskyCMAES_torch.sample z s)) = A s
  /\ Ainv (snd (CholeskyCMAES_torch.sample z s)) = Ainv s.
Proof.
  unfold CholeskyCMAES_torch.sample, bind, get, modify, lift, ret.
  destruct (matmul _ _); [destruct (madd _ _)|]; split; reflexivity.
Qed.

(** C1 (amended).  When a call of [step_simple] past the first generation
    reaches the rank-one refresh (the paths were updated without error and
    [counteval - eigeneval > update_crit]) in a state where the covariance
    path is one row as wide as the factor, [A @ Ainv] is the identity and the
    normalizer [v @ v.T] is [nv <> 0], and where moreover [c1 < 1] and the
    radicand [1 + nv * c1 / (1 - c1)] is positive, [A @ Ainv] is the identity
    again after the call. *)
Theorem refresh_preserves_inverse_pair
  (st : CholeskyCMAES.t) (scores : list R) (codes : matrix R)
  (z : nat -> nat -> R) (nv : R) :
  istep st <> 0%nat ->
  let idx := sort_index (maximize st) scores in
  fst (update_paths idx codes st) = Ok tt ->
  let st1 := snd (update_paths idx codes st) in
  refresh_due st1 = true ->
  refresh_ready st1 nv ->
  let st' := snd (step_simple scores codes z st) in
  inverse_pair (A st') (Ainv st').
Proof.
  intros Hstep idx Hup st1 Hdue (Hp1 & Hp2 & Hinv & Hnv & Hnz & Hc & Hrad) st'.
  apply Nat.eqb_neq in Hstep.
  destruct (refresh_keeps_inverse st1 nv Hp1 Hp2 Hinv Hnv Hnz Hc Hrad)
    as (st2 & Href & Hinv2).
  assert (Hup' : update_paths idx codes st = (Ok tt, st1)).
  { subst st1. destruct (update_paths idx codes st) as [r s]. simpl in *. now subst. }
  subst st'. unfold step_simple. rewrite bind_get, Hstep.
  erewrite bind_ok.
  2:{ erewrite bind_ok by exact Hup'. rewrite bind_get, Hdue. exact Href. }
  destruct (sample_frame z st2) as [-> ->]. exact Hinv2.
Qed.

(** The torch engine keeps the pair inverse under the same conditions. *)
Theorem refresh_torch_preserves_inverse_pair
  (st : CholeskyCMAES.t) (scores : list R) (codes : matrix R)
  (z : nat -> nat -> R) (nv : R) :
  istep st <> 0%nat ->
  let idx := sort_index (maximize st) scores in
  fst (CholeskyCMAES_torch.update_paths idx codes st) = Ok tt ->
  let st1 := snd (CholeskyCMAES_torch.update_paths idx codes st) in
  refresh_due st1 = true ->
  refresh_ready st1 nv ->
  let st' := snd (CholeskyCMAES_torch.step_simple scores codes z st) in
  inverse_pair (A st') (Ainv st').
Proof.
  intros Hstep idx Hup st1 Hdue (Hp1 & Hp2 & Hinv & Hnv & Hnz & Hc & Hrad) st'.
  apply Nat.eqb_neq in Hstep.
  destruct (refresh_torch_keeps_inverse st1 nv Hp1 Hp2 Hinv Hnv Hnz Hc Hrad)
    as (st2 & Href & Hinv2).
  assert (Hup' : CholeskyCMAES_torch.update_paths idx codes st = (Ok tt, st1)).
  { subst st1. destruct (CholeskyCMAES_torch.update_paths idx codes st) as [r s].
    simpl in *. now subst. }
  subst st'. unfold CholeskyCMAES_torch.step_simple. rewrite bind_get, Hstep.
  erewrite bind_ok.
  2:{ erewrite bind_ok by exact Hup'. rewrite bind_get, Hdue. exact Href. }
  destruct (sample_torch_frame z st2) as [-> ->]. exact Hinv2.
Qed.

Lemma demo_normv_value c1 : demo_normv c1 = 1/4.
Proof.
  unfold demo_normv, normv, demo_after_paths.
  cbv [update_paths sort_index demo_state bind get modify lift ret get_randz
       row_of_list zeros eye matmul take_rows madd broadcast2 bshape rbind
       transpose scale item bidx
       nrows ncols mget
       pc ps A Ainv weights mu xmean randz cs cc mueff sigma damps chiN
       set_xold set_xmean set_ps set_pc set_sigma
       fst snd firstn forallb length Nat.eqb Nat.ltb Nat.leb nth andb
       argsort argsort_by fold_right seq insert_idx map vsum s0 s1].
  unR. field.
Qed.

Lemma eye_inverse_pair n : inverse_pair (eye n n) (eye n n).
Proof.
  unfold inverse_pair. rewrite matmul_ok by reflexivity.
  split; [reflexivity|]. split; [reflexivity|].
  cbn [nrows ncols mget eye]. intros i j Hi Hj. unfold s0, s1. unR.
  rewrite (vsum_delta n i (fun k => if Nat.eqb k j then 1 else 0)) by exact Hi.
  reflexivity.
Qed.

(** The refresh of a one-dimensional engine with [c1 = 1/2] and path
    [[[1]]]: all the conditions hold, with normalizer [1/4]. *)
Lemma refresh_preserves_inverse_pair_witness :
  inverse_pair
    (A (snd (step_simple [0] (zeros 1 1) (fun _ _ => 0) (demo_state (1/2) 1))))
    (Ainv (snd (step_simple [0] (zeros 1 1) (fun _ _ => 0) (demo_state (1/2) 1)))).
Proof.
  apply (refresh_preserves_inverse_pair (demo_state (1/2) 1) [0] (zeros 1 1)
           (fun _ _ => 0) (demo_normv (1/2))).
  - simpl. discriminate.
  - reflexivity.
  - unfold refresh_due. change (Rltb 0 (IZR (1 - 0)) = true).
    unfold Rltb. destruct (Rlt_dec 0 (IZR (1 - 0))) as [|n]; [reflexivity|].
    exfalso. apply n. simpl. lra.
  - unfold refresh_ready.
    split; [reflexivity|]. split; [reflexivity|].
    split; [exact (eye_inverse_pair 1)|]. split; [reflexivity|].
    rewrite demo_normv_value.
    split; [lra|]. split; simpl; lra.
Defined.

(** ** The refresh at its singular points *)

Import CholeskyCMAES.

Lemma step_simple_refresh_state {T} `{Num T} `{Trans T}
  (st st1 : CholeskyCMAES.t) (scores : list T) (codes : matrix T) z :
  istep st <> 0%nat ->
  update_paths (sort_index (maximize st) scores) codes st = (Ok tt, st1) ->
  refresh_due st1 = true ->
  A (snd (step_simple scores codes z st)) = A (snd (refresh st1))
  /\ Ainv (snd (step_simple scores codes z st)) = Ainv (snd (refresh st1)).
Proof.
  intros Hstep Hup Hdue. apply Nat.eqb_neq in Hstep.
  unfold step_simple. rewrite bind_get, Hstep.
  destruct (refresh st1) as [[[]|e] st2] eqn:Href.
  - erewrite bind_ok.
    2:{ erewrite bind_ok by exact Hup. rewrite bind_get, Hdue. exact Href. }
    apply sample_frame.
  - erewrite bind_raise.
    2:{ erewrite bind_ok by exact Hup. rewrite bind_get, Hdue. exact Href. }
    split; reflexivity.
Qed.

Lemma demo_refresh_due c1 : refresh_due (demo_after_paths c1) = true.
Proof.
  unfold refresh_due. change (Rltb 0 (IZR (1 - 0)) = true).
  unfold Rltb. destruct (Rlt_dec 0 (IZR (1 - 0))) as [|n]; [reflexivity|].
  exfalso. apply n. simpl. lra.
Qed.

(** C1 as it is worded fails.  With [c1 = 1] the refresh is reached, the
    pair is inverse before it and the normalizer is [1/4], and after the call
    [A @ Ainv] is not the identity: [sqrt (1 - c1)] is zero and the closed
    form divides by it.  In binary64 the new factor is NaN. *)
Lemma refresh_with_unit_c1_loses_inverse :
  istep (demo_state 1 1) <> 0%nat
  /\ fst (update_paths (sort_index true [0]) (zeros 1 1) (demo_state 1 1)) = Ok tt
  /\ refresh_due (demo_after_paths 1) = true
  /\ refresh_ready_unbounded (demo_after_paths 1) (1/4)
  /\ ~ inverse_pair
         (A (snd (step_simple [0] (zeros 1 1) (fun _ _ => 0) (demo_state 1 1))))
         (Ainv (snd (step_simple [0] (zeros 1 1) (fun _ _ => 0) (demo_state 1 1))))
  /\ PrimFloat.is_nan
       (mget (A (snd (refresh (demo_state (T:=float) s1 (sdiv s1 (sofZ 2)))))) 0 0)
     = true.
Proof.
  split; [simpl; discriminate|]. split; [reflexivity|].
  split; [apply demo_refresh_due|].
  split.
  { unfold refresh_ready_unbounded.
    split; [reflexivity|]. split; [reflexivity|].
    split; [exact (eye_inverse_pair 1)|].
    split; [|lra].
    rewrite <- (demo_normv_value 1). reflexivity. }
  split; [|vm_compute; reflexivity].
  intros Hinv.
  destruct (step_simple_refresh_state (demo_state 1 1) (demo_after_paths 1) [0]
              (zeros 1 1) (fun _ _ => 0)) as [EA EB].
  { simpl. discriminate. }
  { reflexivity. }
  { apply demo_refresh_due. }
  rewrite EA, EB in Hinv.
  apply inverse_pair_inv in Hinv. destruct Hinv as (_ & _ & Hid).
  specialize (Hid 0%nat 0%nat).
  unfold demo_after_paths in Hid.
  cbv [refresh update_paths sort_index demo_state bind get modify lift ret get_randz
       row_of_list zeros eye matmul take_rows madd msub broadcast2 bshape rbind
       transpose scale item bidx
       nrows ncols mget
       pc ps A Ainv weights mu xmean randz cs cc c1 mueff sigma damps chiN counteval
       set_xold set_xmean set_ps set_pc set_sigma set_eigeneval set_A set_Ainv
       fst snd firstn forallb length Nat.eqb Nat.ltb Nat.leb nth andb
       argsort argsort_by fold_right seq insert_idx map vsum s0 s1] in Hid.
  unR. specialize (Hid (le_n 1) (le_n 1)).
  replace (1 - 1) with 0 in Hid by lra. rewrite sqrt_0 in Hid.
  ring_simplify in Hid. lra.
Qed.




(** ** Properties kept by a computation; the step size *)

Import CholeskyCMAES.

Section Preservation.
Context {S : Type} (P : S -> Prop).

Lemma preserves_ret {A} (a : A) : preserves P (ret a).
Proof. intros s Hs. exact Hs. Qed.

Lemma preserves_raise {A} e : preserves P (raise (A:=A) e).
Proof. intros s Hs. exact Hs. Qed.

Lemma preserves_lift {A} (r : result A) : preserves P (lift r).
Proof. intros s Hs. exact Hs. Qed.

Lemma preserves_modify (f : S -> S) :
  (forall s, P s -> P (f s)) -> preserves P (modify f).
Proof. intros Hf s Hs. apply Hf, Hs. Qed.

Lemma preserves_bind {A B} (m : M S A) (k : A -> M S B) :
  preserves P m -> (forall a, preserves P (k a)) -> preserves P (bind m k).
Proof.
  intros Hm Hk s Hs. unfold bind. specialize (Hm s Hs).
  destruct (m s) as [[a|e] s']; simpl in *; [apply Hk, Hm | exact Hm].
Qed.

Lemma preserves_bind_get {B} (k : S -> M S B) :
  (forall self, P self -> preserves P (k self)) -> preserves P (bind get k).
Proof. intros Hk s Hs. rewrite bind_get. apply Hk; exact Hs. Qed.
End Preservation.

Ltac preserve_step :=
  lazymatch goal with
  | |- preserves _ (bind get _) => apply preserves_bind_get; intros ? ?
  | |- preserves _ (bind _ _) => apply preserves_bind; [ | intros ? ]
  | |- preserves _ (lift _) => apply preserves_lift
  | |- preserves _ (ret _) => apply preserves_ret
  | |- preserves _ (raise _) => apply preserves_raise
  | |- preserves _ (modify _) => apply preserves_modify; intros ? ?
  end.



Lemma run_preserves {S O} (P : S -> Prop)
  (step : list R -> matrix R -> (nat -> nat -> R) -> M S O) :
  (forall scores codes z, preserves P (step scores codes z)) ->
  forall calls s, P s -> P (run step calls s).
Proof.
  intros Hstep calls. unfold run.
  induction calls as [|c calls IH]; intros s Hs; simpl; [exact Hs|].
  apply IH, Hstep, Hs.
Qed.




(** ** Rank weights *)

Import RankWeighting.

Lemma vsum_nonneg n (f : nat -> R) :
  (forall k, (k < n)%nat -> 0 <= f k) -> 0 <= vsum n f.
Proof.
  induction n as [|n IH]; intros Hf; simpl; unfold s0; unR; [lra|].
  assert (0 <= vsum n f) by (apply IH; intros; apply Hf; lia).
  assert (0 <= f n) by (apply Hf; lia). lra.
Qed.

Lemma vsum_pos n (f : nat -> R) :
  (0 < n)%nat -> (forall k, (k < n)%nat -> 0 < f k) -> 0 < vsum n f.
Proof.
  intros Hn Hf. destruct n as [|n]; [lia|]. simpl. unR.
  assert (0 <= vsum n f) by (apply vsum_nonneg; intros; apply Rlt_le, Hf; lia).
  assert (0 < f n) by (apply Hf; lia). lra.
Qed.

Lemma vsum_app n k (f : nat -> R) :
  vsum (n + k) f = vsum n f + vsum k (fun i => f (n + i)%nat).
Proof.
  induction k as [|k IH].
  - rewrite Nat.add_0_r. simpl. unfold s0. unR. lra.
  - rewrite Nat.add_succ_r. simpl. rewrite IH. unR. lra.
Qed.

Lemma lsum_app_zeros (l : list R) k : lsum (l ++ repeat 0 k) = lsum l.
Proof.
  unfold lsum. rewrite length_app, repeat_length, vsum_app.
  rewrite vsum_ext with (n := length l) (g := fun i => nth i l 0).
  2:{ intros i Hi. now rewrite app_nth1. }
  rewrite vsum_ext with (n := k) (g := fun _ => 0).
  2:{ intros i Hi. rewrite app_nth2 by lia.
      replace (length l + i - length l)%nat with i by lia.
      apply nth_repeat. }
  rewrite vsum_zero. unfold s0. unR. lra.
Qed.

Lemma nth_normalize (w : list R) i :
  (i < length w)%nat -> nth i (normalize w) 0 = nth i w 0 / lsum w.
Proof.
  intros Hi. unfold normalize.
  rewrite nth_indep with (d' := 0 / lsum w) by (now rewrite length_map).
  exact (map_nth (fun x => x / lsum w) w 0 i).
Qed.

Lemma normalize_length (w : list R) : length (normalize w) = length w.
Proof. apply length_map. Qed.

Lemma lsum_normalize (w : list R) : lsum w <> 0 -> lsum (normalize w) = 1.
Proof.
  intros Hs. unfold lsum at 1. rewrite normalize_length.
  rewrite vsum_ext with (g := fun i => nth i w 0 * / lsum w).
  2:{ intros i Hi. unfold s0. unR. now rewrite nth_normalize. }
  rewrite vsum_scal_r.
  change (vsum (length w) (fun i => nth i w 0)) with (lsum w). now field.
Qed.

Lemma log_weights_length (mu : R) : length (log_weights mu) = Z.to_nat (Zfloor mu).
Proof. unfold log_weights. now rewrite length_map, length_seq. Qed.

Lemma nth_log_weights (mu : R) i :
  (i < Z.to_nat (Zfloor mu))%nat ->
  nth i (log_weights mu) 0 = ln (mu + 1 / 2) - ln (INR (S i)).
Proof.
  intros Hi. unfold log_weights.
  rewrite nth_indep with (d' := ln (mu + 1 / 2) - ln (IZR (Z.of_nat 0)))
    by (now rewrite length_map, length_seq).
  etransitivity;
    [exact (map_nth (fun k => ln (mu + 1 / 2) - ln (IZR (Z.of_nat k)))
              (seq 1 (Z.to_nat (Zfloor mu))) 0%nat i)|].
  rewrite seq_nth by exact Hi. rewrite <- INR_IZR_INZ. reflexivity.
Qed.

Lemma floor_of_cutoff (lambda_ : nat) (mu : R) :
  1 <= mu <= INR lambda_ ->
  (1 <= Z.to_nat (Zfloor mu) <= lambda_)%nat /\ INR (Z.to_nat (Zfloor mu)) <= mu.
Proof.
  intros [H1 H2]. destruct (Zfloor_bound mu) as [Hlo Hhi].
  assert (Hz : (1 <= Zfloor mu)%Z).
  { assert (0 < Zfloor mu)%Z; [|lia]. apply lt_IZR. lra. }
  assert (Hn : INR (Z.to_nat (Zfloor mu)) = IZR (Zfloor mu)).
  { rewrite INR_IZR_INZ, Z2Nat.id by lia. reflexivity. }
  split; [split|].
  - lia.
  - apply INR_le. lra.
  - lra.
Qed.

Lemma log_weight_pos (c : R) (k i : nat) :
  INR k <= c -> (i < k)%nat -> 0 < ln (c + 1 / 2) - ln (INR (S i)).
Proof.
  intros Hk Hi.
  assert (H0 : 0 < INR (S i)) by (apply lt_0_INR; lia).
  assert (H1 : INR (S i) <= INR k) by (apply le_INR; lia).
  assert (ln (INR (S i)) < ln (c + 1 / 2)) by (apply ln_increasing; lra).
  lra.
Qed.

(** C6.  For a population size of at least 2 and a cutoff [mu] with
    [1 <= mu <= lambda_] (or none, meaning [lambda_ / 2]), [rankweight]
    returns a list of length [lambda_]; its first [floor mu] entries are
    [(log (mu + 1/2) - log i) / total] for [i = 1 .. floor mu] with one
    positive [total], the others are zero, every entry is non-negative, the
    entries sum to 1 and the non-zero entries are strictly decreasing. *)
Theorem rankweight_spec (lambda_ : nat) (mu : option R) :
  (2 <= lambda_)%nat ->
  (forall m, mu = Some m -> 1 <= m <= INR lambda_) ->
  let c := cutoff_of lambda_ mu in
  let k := Z.to_nat (Zfloor c) in
  exists (w : list R) (total : R),
    rankweight lambda_ mu = Ok w
    /\ length w = lambda_
    /\ 0 < total
    /\ (forall i, (i < k)%nat ->
          nth i w 0 = (ln (c + 1 / 2) - ln (INR (S i))) / total)
    /\ (forall i, (k <= i)%nat -> nth i w 0 = 0)
    /\ (forall i, 0 <= nth i w 0)
    /\ lsum w = 1
    /\ (forall i j, (i < j)%nat -> (j < k)%nat -> 0 < nth j w 0 < nth i w 0).
Proof.
  intros Hl Hmu c k.
  assert (Hc : 1 <= c <= INR lambda_).
  { unfold c, cutoff_of. destruct mu as [m|]; [apply Hmu; reflexivity|].
    assert (2 <= INR lambda_) by (apply (le_INR 2); exact Hl). lra. }
  destruct (floor_of_cutoff lambda_ c Hc) as [[Hk1 Hk2] Hk3]. fold k in Hk1, Hk2, Hk3.
  assert (Hcode : match mu with
                  | None => sdiv (sofnat lambda_) (sofZ 2)
                  | Some m => m
                  end = c).
  { unfold c, cutoff_of. destruct mu; [reflexivity|].
    unfold sofnat. unR. now rewrite INR_IZR_INZ. }
  set (rhs := log_weights c).
  assert (Hlen : length rhs = k) by apply log_weights_length.
  set (total := lsum rhs).
  assert (Hrhs : forall i, (i < k)%nat -> 0 < nth i rhs 0).
  { intros i Hi. unfold rhs. rewrite nth_log_weights by exact Hi.
    now apply (log_weight_pos c k). }
  assert (Htot : 0 < total).
  { unfold total, lsum. rewrite Hlen. apply vsum_pos; [lia|exact Hrhs]. }
  set (raw := rhs ++ repeat 0 (lambda_ - k)).
  assert (Hraw : lsum raw = total) by apply lsum_app_zeros.
  assert (Hrawlen : length raw = lambda_).
  { unfold raw. rewrite length_app, repeat_length. lia. }
  exists (normalize raw), total.
  split.
  { unfold rankweight. rewrite Hcode. cbv zeta. unR. fold rhs. fold k.
    replace (Zfloor c <? 0)%Z with false
      by (symmetry; apply Z.ltb_ge; unfold k in Hk1; lia).
    rewrite Nat.min_l by exact Hk2.
    rewrite Hlen, Nat.eqb_refl. cbn [orb].
    rewrite <- Hlen at 1. rewrite firstn_all. reflexivity. }
  split; [now rewrite normalize_length|].
  split; [exact Htot|].
  assert (Hin : forall i, (i < k)%nat ->
            nth i (normalize raw) 0 = nth i rhs 0 / total).
  { intros i Hi. rewrite nth_normalize by lia. rewrite Hraw. unfold raw.
    rewrite app_nth1 by lia. reflexivity. }
  assert (Hout : forall i, (k <= i)%nat -> nth i (normalize raw) 0 = 0).
  { intros i Hi. destruct (Nat.lt_ge_cases i lambda_) as [Hlt|Hge].
    - rewrite nth_normalize by lia. unfold raw. rewrite app_nth2 by lia.
      rewrite nth_repeat. unfold Rdiv. ring.
    - apply nth_overflow. rewrite normalize_length. lia. }
  split.
  { intros i Hi. rewrite Hin by exact Hi. unfold rhs.
    now rewrite nth_log_weights. }
  split; [exact Hout|].
  split.
  { intros i. destruct (Nat.lt_ge_cases i k) as [Hlt|Hge].
    - rewrite Hin by exact Hlt. apply Rlt_le, Rdiv_lt_0_compat; [now apply Hrhs|exact Htot].
    - rewrite Hout by exact Hge. lra. }
  split.
  { apply lsum_normalize. rewrite Hraw. lra. }
  intros i j Hij Hj.
  rewrite !Hin by lia. unfold rhs. rewrite !nth_log_weights by lia.
  assert (Hpos := log_weight_pos c k j Hk3 Hj).
  assert (Hlt : ln (INR (S i)) < ln (INR (S j))).
  { apply ln_increasing; [apply lt_0_INR; lia | apply lt_INR; lia]. }
  split.
  - apply Rdiv_lt_0_compat; lra.
  - unfold Rdiv. apply Rmult_lt_compat_r; [now apply Rinv_0_lt_compat | lra].
Qed.

(** [rankweight(5, 2.5)]. *)
Lemma rankweight_spec_witness :
  exists w : list R,
    rankweight 5 (Some (5 / 2)) = Ok w /\ length w = 5%nat /\ lsum w = 1
    /\ (forall i, 0 <= nth i w 0).
Proof.
  destruct (rankweight_spec 5 (Some (5 / 2))) as (w & total & H1 & H2 & _ & _ & _ & H6 & H7 & _).
  - lia.
  - intros m Hm. injection Hm as <-. simpl. lra.
  - exists w. repeat split; assumption.
Defined.

(** ** The first generation of an under-populated engine *)

Import CholeskyCMAES.

Lemma insert_idx_perm {K} (ltb : K -> K -> bool) key i l :
  Permutation (insert_idx ltb key i l) (i :: l).
Proof.
  induction l as [|j l IH]; simpl; [reflexivity|].
  destruct (ltb (key j) (key i)); [|reflexivity].
  rewrite IH. apply perm_swap.
Qed.

Lemma argsort_by_perm {K} (ltb : K -> K -> bool) d (l : list K) :
  Permutation (argsort_by ltb d l) (seq 0 (length l)).
Proof.
  unfold argsort_by. generalize (fun i => nth i l d) as key.
  generalize (seq 0 (length l)) as s. intros s key.
  induction s as [|i s IH]; simpl; [reflexivity|].
  rewrite insert_idx_perm. now constructor.
Qed.

Lemma sort_index_perm (mx : bool) (scores : list R) :
  Permutation (sort_index mx scores) (seq 0 (length scores)).
Proof.
  unfold sort_index, argsort. destruct mx.
  - rewrite <- (length_map sopp scores). apply argsort_by_perm.
  - apply argsort_by_perm.
Qed.

Lemma perm_seq_bound (idx : list nat) n :
  Permutation idx (seq 0 n) ->
  length idx = n /\ forallb (fun i => Nat.ltb i n) idx = true.
Proof.
  intros Hp. split.
  - rewrite (Permutation_length Hp). apply length_seq.
  - apply forallb_forall. intros x Hx. apply Nat.ltb_lt.
    apply (Permutation_in _ Hp) in Hx. apply in_seq in Hx. lia.
Qed.

Lemma take_rows_ok {T} `{Num T} (a : matrix T) idx :
  forallb (fun i => Nat.ltb i (nrows a)) idx = true ->
  take_rows a idx
  = Ok (mk_matrix (length idx) (ncols a) (fun i j => mget a (nth i idx 0%nat) j)).
Proof. intros E. unfold take_rows. now rewrite E. Qed.

Lemma bshape_one_l m : bshape 1 m = Ok m.
Proof.
  unfold bshape. destruct (Nat.eqb_spec 1 m) as [<-|_]; reflexivity.
Qed.

Lemma broadcast2_row {T} `{Num T} op (a b : matrix T) :
  nrows a = 1%nat -> ncols a = ncols b ->
  broadcast2 op a b
  = Ok (mk_matrix (nrows b) (ncols a) (fun i j =>
          op (mget a (bidx (nrows a) i) (bidx (ncols a) j))
             (mget b (bidx (nrows b) i) (bidx (ncols b) j)))).
Proof.
  intros E1 E2. unfold broadcast2.
  rewrite E1 at 1. rewrite bshape_one_l. cbn [rbind].
  rewrite <- E2, bshape_refl. reflexivity.
Qed.


Lemma init_weights_pos (mu_f : R) i :
  (i < Z.to_nat (Zfloor mu_f))%nat ->
  0 < nth i (normalize (log_weights mu_f)) 0.
Proof.
  intros Hi. set (k := Z.to_nat (Zfloor mu_f)) in *.
  assert (Hk : INR k <= mu_f).
  { unfold k. rewrite INR_IZR_INZ, Z2Nat.id by (unfold k in Hi; lia).
    apply Zfloor_bound. }
  assert (Hlen : length (log_weights mu_f) = k) by apply log_weights_length.
  assert (Hpos : forall j, (j < k)%nat -> 0 < nth j (log_weights mu_f) 0).
  { intros j Hj. rewrite nth_log_weights by exact Hj. now apply (log_weight_pos mu_f k). }
  rewrite nth_normalize by lia.
  apply Rdiv_lt_0_compat; [now apply Hpos|].
  unfold lsum. rewrite Hlen. apply vsum_pos; [lia | exact Hpos].
Qed.



(** ** The factor-free engine against the identity factor *)

Section Simulation.
Context {St Sn : Type} (Rel : St -> Sn -> Prop).

Lemma simulates_bind {A B} (RA : A -> A -> Prop) (RB : B -> B -> Prop)
  (mt : M St A) (mn : M Sn A) (kt : A -> M St B) (kn : A -> M Sn B) :
  simulates Rel RA mt mn ->
  (forall x y, RA x y -> simulates Rel RB (kt x) (kn y)) ->
  simulates Rel RB (bind mt kt) (bind mn kn).
Proof.
  intros Hm Hk a b Hab. specialize (Hm a b Hab). unfold bind.
  destruct (mt a) as [[x|e] a'], (mn b) as [[y|e'] b']; cbn [fst snd] in *;
    destruct Hm as [Hrel Hout]; try contradiction.
  - apply (Hk x y Hout a' b' Hrel).
  - split; assumption.
Qed.

Lemma simulates_bind_get {B} (RB : B -> B -> Prop)
  (kt : St -> M St B) (kn : Sn -> M Sn B) :
  (forall a0 b0, Rel a0 b0 -> simulates Rel RB (kt a0) (kn b0)) ->
  simulates Rel RB (bind get kt) (bind get kn).
Proof. intros H a b Hab. rewrite !bind_get. apply (H a b Hab a b Hab). Qed.

Lemma simulates_lift2 {A} (RA : A -> A -> Prop) (r1 r2 : result A) :
  match r1, r2 with
  | Ok x, Ok y => RA x y
  | Raise e, Raise e' => e = e'
  | _, _ => False
  end ->
  simulates Rel RA (lift r1) (lift r2).
Proof. intros H a b Hab. split; [exact Hab | exact H]. Qed.

Lemma simulates_lift {A} (RA : A -> A -> Prop) (r : result A) :
  (forall x, r = Ok x -> RA x x) -> simulates Rel RA (lift r) (lift r).
Proof.
  intros H. apply simulates_lift2. destruct r; [now apply H | reflexivity].
Qed.

Lemma simulates_modify (f : St -> St) (g : Sn -> Sn) :
  (forall a b, Rel a b -> Rel (f a) (g b)) ->
  simulates Rel eq (modify f) (modify g).
Proof. intros H a b Hab. split; [now apply H | reflexivity]. Qed.

Lemma simulates_ret {A} (RA : A -> A -> Prop) x y :
  RA x y -> simulates Rel RA (ret x) (ret y).
Proof. intros H a b Hab. split; assumption. Qed.

Lemma simulates_raise {A} (RA : A -> A -> Prop) e :
  simulates Rel RA (raise e) (raise e).
Proof. intros a b Hab. split; [assumption | reflexivity]. Qed.

Lemma simulates_ext_l {A} (RA : A -> A -> Prop) (mt mt' : M St A) (mn : M Sn A) :
  (forall s, mt s = mt' s) -> simulates Rel RA mt' mn -> simulates Rel RA mt mn.
Proof. intros E H a b Hab. rewrite E. now apply H. Qed.
End Simulation.

Lemma bind_lift_lift {S A B C} (r : result A) (f : A -> result B)
  (k : B -> M S C) s :
  bind (lift r) (fun x => bind (lift (f x)) k) s = bind (lift (rbind r f)) k s.
Proof. destruct r; reflexivity. Qed.

(** Array equality is kept by the array operations. *)
Lemma meq_refl {T} `{Num T} (a : matrix T) : meq a a.
Proof. repeat split. Qed.

Lemma meq_sym {T} `{Num T} (a b : matrix T) : meq a b -> meq b a.
Proof.
  intros (H1 & H2 & H3). split; [now symmetry|]. split; [now symmetry|].
  intros i j Hi Hj. symmetry. apply H3; congruence.
Qed.

Lemma meq_trans {T} `{Num T} (a b c : matrix T) : meq a b -> meq b c -> meq a c.
Proof.
  intros (H1 & H2 & H3) (K1 & K2 & K3). split; [congruence|]. split; [congruence|].
  intros i j Hi Hj. rewrite H3 by assumption. apply K3; congruence.
Qed.

Lemma scale_meq {T} `{Num T} x (a b : matrix T) : meq a b -> meq (scale x a) (scale x b).
Proof.
  intros (H1 & H2 & H3). split; [exact H1|]. split; [exact H2|].
  intros i j Hi Hj. cbn in *. now rewrite H3.
Qed.

Lemma bidx_bound n i m : (n = m \/ n = 1%nat) -> (i < m)%nat -> (bidx n i < n)%nat.
Proof.
  intros [->| ->] Hi; unfold bidx.
  - destruct (Nat.eqb_spec m 1); lia.
  - simpl. lia.
Qed.

Lemma bshape_ok m n r : bshape m n = Ok r ->
  (m = r \/ m = 1%nat) /\ (n = r \/ n = 1%nat).
Proof.
  unfold bshape.
  destruct (Nat.eqb_spec m n); [intros E; injection E as <-; subst; auto|].
  destruct (Nat.eqb_spec m 1); [intros E; injection E as <-; subst; auto|].
  destruct (Nat.eqb_spec n 1); [intros E; injection E as <-; subst; auto|].
  discriminate.
Qed.

Lemma broadcast2_meq {T} `{Num T} op (a a' b b' : matrix T) :
  meq a a' -> meq b b' ->
  match broadcast2 op a b, broadcast2 op a' b' with
  | Ok x, Ok y => meq x y
  | Raise e, Raise e' => e = e'
  | _, _ => False
  end.
Proof.
  intros (A1 & A2 & A3) (B1 & B2 & B3). unfold broadcast2.
  rewrite <- A1, <- A2, <- B1, <- B2.
  destruct (bshape (nrows a) (nrows b)) as [r|e] eqn:Er; cbn [rbind]; [|reflexivity].
  destruct (bshape (ncols a) (ncols b)) as [c|e] eqn:Ec; cbn [rbind]; [|reflexivity].
  apply bshape_ok in Er, Ec. destruct Er as [Ra Rb], Ec as [Ca Cb].
  split; [reflexivity|]. split; [reflexivity|].
  cbn [nrows ncols mget]. intros i j Hi Hj.
  rewrite A3, B3; try (eapply bidx_bound; eassumption). reflexivity.
Qed.

Lemma vsum_diag_r_one n j (f : nat -> R) : (j < n)%nat ->
  vsum n (fun k => f k * (if Nat.eqb k j then 1 else 0)) = f j.
Proof.
  intros Hj.
  rewrite vsum_ext with (g := fun k => (if Nat.eqb j k then 1 else 0) * f k).
  - now apply vsum_delta.
  - intros k _. rewrite (Nat.eqb_sym k j). unR. ring.
Qed.

Lemma matmul_eye_r (x A : matrix R) N :
  ncols x = N -> meq A (eye N N) ->
  exists y, matmul x A = Ok y /\ meq y x.
Proof.
  intros Hx (A1 & A2 & A3). cbn [nrows ncols eye] in A1, A2.
  rewrite matmul_ok by congruence. eexists. split; [reflexivity|].
  split; [reflexivity|]. split; [cbn; congruence|].
  cbn [nrows ncols mget]. intros i j Hi Hj. rewrite A2 in Hj. unR.
  rewrite vsum_ext with
    (g := fun k => mget x i k * (if Nat.eqb k j then 1 else 0)).
  - rewrite Hx. rewrite (vsum_diag_r_one N j (fun k => mget x i k)) by exact Hj.
    reflexivity.
  - intros k Hk. rewrite A3 by lia. reflexivity.
Qed.

Lemma take_rows_ncols {T} `{Num T} (a x : matrix T) idx :
  take_rows a idx = Ok x -> ncols x = ncols a.
Proof.
  unfold take_rows. destruct (forallb _ idx); [|discriminate].
  intros E. injection E as <-. reflexivity.
Qed.

Lemma matmul_ncols {T} `{Num T} (a b x : matrix T) :
  matmul a b = Ok x -> ncols x = ncols b.
Proof.
  unfold matmul. destruct (Nat.eqb _ _); [|discriminate].
  intros E. injection E as <-. reflexivity.
Qed.

Ltac agree_step :=
  let a := fresh "a" in
  let b := fresh "b" in
  let Hag := fresh "Hag" in
  let HN := fresh "HN" in
  intros a b [Hag HN];
  split; [ destruct Hag; constructor; cbn; try assumption; try congruence
         | cbn; exact HN ].

Section Engines.
Variable N : nat.

Lemma init_mean_sim idx (codes : matrix R) :
  simulates (agree_at N) eq (CholeskyCMAES.init_mean idx codes) (CholeskyCMAES_torch_noCMA.init_mean idx codes).
Proof.
  unfold CholeskyCMAES.init_mean, CholeskyCMAES_torch_noCMA.init_mean.
  apply simulates_bind_get; intros a0 b0 [H0 HN].
  rewrite <- (ag_init_x H0), <- (ag_mu H0), <- (ag_weights H0).
  destruct (CholeskyCMAES.init_x a0).
  - apply simulates_modify. agree_step.
  - apply simulates_bind with (RA := eq); [apply simulates_lift; auto | intros x y <-].
    apply simulates_bind with (RA := eq); [apply simulates_lift; auto | intros x2 y2 <-].
    apply simulates_modify. agree_step.
Qed.

Lemma get_randz_sim :
  simulates (agree_at N) (fun x y => x = y /\ ncols x = N) CholeskyCMAES.get_randz CholeskyCMAES_torch_noCMA.get_randz.
Proof.
  unfold CholeskyCMAES.get_randz, CholeskyCMAES_torch_noCMA.get_randz.
  apply simulates_bind_get; intros a0 b0 [H0 HN].
  rewrite <- (ag_randz H0).
  destruct (CholeskyCMAES.randz a0) eqn:E.
  - apply simulates_ret. split; [reflexivity|].
    rewrite <- HN. now apply (ag_randz_cols H0).
  - apply simulates_raise.
Qed.

Lemma update_paths_sim idx (codes : matrix R) :
  simulates (agree_at N) eq (CholeskyCMAES_torch.update_paths idx codes) (CholeskyCMAES_torch_noCMA.update_paths idx codes).
Proof.
  unfold CholeskyCMAES_torch.update_paths, CholeskyCMAES_torch_noCMA.update_paths.
  apply simulates_bind_get; intros a0 b0 [H0 HN].
  rewrite <- (ag_xmean H0), <- (ag_mu H0), <- (ag_weights H0), <- (ag_cs H0),
    <- (ag_ps H0), <- (ag_mueff H0), <- (ag_cc H0), <- (ag_sigma H0),
    <- (ag_damps H0), <- (ag_chiN H0).
  apply simulates_bind with (RA := eq); [apply simulates_modify; agree_step | intros _ _ _].
  apply simulates_bind with (RA := eq); [apply simulates_lift; auto | intros sel ? <-].
  apply simulates_bind with (RA := eq); [apply simulates_lift; auto | intros xm ? <-].
  apply simulates_bind with (RA := eq); [apply simulates_modify; agree_step | intros _ _ _].
  apply simulates_bind with (RA := fun x y => x = y /\ ncols x = N);
    [apply get_randz_sim | intros rz ? [<- Hrz]].
  apply simulates_bind with (RA := fun x y => x = y /\ ncols x = N).
  { apply simulates_lift. intros x Hx. split; [reflexivity|].
    rewrite (take_rows_ncols _ _ _ Hx). exact Hrz. }
  intros rsel ? [<- Hrsel].
  apply simulates_bind with (RA := fun x y => x = y /\ ncols x = N).
  { apply simulates_lift. intros x Hx. split; [reflexivity|].
    rewrite (matmul_ncols _ _ _ Hx). exact Hrsel. }
  intros randzw ? [<- Hzw].
  apply simulates_bind with (RA := eq); [apply simulates_lift; auto | intros ps' ? <-].
  apply simulates_bind with (RA := eq); [apply simulates_modify; agree_step | intros _ _ _].
  eapply simulates_ext_l; [intros s; apply bind_lift_lift|].
  apply simulates_bind with (RA := meq).
  { apply simulates_lift2.
    destruct (matmul_eye_r randzw (CholeskyCMAES.A a0) N Hzw) as (zA & EzA & HzA).
    { rewrite <- HN. apply (ag_A H0). }
    rewrite EzA. cbn [rbind]. apply broadcast2_meq.
    - apply scale_meq, (ag_pc H0).
    - apply scale_meq, HzA. }
  intros pc_t pc_n Hpc.
  apply simulates_bind with (RA := eq).
  { apply simulates_modify. intros a b [Hag HNa].
    split; [destruct Hag; constructor; cbn; try assumption; try congruence
           | cbn; exact HNa]. }
  intros _ _ _. apply simulates_modify. agree_step.
Qed.
End Engines.

Lemma sample_sim N z :
  simulates (agree_at N) meq (CholeskyCMAES_torch.sample z)
    (CholeskyCMAES_torch_noCMA.sample z).
Proof.
  unfold CholeskyCMAES_torch.sample, CholeskyCMAES_torch_noCMA.sample.
  apply simulates_bind_get; intros a0 b0 [H0 HN]. cbv zeta.
  rewrite <- (ag_lambda_ H0), <- (ag_space_dimen H0), <- (ag_xmean H0),
    <- (ag_sigma H0).
  apply simulates_bind with (RA := eq).
  { apply simulates_modify. intros a b [Hag HNa].
    split; [destruct Hag; constructor; cbn; try assumption; try congruence
           | cbn; exact HNa].
    intros rz E. injection E as <-. cbn. congruence. }
  intros _ _ _.
  eapply simulates_ext_l; [intros s; apply bind_lift_lift|].
  apply simulates_bind with (RA := meq).
  { apply simulates_lift2.
    destruct (matmul_eye_r (mk_matrix (CholeskyCMAES.lambda_ a0)
                              (CholeskyCMAES.space_dimen a0) z)
                (CholeskyCMAES.A a0) N HN) as (zA & EzA & HzA).
    { rewrite <- HN. apply (ag_A H0). }
    rewrite EzA. cbn [rbind]. apply broadcast2_meq.
    - apply meq_refl.
    - apply scale_meq, HzA. }
  intros new_t new_n Hnew.
  apply simulates_bind with (RA := eq); [apply simulates_modify; agree_step | intros _ _ _].
  apply simulates_bind with (RA := eq); [apply simulates_modify; agree_step | intros _ _ _].
  apply simulates_ret. exact Hnew.
Qed.

Lemma update_paths_refresh_due idx (codes : matrix R) v :
  preserves (fun s => CholeskyCMAES.refresh_due s = v)
    (CholeskyCMAES_torch.update_paths idx codes).
Proof.
  unfold CholeskyCMAES_torch.update_paths, CholeskyCMAES.get_randz.
  apply preserves_bind_get; intros s1 Hs1.
  repeat preserve_step; try assumption.
  destruct (CholeskyCMAES.randz _); repeat preserve_step.
Qed.

Lemma torch_step_without_refresh scores (codes : matrix R) z a :
  (CholeskyCMAES.istep a <> 0%nat -> CholeskyCMAES.refresh_due a = false) ->
  CholeskyCMAES_torch.step_simple scores codes z a
  = bind get (fun self =>
      bind (if Nat.eqb (CholeskyCMAES.istep self) 0
            then CholeskyCMAES.init_mean
                   (CholeskyCMAES.sort_index (CholeskyCMAES.maximize self) scores) codes
            else CholeskyCMAES_torch.update_paths
                   (CholeskyCMAES.sort_index (CholeskyCMAES.maximize self) scores) codes)
           (fun _ => CholeskyCMAES_torch.sample z)) a.
Proof.
  intros Hdue. unfold CholeskyCMAES_torch.step_simple. rewrite !bind_get.
  destruct (Nat.eqb (CholeskyCMAES.istep a) 0) eqn:Ei; [reflexivity|].
  apply Nat.eqb_neq in Ei. specialize (Hdue Ei).
  pose proof (update_paths_refresh_due
                (CholeskyCMAES.sort_index (CholeskyCMAES.maximize a) scores)
                codes false a Hdue) as Hkeep.
  destruct (CholeskyCMAES_torch.update_paths
              (CholeskyCMAES.sort_index (CholeskyCMAES.maximize a) scores) codes a)
    as [[[]|e] a1] eqn:E; cbn [snd] in Hkeep.
  - erewrite bind_ok.
    2:{ erewrite bind_ok by exact E. rewrite bind_get, Hkeep. reflexivity. }
    erewrite (bind_ok (CholeskyCMAES_torch.update_paths _ codes)) by exact E.
    reflexivity.
  - erewrite bind_raise.
    2:{ erewrite bind_raise by exact E. reflexivity. }
    erewrite (bind_raise (CholeskyCMAES_torch.update_paths _ codes)) by exact E.
    reflexivity.
Qed.

(** One generation: the two engines stay in agreement and return the same
    codes or raise the same exception. *)
Lemma step_simple_sim N scores (codes : matrix R) z a b :
  agree_at N a b ->
  (CholeskyCMAES.istep a <> 0%nat -> CholeskyCMAES.refresh_due a = false) ->
  agree_at N (snd (CholeskyCMAES_torch.step_simple scores codes z a))
    (snd (CholeskyCMAES_torch_noCMA.step_simple scores codes z b))
  /\ same_outcome (fst (CholeskyCMAES_torch.step_simple scores codes z a))
       (fst (CholeskyCMAES_torch_noCMA.step_simple scores codes z b)).
Proof.
  intros Hab Hdue. rewrite torch_step_without_refresh by exact Hdue.
  clear Hdue. revert a b Hab.
  change (simulates (agree_at N) meq
            (bind get (fun self =>
               bind (if Nat.eqb (CholeskyCMAES.istep self) 0
                     then CholeskyCMAES.init_mean
                            (CholeskyCMAES.sort_index (CholeskyCMAES.maximize self) scores)
                            codes
                     else CholeskyCMAES_torch.update_paths
                            (CholeskyCMAES.sort_index (CholeskyCMAES.maximize self) scores)
                            codes)
                    (fun _ => CholeskyCMAES_torch.sample z)))
            (CholeskyCMAES_torch_noCMA.step_simple scores codes z)).
  unfold CholeskyCMAES_torch_noCMA.step_simple, CholeskyCMAES_torch_noCMA.sort_index.
  apply simulates_bind_get; intros a0 b0 [H0 HN].
  rewrite <- (ag_maximize H0), <- (ag_istep H0).
  apply simulates_bind with (RA := eq); [ | intros _ _ _; apply sample_sim ].
  destruct (Nat.eqb (CholeskyCMAES.istep a0) 0);
    [apply init_mean_sim | apply update_paths_sim].
Qed.

(** The two constructors, given the same arguments, build engines that
    agree. *)
Lemma init_agree N pop sig code freq mx params a b :
  CholeskyCMAES_torch.init N pop sig code freq mx params = Ok a ->
  CholeskyCMAES_torch_noCMA.init N pop sig code freq mx params = Ok b ->
  agree_at N a b.
Proof.
  unfold CholeskyCMAES_torch.init, CholeskyCMAES.init, CholeskyCMAES_torch_noCMA.init.
  destruct (reshape_init N code) as [x|e]; cbn [rbind]; [|discriminate].
  intros Ea Eb. injection Ea as <-. injection Eb as <-.
  split; [|reflexivity].
  constructor; try reflexivity; try apply meq_refl.
  cbn. discriminate.
Qed.

(** C8.  Let the torch engine [a] and the factor-free engine [b] hold the
    same attributes, with the factor pair of [a] the identity.  Over any
    sequence of calls with the same scores, codes and normal draws during
    which the refresh condition never holds where [a] tests it, the two
    engines return the same codes or raise the same exception at every call,
    and end with the same attributes, the factor pair of [a] still the
    identity. *)
Theorem noCMA_matches_identity_factor
  (a : CholeskyCMAES.t) (b : CholeskyCMAES_torch_noCMA.t) (calls : list (call R)) :
  agree a b ->
  never_refreshes calls a ->
  agree (run CholeskyCMAES_torch.step_simple calls a)
    (run CholeskyCMAES_torch_noCMA.step_simple calls b)
  /\ Forall2 same_outcome
       (trace CholeskyCMAES_torch.step_simple calls a)
       (trace CholeskyCMAES_torch_noCMA.step_simple calls b).
Proof.
  intros Hab. assert (H : agree_at (CholeskyCMAES.space_dimen a) a b) by (split; auto).
  clear Hab. revert a b H.
  induction calls as [|[[scores codes] z] calls IH]; intros a b H Hnever.
  - split; [apply H | constructor].
  - destruct Hnever as [Hdue Hrest]. cbn [fst snd] in Hrest.
    destruct (step_simple_sim _ scores codes z a b H Hdue) as [Hst Hout].
    assert (HN : CholeskyCMAES.space_dimen
                   (snd (CholeskyCMAES_torch.step_simple scores codes z a))
                 = CholeskyCMAES.space_dimen a) by apply Hst.
    rewrite <- HN in Hst.
    destruct (IH _ _ Hst Hrest) as [Hfin Htr].
    split; [exact Hfin|].
    cbn [trace fst snd]. constructor; assumption.
Qed.

Lemma refresh_due_false (s : CholeskyCMAES.t (T:=R)) :
  IZR (CholeskyCMAES.counteval s - CholeskyCMAES.eigeneval s) <= CholeskyCMAES.update_crit s ->
  CholeskyCMAES.refresh_due s = false.
Proof.
  intros Hle. unfold CholeskyCMAES.refresh_due. unR. unfold Rltb.
  destruct (Rlt_dec _ _); [lra | reflexivity].
Qed.

Lemma step_counters scores (codes : matrix R) z a :
  (CholeskyCMAES.istep a <> 0%nat -> CholeskyCMAES.refresh_due a = false) ->
  let a' := snd (CholeskyCMAES_torch.step_simple scores codes z a) in
  CholeskyCMAES.update_crit a' = CholeskyCMAES.update_crit a
  /\ CholeskyCMAES.eigeneval a' = CholeskyCMAES.eigeneval a
  /\ CholeskyCMAES.lambda_ a' = CholeskyCMAES.lambda_ a
  /\ (CholeskyCMAES.counteval a <= CholeskyCMAES.counteval a'
      <= CholeskyCMAES.counteval a + Z.of_nat (CholeskyCMAES.lambda_ a))%Z.
Proof.
  intros Hdue a'. subst a'. rewrite torch_step_without_refresh by exact Hdue.
  rewrite bind_get.
  set (m1 := if Nat.eqb (CholeskyCMAES.istep a) 0 then _ else _).
  assert (Hm1 : preserves
                  (fun s => CholeskyCMAES.update_crit s = CholeskyCMAES.update_crit a
                            /\ CholeskyCMAES.eigeneval s = CholeskyCMAES.eigeneval a
                            /\ CholeskyCMAES.lambda_ s = CholeskyCMAES.lambda_ a
                            /\ CholeskyCMAES.counteval s = CholeskyCMAES.counteval a) m1).
  { unfold m1. destruct (Nat.eqb (CholeskyCMAES.istep a) 0).
    - unfold CholeskyCMAES.init_mean. apply preserves_bind_get; intros s Hs.
      destruct (CholeskyCMAES.init_x s); repeat preserve_step; assumption.
    - unfold CholeskyCMAES_torch.update_paths, CholeskyCMAES.get_randz.
      apply preserves_bind_get; intros s Hs.
      repeat preserve_step; try assumption.
      destruct (CholeskyCMAES.randz _); repeat preserve_step. }
  assert (Ha : CholeskyCMAES.update_crit a = CholeskyCMAES.update_crit a
               /\ CholeskyCMAES.eigeneval a = CholeskyCMAES.eigeneval a
               /\ CholeskyCMAES.lambda_ a = CholeskyCMAES.lambda_ a
               /\ CholeskyCMAES.counteval a = CholeskyCMAES.counteval a)
    by (repeat split; reflexivity).
  specialize (Hm1 a Ha). clear Ha. cbv beta in Hm1.
  unfold CholeskyCMAES_torch.sample. unfold bind, get, modify, lift, ret.
  destruct (m1 a) as [[[]|e] a1]; cbn [snd] in Hm1;
    destruct Hm1 as (H1 & H2 & H3 & H4).
  - cbv beta iota.
    destruct (matmul (T:=R) _ _); [destruct (madd (T:=R) _ _)|]; cbn;
      rewrite ?H1, ?H2, ?H3, ?H4;
      repeat split; try reflexivity; lia.
  - cbn. rewrite H1, H2, H3, H4. repeat split; try reflexivity; lia.
Qed.

(** The refresh condition cannot hold while the evaluations counted since
    the last refresh stay within the threshold: with [update_crit =
    Aupdate_freq * lambda_], not during the first [Aupdate_freq + 1] calls. *)
Lemma never_refreshes_within (calls : list (call R)) :
  forall a : CholeskyCMAES.t (T:=R),
  IZR (CholeskyCMAES.counteval a - CholeskyCMAES.eigeneval a
       + Z.of_nat (length calls * CholeskyCMAES.lambda_ a))
    <= CholeskyCMAES.update_crit a + INR (CholeskyCMAES.lambda_ a) ->
  never_refreshes calls a.
Proof.
  induction calls as [|[[scores codes] z] calls IH]; intros a Hle; [exact I|].
  cbn [length] in Hle.
  assert (Hdue : CholeskyCMAES.refresh_due a = false).
  { apply refresh_due_false. rewrite INR_IZR_INZ in Hle.
    rewrite plus_IZR in Hle. rewrite Nat2Z.inj_mul, Nat2Z.inj_succ in Hle.
    assert (0 <= IZR (Z.of_nat (length calls) * Z.of_nat (CholeskyCMAES.lambda_ a)))
      by (apply IZR_le; lia).
    replace (Z.succ (Z.of_nat (length calls)) * Z.of_nat (CholeskyCMAES.lambda_ a))%Z
      with (Z.of_nat (length calls) * Z.of_nat (CholeskyCMAES.lambda_ a)
            + Z.of_nat (CholeskyCMAES.lambda_ a))%Z in Hle by lia.
    rewrite plus_IZR in Hle. lra. }
  split; [intros _; exact Hdue|]. cbn [fst snd].
  destruct (step_counters scores codes z a (fun _ => Hdue)) as (H1 & H2 & H3 & H4).
  apply IH. rewrite H1, H2, H3.
  eapply Rle_trans; [|exact Hle].
  apply IZR_le. lia.
Qed.

Lemma demo_torch_init :
  CholeskyCMAES_torch.init 1 (Some 2%nat) 3 None (Some 10%Z) true no_params = Ok demo_torch.
Proof. reflexivity. Qed.

(** Two generations of the two engines constructed with the same
    arguments. *)
Lemma noCMA_matches_identity_factor_witness :
  exists b,
    demo_noCMA = Ok b
    /\ agree (run CholeskyCMAES_torch.step_simple [demo_call; demo_call] demo_torch)
         (run CholeskyCMAES_torch_noCMA.step_simple [demo_call; demo_call] b)
    /\ Forall2 same_outcome
         (trace CholeskyCMAES_torch.step_simple [demo_call; demo_call] demo_torch)
         (trace CholeskyCMAES_torch_noCMA.step_simple [demo_call; demo_call] b).
Proof.
  destruct demo_noCMA as [b|e] eqn:Eb; [|discriminate Eb].
  exists b. split; [reflexivity|].
  apply (noCMA_matches_identity_factor demo_torch b [demo_call; demo_call]).
  - apply (init_agree 1 (Some 2%nat) 3 None (Some 10%Z) true no_params);
      [exact demo_torch_init | exact Eb].
  - apply never_refreshes_within. cbn. lra.
Defined.

(** ** The spherical engine: weights and radius *)

Import ZOHA_Sphere_lr_euclid.

Lemma raw_score_weights_cons (s_0 : R) (rest : list R) (B : nat) :
  raw_score_weights (s_0 :: rest) B
  = Ok (map (fun s => (s - s_0) / INR B) (s_0 :: rest)).
Proof.
  unfold raw_score_weights, index. cbn [length rbind nth].
  replace ((0 <=? 0)%Z && (0 <? Z.of_nat (S (length rest)))%Z) with true
    by (symmetry; apply andb_true_intro; split; [reflexivity | apply Z.ltb_lt; lia]).
  cbn [Z.to_nat nth]. unfold sofnat. unR. now rewrite <- INR_IZR_INZ.
Qed.

(** C3 (amended).  In raw-score weight mode, in both branches of
    [step_simple], the weight of the individual with score [s] is
    [(s - scores[0]) / B]: the reference is the first score of the population
    (the score of the base point the engine returned first), whichever score
    is the best. *)
Theorem raw_weights_relative_to_first
  (st : ZOHA_Sphere_lr_euclid.t) (s_0 : R) (rest : list R) :
  rankweight st = false ->
  let scores := s_0 :: rest in
  exists w,
    first_weights st scores = Ok w
    /\ running_weights st scores = Ok w
    /\ length w = length scores
    /\ forall i, (i < length scores)%nat ->
         nth i w 0 = (nth i scores 0 - s_0) / INR (B st).
Proof.
  intros Hraw scores.
  exists (map (fun s => (s - s_0) / INR (B st)) scores).
  unfold first_weights, running_weights. rewrite Hraw. cbn [negb].
  unfold scores. rewrite raw_score_weights_cons.
  split; [reflexivity|]. split; [reflexivity|]. split; [apply length_map|].
  intros i Hi.
  rewrite nth_indep with (d' := (0 - s_0) / INR (B st)) by (now rewrite length_map).
  exact (map_nth (fun s => (s - s_0) / INR (B st)) (s_0 :: rest) 0 i).
Qed.

(** Scores [[1; 3]] with [B = 1]: weights [0] and [2]. *)
Lemma raw_weights_relative_to_first_witness :
  exists w,
    first_weights (demo_sphere (T:=R)) [1; 3] = Ok w
    /\ running_weights (demo_sphere (T:=R)) [1; 3] = Ok w
    /\ nth 0 w 0 = (1 - 1) / 1 /\ nth 1 w 0 = (3 - 1) / 1.
Proof.
  destruct (raw_weights_relative_to_first demo_sphere 1 [3] eq_refl)
    as (w & H1 & H2 & _ & H4).
  exists w. split; [exact H1|]. split; [exact H2|].
  split; [apply (H4 0%nat) | apply (H4 1%nat)]; simpl; lia.
Defined.

(** The claim with "best-score": it fails for the population [1; 3]. *)
(** C3 as it is worded fails.  Maximizing over the scores [[1; 3]] the best
    score is 3, and the weight of the first individual is [(1 - 1) / 1], not
    [(1 - 3) / 1]. *)
Lemma raw_weights_not_relative_to_best :
  best_score true [1; 3] = 3
  /\ first_weights (demo_sphere (T:=R)) [1; 3] = Ok [(1 - 1) / 1; (3 - 1) / 1]
  /\ running_weights (demo_sphere (T:=R)) [1; 3] = Ok [(1 - 1) / 1; (3 - 1) / 1]
  /\ (1 - 1) / 1 <> (1 - best_score true [1; 3]) / INR (B (demo_sphere (T:=R))).
Proof.
  assert (Hb : best_score true [1; 3] = 3).
  { unfold best_score. cbn [fold_left]. apply Rmax_right. lra. }
  split; [exact Hb|].
  assert (Hw : raw_score_weights [1; 3] 1 = Ok [(1 - 1) / 1; (3 - 1) / 1]).
  { rewrite raw_score_weights_cons. reflexivity. }
  split; [exact Hw|]. split; [exact Hw|].
  rewrite Hb. cbn [B demo_sphere set_mulist init INR]. lra.
Qed.



Section SphereFrame.
Variable ExpMap : matrix R -> matrix R -> matrix R.
Variable SLERP : matrix R -> matrix R -> R -> matrix R.



End SphereFrame.







Lemma move_base_raw_first {T} `{Num T} `{Trans T}
  (SLERP : matrix T -> matrix T -> T -> matrix T)
  (st : ZOHA_Sphere_lr_euclid.t) (scores : list T) (codes x : matrix T) :
  rankweight st = false -> istep st = (-1)%Z ->
  base_point_raw scores codes (B st) (sphere_norm st) = Ok x ->
  xnew (snd (move_base SLERP scores codes st)) = x.
Proof.
  intros Hraw Hstep. unfold base_point_raw, move_base, first_weights.
  rewrite bind_get, bind_modify, Hstep, Hraw.
  change ((-1 =? -1)%Z) with true. cbn [negb].
  destruct (raw_score_weights scores (B st)) as [w|e]; [|discriminate].
  cbn [rbind]. rewrite (bind_lift_ok _ _ _ _ eq_refl).
  destruct (matmul (row_of_list w) codes) as [m|e]; [|discriminate].
  cbn [rbind]. rewrite (bind_lift_ok _ _ _ _ eq_refl).
  intros E. injection E as <-. reflexivity.
Qed.


(** ** The spherical engine: the learning-rate schedule *)

Import ZOHA_Sphere_lr_euclid.

Lemma index_in_range {T} `{Num T} (l : list T) (i : Z) :
  (0 <= i < Z.of_nat (length l))%Z -> index l i = Ok (nth (Z.to_nat i) l s0).
Proof.
  intros [H1 H2]. unfold index.
  apply Z.leb_le in H1. apply Z.ltb_lt in H2. now rewrite H1, H2.
Qed.

Lemma index_last {T} `{Num T} (l : list T) :
  l <> [] -> index l (-1) = Ok (nth (length l - 1) l s0).
Proof.
  intros Hl. unfold index.
  assert (Hn : (1 <= Z.of_nat (length l))%Z) by (destruct l; [congruence | simpl; lia]).
  cbn [Z.leb Z.compare andb].
  replace (- Z.of_nat (length l) <=? -1)%Z with true by (symmetry; apply Z.leb_le; lia).
  cbn [andb Z.ltb Z.compare].
  replace (Z.to_nat (Z.of_nat (length l) + -1)) with (length l - 1)%nat by lia.
  reflexivity.
Qed.









(** ** HessCMAES: the factor pair from a curvature estimate *)

Import HessCMAES.



Lemma bidx_one i : bidx 1 i = 0%nat.
Proof. reflexivity. Qed.

Lemma broadcast2_col {T} `{Num T} op (a b : matrix T) :
  nrows a = nrows b -> ncols a = 1%nat ->
  broadcast2 op a b
  = Ok (mk_matrix (nrows a) (ncols b) (fun i j =>
          op (mget a (bidx (nrows a) i) (bidx (ncols a) j))
             (mget b (bidx (nrows b) i) (bidx (ncols b) j)))).
Proof.
  intros E1 E2. unfold broadcast2.
  rewrite <- E1, bshape_refl. cbn [rbind].
  rewrite E2 at 1. rewrite bshape_one_l. reflexivity.
Qed.

Lemma broadcast2_row_any {T} `{Num T} op (a b : matrix T) :
  nrows a = 1%nat -> ncols a = ncols b ->
  broadcast2 op a b
  = Ok (mk_matrix (nrows b) (ncols a) (fun i j =>
          op (mget a (bidx (nrows a) i) (bidx (ncols a) j))
             (mget b (bidx (nrows b) i) (bidx (ncols b) j)))).
Proof. apply broadcast2_row. Qed.

Lemma nth_scaling (eigvals : list R) (M i : nat) (f : R -> R) :
  (i < M)%nat -> (M <= length eigvals)%nat ->
  nth i (map f (firstn M eigvals)) 0 = f (nth i eigvals 0).
Proof.
  intros Hi HM.
  rewrite nth_indep with (d' := f 0).
  2:{ rewrite length_map, length_firstn. lia. }
  rewrite map_nth, nth_firstn.
  destruct (Nat.ltb_spec i M); [reflexivity | lia].
Qed.

Lemma init_space_dimen sd pop cutoff sig code freq mx params :
  space_dimen (init sd pop cutoff sig code freq mx params)
  = cutoff_at_construction sd cutoff.
Proof. unfold init, cutoff_at_construction. destruct cutoff; reflexivity. Qed.

Lemma set_Hessian_entries (st : HessCMAES.t) (eigvals : list R) (V : matrix R)
  (c : option nat) (p : R) :
  let M := space_dimen st in
  (M <= length eigvals)%nat -> (M <= ncols V)%nat ->
  exists st',
    set_Hessian eigvals V c p st = (Ok tt, st')
    /\ nrows (A st') = M /\ ncols (A st') = nrows V
    /\ nrows (Ainv st') = nrows V /\ ncols (Ainv st') = M
    /\ (forall i j, (i < M)%nat -> (j < nrows V)%nat ->
          mget (A st') i j = Rpower (nth i eigvals 0) (- p) * mget V j i)
    /\ (forall j i, (j < nrows V)%nat -> (i < M)%nat ->
          mget (Ainv st') j i = 1 / Rpower (nth i eigvals 0) (- p) * mget V j i).
Proof.
  intros M HMe HMv.
  assert (Hlen : length (map (fun x => spow x (sopp p)) (firstn M eigvals)) = M).
  { rewrite length_map, length_firstn. lia. }
  unfold set_Hessian. rewrite bind_get, !bind_modify. fold M.
  erewrite bind_lift_ok.
  2:{ apply broadcast2_col; cbn [nrows ncols col_of_list transpose cols_upto];
        [rewrite Hlen; lia | reflexivity]. }
  rewrite bind_modify.
  erewrite bind_lift_ok.
  2:{ apply broadcast2_row; cbn [nrows ncols row_of_list cols_upto];
        [reflexivity | rewrite length_map, Hlen; lia]. }
  eexists. split; [reflexivity|].
  cbn [modify snd A Ainv set_A set_Ainv set_eigvals set_eigvects set_scaling
       nrows ncols mget col_of_list row_of_list transpose cols_upto].
  assert (Hlen0 : length (firstn M eigvals) = M) by (rewrite length_firstn; lia).
  rewrite !length_map, !Hlen0.
  split; [reflexivity|]. split; [reflexivity|]. split; [reflexivity|].
  split; [reflexivity|].
  split.
  - intros i j Hi Hj. rewrite Nat.min_l by exact HMv.
    rewrite !bidx_lt by assumption. unfold s0. unR.
    rewrite (nth_scaling eigvals M i (fun x => Rpower x (- p))) by assumption.
    reflexivity.
  - intros j i Hj Hi. rewrite Nat.min_l by exact HMv.
    rewrite !bidx_lt by assumption. unfold s0. unR.
    rewrite map_map.
    rewrite (nth_scaling eigvals M i (fun x => 1 / Rpower x (- p))) by assumption.
    reflexivity.
Qed.




(** * Further properties of the code *)

(** ** CholeskyCMAES: shapes and counters over a run *)

Section EngineInvariants.
Import CholeskyCMAES.

Lemma bind_lift_Ok {S A B} (a : A) (k : A -> M S B) s : bind (lift (Ok a)) k s = k a s.
Proof. reflexivity. Qed.

Lemma bind_lift_Raise {S A B} e (k : A -> M S B) (s : S) :
  bind (lift (Raise e)) k s = (Raise e, s).
Proof. reflexivity. Qed.

Lemma bind_assoc {S A B C} (m : M S A) (f : A -> M S B) (k : B -> M S C) s :
  bind (bind m f) k s = bind m (fun a => bind (f a) k) s.
Proof. unfold bind. destruct (m s) as [[a|e] s']; reflexivity. Qed.

Lemma matmul_inv {T} `{Num T} (a b x : matrix T) :
  matmul a b = Ok x ->
  ncols a = nrows b /\ nrows x = nrows a /\ ncols x = ncols b.
Proof.
  unfold matmul. destruct (Nat.eqb _ _) eqn:E; [|discriminate].
  apply Nat.eqb_eq in E. intros Ex. injection Ex as <-. auto.
Qed.

Lemma matmul_raise {T} `{Num T} (a b : matrix T) e :
  matmul a b = Raise e -> ncols a <> nrows b /\ e = ValueError.
Proof.
  unfold matmul. destruct (Nat.eqb _ _) eqn:E; [discriminate|].
  apply Nat.eqb_neq in E. intros Ex. injection Ex as <-. auto.
Qed.

Lemma take_rows_inv {T} `{Num T} (a x : matrix T) idx :
  take_rows a idx = Ok x -> nrows x = length idx /\ ncols x = ncols a.
Proof.
  unfold take_rows. destruct (forallb _ idx); [|discriminate].
  intros E. injection E as <-. auto.
Qed.

Lemma take_rows_raise {T} `{Num T} (a : matrix T) idx e :
  take_rows a idx = Raise e -> e = IndexError.
Proof.
  unfold take_rows. destruct (forallb _ idx); [discriminate|].
  intros E. injection E as <-. reflexivity.
Qed.

Lemma broadcast2_inv {T} `{Num T} op (a b x : matrix T) :
  broadcast2 op a b = Ok x ->
  bshape (nrows a) (nrows b) = Ok (nrows x)
  /\ bshape (ncols a) (ncols b) = Ok (ncols x).
Proof.
  unfold broadcast2.
  destruct (bshape (nrows a) (nrows b)) as [r|]; [|discriminate].
  destruct (bshape (ncols a) (ncols b)) as [c|]; [|discriminate].
  cbn. intros E. injection E as <-. auto.
Qed.

Lemma broadcast2_raise {T} `{Num T} op (a b : matrix T) e :
  broadcast2 op a b = Raise e -> e = ValueError.
Proof.
  unfold broadcast2, bshape.
  repeat (destruct (Nat.eqb _ _); cbn; try discriminate);
    intros E; injection E as <-; reflexivity.
Qed.

Lemma bshape_same n r : bshape n n = Ok r -> r = n.
Proof. rewrite bshape_refl. intros E. now injection E. Qed.

Lemma bind_get_randz {A} (k : matrix R -> M (CholeskyCMAES.t (T:=R)) A) s :
  bind get_randz k s
  = match randz s with
    | Some rz => k rz s
    | None => (Raise AttributeError, s)
    end.
Proof. unfold get_randz. rewrite bind_assoc, bind_get. destruct (randz s); reflexivity. Qed.

End EngineInvariants.

Ltac eval_lift :=
  match goal with
  | |- context [bind (lift ?r) _ _] =>
      let E := fresh "E" in
      destruct r as [?|?] eqn:E; [rewrite bind_lift_Ok | rewrite bind_lift_Raise]
  end.

Ltac shape_facts :=
  repeat match goal with
  | H : matmul _ _ = Ok _ |- _ => apply matmul_inv in H; destruct H as (? & ? & ?)
  | H : take_rows _ _ = Ok _ |- _ => apply take_rows_inv in H; destruct H as (? & ?)
  | H : madd _ _ = Ok _ |- _ => apply broadcast2_inv in H; destruct H as (? & ?)
  | H : msub _ _ = Ok _ |- _ => apply broadcast2_inv in H; destruct H as (? & ?)
  | H : broadcast2 _ _ _ = Ok _ |- _ => apply broadcast2_inv in H; destruct H as (? & ?)
  end.

Ltac keep_shaped Hs :=
  destruct Hs; constructor; cbn [CholeskyCMAES.weights CholeskyCMAES.mu
    CholeskyCMAES.A CholeskyCMAES.Ainv CholeskyCMAES.pc CholeskyCMAES.ps
    CholeskyCMAES.init_x CholeskyCMAES.istep CholeskyCMAES.randz
    CholeskyCMAES.counteval CholeskyCMAES.lambda_ CholeskyCMAES.space_dimen
    CholeskyCMAES.set_sigma CholeskyCMAES.set_xmean CholeskyCMAES.set_xold
    CholeskyCMAES.set_pc CholeskyCMAES.set_ps CholeskyCMAES.set_A
    CholeskyCMAES.set_Ainv CholeskyCMAES.set_eigeneval
    CholeskyCMAES.set_counteval CholeskyCMAES.set_istep CholeskyCMAES.set_randz
    snd]; try assumption.

Section EngineShapes.
Import CholeskyCMAES.

Lemma init_mean_shaped idx (codes : matrix R) :
  preserves shaped (init_mean idx codes).
Proof.
  intros s Hs. unfold init_mean. rewrite bind_get.
  destruct (init_x s); [unfold modify; keep_shaped Hs|].
  eval_lift; [|exact Hs].
  eval_lift; [|exact Hs].
  unfold modify. keep_shaped Hs.
Qed.

Lemma update_paths_shaped idx (codes : matrix R) :
  preserves shaped (update_paths idx codes).
Proof.
  intros s Hs. unfold update_paths. rewrite bind_get, bind_modify.
  eval_lift; [|keep_shaped Hs].
  eval_lift; [|keep_shaped Hs].
  rewrite bind_modify, bind_get_randz.
  cbn [randz set_xmean set_xold].
  destruct (randz s) as [rz|] eqn:Erz; [|keep_shaped Hs].
  destruct (sh_randz Hs Erz) as [Hrz1 Hrz2].
  eval_lift; [|keep_shaped Hs].
  eval_lift; [|keep_shaped Hs].
  eval_lift; [|keep_shaped Hs].
  rewrite bind_modify.
  eval_lift.
  2:{ shape_facts. cbn in *. keep_shaped Hs; cbn in *.
      - apply bshape_same. congruence.
      - apply bshape_same. congruence. }
  eval_lift.
  2:{ shape_facts. cbn in *. keep_shaped Hs; cbn in *.
      - apply bshape_same. congruence.
      - apply bshape_same. congruence. }
  rewrite bind_modify. unfold modify.
  shape_facts. cbn in *.
  keep_shaped Hs; cbn in *; apply bshape_same; congruence.
Qed.

Lemma refresh_shaped : preserves shaped refresh.
Proof.
  intros s Hs. unfold refresh. rewrite bind_get, bind_modify.
  eval_lift; [|keep_shaped Hs].
  eval_lift; [|keep_shaped Hs].
  eval_lift; [|keep_shaped Hs].
  eval_lift; [|keep_shaped Hs].
  rewrite bind_modify.
  eval_lift.
  2:{ shape_facts. cbn in *. keep_shaped Hs; cbn in *; apply bshape_same; congruence. }
  eval_lift.
  2:{ shape_facts. cbn in *. keep_shaped Hs; cbn in *; apply bshape_same; congruence. }
  eval_lift.
  2:{ shape_facts. cbn in *. keep_shaped Hs; cbn in *; apply bshape_same; congruence. }
  unfold modify. shape_facts. cbn in *.
  keep_shaped Hs; cbn in *; apply bshape_same; congruence.
Qed.

Lemma sample_shaped z : preserves shaped (sample z).
Proof.
  intros s Hs. unfold sample. rewrite bind_get, bind_modify.
  assert (Hrz : forall rz, Some (mk_matrix (lambda_ s) (space_dimen s) z) = Some rz ->
                nrows rz = lambda_ s /\ ncols rz = space_dimen s).
  { intros rz E. injection E as <-. split; reflexivity. }
  eval_lift; [|keep_shaped Hs; discriminate].
  eval_lift; [|keep_shaped Hs; discriminate].
  rewrite !bind_modify. unfold ret.
  keep_shaped Hs; try discriminate. lia.
Qed.

Lemma step_simple_shaped (scores : list R) (codes : matrix R) z :
  preserves shaped (step_simple scores codes z).
Proof.
  unfold step_simple.
  apply preserves_bind_get; intros self Hself.
  apply preserves_bind; [ | intros _; apply sample_shaped ].
  destruct (Nat.eqb (istep self) 0); [apply init_mean_shaped|].
  apply preserves_bind; [apply update_paths_shaped | intros _].
  apply preserves_bind_get; intros s1 Hs1.
  destruct (refresh_due s1); [apply refresh_shaped | apply preserves_ret].
Qed.

Lemma init_shaped N pop sig code freq mx params st :
  init N pop sig code freq mx params = Ok st -> shaped st.
Proof.
  unfold init. destruct (reshape_init N code) as [x|] eqn:Ex; cbn [rbind]; [|discriminate].
  intros E. injection E as <-.
  constructor; cbn; try reflexivity; try (intros; discriminate).
  - rewrite normalize_length. apply log_weights_length.
  - intros x0 E. subst x. unfold reshape_init in Ex.
    destruct code as [l|]; [|discriminate].
    destruct (Nat.eqb (length l) N) eqn:El; [|discriminate].
    apply Nat.eqb_eq in El. injection Ex as <-. cbn. auto.
  - intros H; now elim H.
  - lia.
Qed.
End EngineShapes.

Section EngineCounters.
Import CholeskyCMAES.

Lemma bind_cases {S A B} (m : M S A) (k : A -> M S B) s :
  (exists a s', m s = (Ok a, s') /\ bind m k s = k a s')
  \/ (exists e s', m s = (Raise e, s') /\ bind m k s = (Raise e, s')).
Proof.
  unfold bind. destruct (m s) as [[a|e] s'].
  - left. exists a, s'. auto.
  - right. exists e, s'. auto.
Qed.

Lemma before_sample_keeps (P : CholeskyCMAES.t (T:=R) -> Prop) (scores : list R)
  (codes : matrix R) (self : CholeskyCMAES.t (T:=R)) :
  (forall x s, P s -> P (set_xmean x s)) ->
  (forall x s, P s -> P (set_xold x s)) ->
  (forall x s, P s -> P (set_ps x s)) ->
  (forall x s, P s -> P (set_pc x s)) ->
  (forall x s, P s -> P (set_sigma x s)) ->
  (forall x s, P s -> P (set_eigeneval x s)) ->
  (forall x s, P s -> P (set_A x s)) ->
  (forall x s, P s -> P (set_Ainv x s)) ->
  preserves P
    (if Nat.eqb (istep self) 0
     then init_mean (sort_index (maximize self) scores) codes
     else bind (update_paths (sort_index (maximize self) scores) codes)
            (fun _ => bind get (fun self => if refresh_due self then refresh else ret tt))).
Proof.
  intros H1 H2 H3 H4 H5 H6 H7 H8.
  destruct (Nat.eqb (istep self) 0).
  - unfold init_mean. apply preserves_bind_get; intros s Hs.
    destruct (init_x s); repeat preserve_step; auto.
  - apply preserves_bind; [ | intros _ ].
    + unfold update_paths, get_randz.
      apply preserves_bind_get; intros s Hs.
      repeat preserve_step; auto.
      destruct (randz _); repeat preserve_step.
    + apply preserves_bind_get; intros s Hs.
      destruct (refresh_due s); [ | apply preserves_ret ].
      unfold refresh. repeat preserve_step; auto.
Qed.

Lemma step_simple_istep (scores : list R) (codes : matrix R) z s :
  match fst (step_simple scores codes z s) with
  | Ok _ => istep (snd (step_simple scores codes z s)) = S (istep s)
  | Raise _ => istep (snd (step_simple scores codes z s)) = istep s
  end.
Proof.
  unfold step_simple. rewrite bind_get.
  pose proof (before_sample_keeps (fun x => istep x = istep s) scores codes s) as Hk.
  match goal with |- context [bind ?m _ s] => set (m1 := m) in * end.
  specialize (Hk (fun _ _ H => H) (fun _ _ H => H) (fun _ _ H => H) (fun _ _ H => H)
                 (fun _ _ H => H) (fun _ _ H => H) (fun _ _ H => H) (fun _ _ H => H)
                 s eq_refl).
  destruct (bind_cases m1 (fun _ => sample z) s) as [(a & s' & E1 & ->) | (e & s' & E1 & ->)];
    rewrite E1 in Hk; cbn [snd fst] in *; [|exact Hk].
  unfold sample. rewrite bind_get, bind_modify.
  eval_lift; [|cbn; exact Hk].
  eval_lift; [|cbn; exact Hk].
  rewrite !bind_modify. cbn. now rewrite Hk.
Qed.

Lemma step_simple_same_setup a (scores : list R) (codes : matrix R) z :
  preserves (same_setup a) (step_simple scores codes z).
Proof.
  unfold step_simple.
  apply preserves_bind_get; intros self Hself.
  apply preserves_bind; [ | intros _ ].
  - apply before_sample_keeps; intros; assumption.
  - unfold sample. repeat preserve_step; assumption.
Qed.

Lemma same_setup_refl a : same_setup a a.
Proof. repeat split. Qed.

Lemma run_istep (calls : list (call R)) : forall s,
  istep (run step_simple calls s)
  = (istep s + returned_count (trace step_simple calls s))%nat.
Proof.
  induction calls as [|[[scores codes] z] calls IH]; intros s.
  - cbn. lia.
  - change (run step_simple (((scores, codes), z) :: calls) s)
      with (run step_simple calls (snd (step_simple scores codes z s))).
    rewrite IH. cbn [trace fst snd].
    pose proof (step_simple_istep scores codes z s) as Hi.
    unfold returned_count in *. cbn [filter].
    destruct (fst (step_simple scores codes z s)); rewrite Hi; cbn [length]; lia.
Qed.

(** X1.  After any sequence of calls on a constructed engine, whatever they
    were given and whether they returned or raised: the generation counter is
    the number of calls that returned, the evaluation counter is [lambda_]
    times that number, and population size, selection size, weights and
    dimension are those of the construction. *)
Theorem generations_are_counted
  (N : nat) (population_size : option nat) (init_sigma : R)
  (init_code : option (list R)) (Aupdate_freq : option Z) (maximize : bool)
  (params : optim_params) (st : CholeskyCMAES.t) (calls : list (call R)) :
  init N population_size init_sigma init_code Aupdate_freq maximize params = Ok st ->
  let st' := run step_simple calls st in
  istep st' = returned_count (trace step_simple calls st)
  /\ counteval st' = (Z.of_nat (lambda_ st) * Z.of_nat (istep st'))%Z
  /\ same_setup st st'.
Proof.
  intros Hinit st'.
  assert (Hsh : shaped st) by (eapply init_shaped; exact Hinit).
  assert (Hsh' : shaped st').
  { apply (run_preserves shaped step_simple step_simple_shaped calls st Hsh). }
  assert (Hset : same_setup st st').
  { apply (run_preserves (same_setup st) step_simple (step_simple_same_setup st) calls st
             (same_setup_refl st)). }
  split; [|split; [|exact Hset]].
  - unfold st'. rewrite run_istep.
    unfold init in Hinit. destruct (reshape_init N init_code); cbn [rbind] in Hinit;
      [|discriminate].
    injection Hinit as <-. reflexivity.
  - rewrite (sh_count Hsh'). destruct Hset as (_ & -> & _). reflexivity.
Qed.

Lemma generations_are_counted_witness :
  istep (run step_simple [demo_call; demo_call] demo_init)
  = returned_count (trace step_simple [demo_call; demo_call] demo_init)
  /\ counteval (run step_simple [demo_call; demo_call] demo_init)
     = (Z.of_nat (lambda_ demo_init)
        * Z.of_nat (istep (run step_simple [demo_call; demo_call] demo_init)))%Z.
Proof.
  destruct (generations_are_counted 1 (Some 2%nat) 3 None (Some 10%Z) true no_params
              demo_init [demo_call; demo_call] eq_refl) as (H1 & H2 & _).
  split; assumption.
Defined.
End EngineCounters.

(** ** CholeskyCMAES: the exceptions of a call *)

Lemma take_rows_raise_inv {T} `{Num T} (a : matrix T) idx e :
  take_rows a idx = Raise e ->
  forallb (fun i => Nat.ltb i (nrows a)) idx = false.
Proof. unfold take_rows. destruct (forallb _ idx); [discriminate | reflexivity]. Qed.

Lemma broadcast2_raise_inv {T} `{Num T} op (a b : matrix T) e :
  broadcast2 op a b = Raise e ->
  (nrows a <> nrows b /\ nrows a <> 1%nat /\ nrows b <> 1%nat)
  \/ (ncols a <> ncols b /\ ncols a <> 1%nat /\ ncols b <> 1%nat).
Proof.
  unfold broadcast2, bshape.
  destruct (Nat.eqb (nrows a) (nrows b)) eqn:E1;
    [|destruct (Nat.eqb (nrows a) 1) eqn:E2;
      [|destruct (Nat.eqb (nrows b) 1) eqn:E3]];
    cbn [rbind];
    try (destruct (Nat.eqb (ncols a) (ncols b)) eqn:E4;
         [|destruct (Nat.eqb (ncols a) 1) eqn:E5;
           [|destruct (Nat.eqb (ncols b) 1) eqn:E6]];
         cbn [rbind]; try discriminate;
         intros _; right; repeat split; apply Nat.eqb_neq; assumption).
  intros _. left. repeat split; apply Nat.eqb_neq; assumption.
Qed.

Lemma In_firstn {A} (x : A) k l : In x (firstn k l) -> In x l.
Proof.
  intros Hx. rewrite <- (firstn_skipn k l). apply in_or_app. now left.
Qed.

Lemma firstn_perm_bound (idx : list nat) n m k :
  Permutation idx (seq 0 n) -> (n <= m)%nat ->
  forallb (fun i => Nat.ltb i m) (firstn k idx) = true.
Proof.
  intros Hp Hnm. apply forallb_forall. intros i Hi.
  apply Nat.ltb_lt. apply In_firstn in Hi.
  apply (Permutation_in _ Hp) in Hi. apply in_seq in Hi. lia.
Qed.

Lemma firstn_perm_length (idx : list nat) n k :
  Permutation idx (seq 0 n) -> (k <= n)%nat -> length (firstn k idx) = k.
Proof.
  intros Hp Hk. rewrite length_firstn.
  apply Permutation_length in Hp. rewrite length_seq in Hp. lia.
Qed.

Ltac raise_kind :=
  match goal with
  | H : take_rows _ _ = Raise _ |- _ => right; exact (take_rows_raise _ _ _ H)
  | H : matmul _ _ = Raise _ |- _ => left; exact (proj2 (matmul_raise _ _ _ H))
  | H : madd _ _ = Raise _ |- _ => left; exact (broadcast2_raise _ _ _ _ H)
  | H : msub _ _ = Raise _ |- _ => left; exact (broadcast2_raise _ _ _ _ H)
  end.

Ltac contradict_raise :=
  exfalso; shape_facts; cbn in *;
  match goal with
  | H : matmul _ _ = Raise _ |- _ =>
      apply matmul_raise in H; destruct H as [H _]; apply H; cbn; congruence
  | H : madd _ _ = Raise _ |- _ =>
      apply broadcast2_raise_inv in H; cbn in H;
      destruct H as [(H & ? & ?)|(H & ? & ?)]; apply H; congruence
  | H : msub _ _ = Raise _ |- _ =>
      apply broadcast2_raise_inv in H; cbn in H;
      destruct H as [(H & ? & ?)|(H & ? & ?)]; apply H; congruence
  end.

Section EngineErrors.
Import CholeskyCMAES.

Lemma init_mean_raises idx (codes : matrix R) s e s' :
  init_mean idx codes s = (Raise e, s') -> e = ValueError \/ e = IndexError.
Proof.
  unfold init_mean. rewrite bind_get.
  destruct (init_x s); [unfold modify; discriminate|].
  eval_lift.
  2:{ intros Ex. injection Ex as <- _. raise_kind. }
  eval_lift.
  2:{ intros Ex. injection Ex as <- _. raise_kind. }
  unfold modify. discriminate.
Qed.

Lemma update_paths_raises idx (codes : matrix R) s e s' :
  randz s <> None ->
  update_paths idx codes s = (Raise e, s') -> e = ValueError \/ e = IndexError.
Proof.
  intros Hrz. unfold update_paths. rewrite bind_get, bind_modify.
  eval_lift.
  2:{ intros Ex. injection Ex as <- _. raise_kind. }
  eval_lift.
  2:{ intros Ex. injection Ex as <- _. raise_kind. }
  rewrite bind_modify, bind_get_randz. cbn [randz set_xmean set_xold].
  destruct (randz s) as [rz|]; [|now elim Hrz].
  eval_lift.
  2:{ intros Ex. injection Ex as <- _. raise_kind. }
  eval_lift.
  2:{ intros Ex. injection Ex as <- _. raise_kind. }
  eval_lift.
  2:{ intros Ex. injection Ex as <- _. raise_kind. }
  rewrite bind_modify.
  eval_lift.
  2:{ intros Ex. injection Ex as <- _. raise_kind. }
  eval_lift.
  2:{ intros Ex. injection Ex as <- _. raise_kind. }
  rewrite bind_modify. unfold modify. discriminate.
Qed.

(** On an object with the shapes of a constructed engine the refresh always
    returns: no shape can fail and nothing tests the values. *)
Lemma refresh_returns s :
  shaped s ->
  exists s', refresh s = (Ok tt, s') /\ xmean s' = xmean s /\ istep s' = istep s
             /\ lambda_ s' = lambda_ s /\ space_dimen s' = space_dimen s.
Proof.
  intros Hs. unfold refresh. rewrite bind_get, bind_modify.
  destruct Hs.
  eval_lift; [|contradict_raise].
  eval_lift; [|contradict_raise].
  eval_lift; [|contradict_raise].
  eval_lift.
  2:{ shape_facts. cbn in *.
      match goal with H : madd _ _ = Raise _ |- _ =>
        apply broadcast2_raise_inv in H; cbn in H;
        destruct H as [(H & ? & ?)|(H & ? & ?)]; exfalso; apply H; congruence end. }
  rewrite bind_modify.
  eval_lift; [|contradict_raise].
  eval_lift; [|contradict_raise].
  eval_lift.
  2:{ shape_facts. cbn in *.
      match goal with H : msub _ _ = Raise _ |- _ =>
        apply broadcast2_raise_inv in H; cbn in H;
        destruct H as [(H & ? & ?)|(H & ? & ?)]; exfalso; apply H; congruence end. }
  unfold modify. eexists. split; [reflexivity|]. repeat split; reflexivity.
Qed.

Lemma sample_raises z (s : CholeskyCMAES.t (T:=R)) e s' :
  sample z s = (Raise e, s') -> e = ValueError \/ e = IndexError.
Proof.
  unfold sample. rewrite bind_get, bind_modify.
  eval_lift.
  2:{ intros Ex. injection Ex as <- _. raise_kind. }
  eval_lift.
  2:{ intros Ex. injection Ex as <- _. raise_kind. }
  rewrite !bind_modify. unfold ret. discriminate.
Qed.

Lemma step_simple_raises (scores : list R) (codes : matrix R) z s e :
  shaped s ->
  fst (step_simple scores codes z s) = Raise e -> e = ValueError \/ e = IndexError.
Proof.
  intros Hs. unfold step_simple. rewrite bind_get.
  match goal with |- context [bind ?m _ s] => set (m1 := m) end.
  destruct (bind_cases m1 (fun _ => sample z) s) as [(a & s1 & E1 & ->) | (e1 & s1 & E1 & ->)].
  - destruct (sample z s1) as [[out|e2] s2] eqn:E2; cbn [fst]; [discriminate|].
    intros Ex. injection Ex as <-. eapply sample_raises; exact E2.
  - cbn [fst]. intros Ex. injection Ex as <-. unfold m1 in E1.
    destruct (Nat.eqb (istep s) 0) eqn:Ei.
    + eapply init_mean_raises; exact E1.
    + apply Nat.eqb_neq in Ei.
      set (idx := sort_index (maximize s) scores) in *.
      destruct (bind_cases (update_paths idx codes)
                  (fun _ => bind get (fun self => if refresh_due self then refresh else ret tt)) s)
        as [(a & s2 & E2 & E3) | (e2 & s2 & E2 & E3)]; rewrite E3 in E1.
      * assert (Hs2 : shaped s2).
        { pose proof (update_paths_shaped idx codes s Hs) as Hp. now rewrite E2 in Hp. }
        rewrite bind_get in E1. destruct (refresh_due s2); [|discriminate].
        destruct (refresh_returns s2 Hs2) as (s3 & E4 & _). rewrite E4 in E1. discriminate.
      * injection E1 as <- _. eapply (update_paths_raises idx codes s); [|exact E2].
        apply (sh_sampled Hs Ei).
Qed.

Lemma run_shaped (calls : list (call R)) s :
  shaped s -> shaped (run step_simple calls s).
Proof. apply (run_preserves shaped step_simple step_simple_shaped). Qed.

(** The damping of an engine whose [cs] is not overridden is at least 1. *)
Lemma init_damps_pos N pop sig code freq mx (params : optim_params)
  (st : CholeskyCMAES.t (T:=R)) :
  init N pop sig code freq mx params = Ok st ->
  op_cs params = None -> 1 <= damps st.
Proof.
  unfold init. destruct (reshape_init N code) as [x|]; cbn [rbind]; [|discriminate].
  intros E Hcs. injection E as <-. cbn [damps]. rewrite Hcs. cbn [override].
  match goal with |- 1 <= 1 + ?c + 2 * ?mx =>
    assert (Hc : 0 <= c); [|assert (Hm : 0 <= mx); [|lra]]
  end.
  - match goal with |- 0 <= ?a / ?d =>
      assert (Ha : 0 <= a) by apply sqrt_pos;
      assert (Hd : 0 <= d) by (apply Rplus_le_le_0_compat; apply sqrt_pos);
      destruct (Req_dec d 0) as [E0|E0];
        [rewrite E0; unfold Rdiv; rewrite Rinv_0; lra
        | apply Rmult_le_pos; [exact Ha|]; left; apply Rinv_0_lt_compat; lra]
    end.
  - unfold smax. unR. unfold Rltb. destruct (Rlt_dec _ _); lra.
Qed.

(** X2.  An engine constructed with a damping that is not zero never fails for
    a missing attribute: whatever the calls are given, every exception a
    call raises is the ValueError of a shape mismatch or the IndexError of a
    score index beyond the codes or the retained normals. *)
Theorem only_shape_and_index_errors
  (N : nat) (population_size : option nat) (init_sigma : R)
  (init_code : option (list R)) (Aupdate_freq : option Z) (maximize : bool)
  (params : optim_params) (st : CholeskyCMAES.t) (calls : list (call R)) :
  init N population_size init_sigma init_code Aupdate_freq maximize params = Ok st ->
  damps st <> 0 ->
  Forall (fun r => forall e, r = Raise e -> e = ValueError \/ e = IndexError)
    (trace step_simple calls st).
Proof.
  intros Hinit _. apply init_shaped in Hinit. revert st Hinit.
  induction calls as [|[[scores codes] z] calls IH]; intros s Hs; [constructor|].
  cbn [trace fst snd]. constructor.
  - intros e He. eapply step_simple_raises; eassumption.
  - apply IH. apply (step_simple_shaped scores codes z s Hs).
Qed.

Lemma only_shape_and_index_errors_witness :
  Forall (fun r => forall e, r = Raise e -> e = ValueError \/ e = IndexError)
    (trace step_simple [demo_call; ([0], zeros 2 1, fun _ _ => 0)] demo_init).
Proof.
  apply (only_shape_and_index_errors 1 (Some 2%nat) 3 None (Some 10%Z) true no_params).
  - reflexivity.
  - pose proof (init_damps_pos 1 (Some 2%nat) 3 None (Some 10%Z) true no_params demo_init
                  eq_refl eq_refl).
    lra.
Defined.
End EngineErrors.

(** ** CholeskyCMAES: calls that return *)

Section EngineProgress.
Import CholeskyCMAES.

Lemma take_rows_perm_ok (a : matrix R) idx n k :
  Permutation idx (seq 0 n) -> (n <= nrows a)%nat ->
  exists x, take_rows a (firstn k idx) = Ok x
            /\ nrows x = Nat.min k n /\ ncols x = ncols a.
Proof.
  intros Hp Hn. rewrite take_rows_ok by (eapply firstn_perm_bound; eassumption).
  eexists. split; [reflexivity|]. cbn. split; [|reflexivity].
  rewrite length_firstn. apply Permutation_length in Hp. rewrite length_seq in Hp.
  now rewrite Hp.
Qed.

Lemma init_mean_returns idx (codes : matrix R) s n :
  shaped s -> Permutation idx (seq 0 n) ->
  nrows codes = n -> ncols codes = space_dimen s ->
  exists s', init_mean idx codes s = (Ok tt, s') /\ mean_shaped s' /\ istep s' = istep s
             /\ lambda_ s' = lambda_ s /\ space_dimen s' = space_dimen s.
Proof.
  intros Hs Hp Hr Hc. unfold init_mean. rewrite bind_get.
  destruct (init_x s) as [x|] eqn:Ex.
  - unfold modify. eexists. split; [reflexivity|]. split; [|repeat split; reflexivity].
    exact (sh_init_x Hs Ex).
  - destruct (take_rows_perm_ok codes idx n (mu s) Hp) as (sel & E1 & Hs1 & Hs2); [lia|].
    rewrite E1, bind_lift_Ok.
    rewrite matmul_ok.
    2:{ cbn. rewrite Hs1, length_firstn, (sh_weights_cols Hs).
        apply Permutation_length in Hp. rewrite length_seq in Hp. rewrite Hp. lia. }
    rewrite bind_lift_Ok. unfold modify. eexists. split; [reflexivity|].
    split; [|repeat split; reflexivity].
    split; cbn; [apply (sh_weights_rows Hs) | congruence].
Qed.

Lemma update_paths_returns idx (codes : matrix R) s n :
  shaped s -> randz s <> None -> Permutation idx (seq 0 n) ->
  (mu s <= n <= lambda_ s)%nat ->
  nrows codes = n -> ncols codes = space_dimen s ->
  exists s', update_paths idx codes s = (Ok tt, s')
             /\ mean_shaped s' /\ istep s' = istep s
             /\ lambda_ s' = lambda_ s /\ space_dimen s' = space_dimen s.
Proof.
  intros Hs Hrz Hp Hn Hr Hc. unfold update_paths. rewrite bind_get, bind_modify.
  destruct (take_rows_perm_ok codes idx n (mu s) Hp) as (sel & E1 & Hs1 & Hs2); [lia|].
  rewrite E1, bind_lift_Ok.
  rewrite Nat.min_l in Hs1 by lia.
  pose proof (sh_weights_rows Hs) as Hw1. pose proof (sh_weights_cols Hs) as Hw2.
  rewrite matmul_ok by congruence.
  rewrite bind_lift_Ok, bind_modify, bind_get_randz. cbn [randz set_xmean set_xold].
  destruct (randz s) as [rz|] eqn:Erz; [|now elim Hrz].
  destruct (sh_randz Hs Erz) as [Hz1 Hz2].
  destruct (take_rows_perm_ok rz idx n (mu s) Hp) as (rsel & E2 & Hr1 & Hr2); [lia|].
  rewrite Nat.min_l in Hr1 by lia.
  cbn [mu set_xmean set_xold weights].
  rewrite E2, bind_lift_Ok.
  rewrite matmul_ok by congruence. rewrite bind_lift_Ok.
  destruct Hs.
  eval_lift; [|contradict_raise].
  rewrite bind_modify.
  eval_lift; [|contradict_raise].
  eval_lift; [|contradict_raise].
  rewrite bind_modify. unfold modify. eexists. split; [reflexivity|].
  split; [|repeat split; reflexivity]. split; cbn; congruence.
Qed.

Lemma sample_returns z s :
  shaped s -> mean_shaped s ->
  exists out s', sample z s = (Ok out, s')
    /\ nrows out = lambda_ s /\ ncols out = space_dimen s
    /\ mean_shaped s' /\ istep s' = S (istep s)
    /\ lambda_ s' = lambda_ s /\ space_dimen s' = space_dimen s.
Proof.
  intros Hs [Hm1 Hm2]. unfold sample. rewrite bind_get, bind_modify.
  rewrite matmul_ok by (cbn; symmetry; apply (sh_A_rows Hs)).
  rewrite bind_lift_Ok.
  unfold madd. rewrite broadcast2_row by (cbn; rewrite ?(sh_A_cols Hs); assumption).
  rewrite bind_lift_Ok, !bind_modify. unfold ret.
  eexists. eexists. split; [reflexivity|]. cbn. repeat split; assumption.
Qed.

Lemma step_simple_returns (scores : list R) (codes : matrix R) z s :
  shaped s ->
  nrows codes = length scores -> ncols codes = space_dimen s ->
  (istep s <> 0%nat -> (mu s <= length scores <= lambda_ s)%nat) ->
  exists out s', step_simple scores codes z s = (Ok out, s')
    /\ nrows out = lambda_ s /\ ncols out = space_dimen s
    /\ mean_shaped s' /\ istep s' = S (istep s).
Proof.
  intros Hs Hr Hc Hn. unfold step_simple. rewrite bind_get.
  pose proof (sort_index_perm (maximize s) scores) as Hp.
  set (idx := sort_index (maximize s) scores) in *.
  assert (H1 : exists s1,
             (if Nat.eqb (istep s) 0 then init_mean idx codes
              else bind (update_paths idx codes)
                     (fun _ => bind get (fun self => if refresh_due self then refresh else ret tt)))
               s = (Ok tt, s1)
             /\ shaped s1 /\ mean_shaped s1 /\ istep s1 = istep s
             /\ lambda_ s1 = lambda_ s /\ space_dimen s1 = space_dimen s).
  { destruct (Nat.eqb (istep s) 0) eqn:Ei.
    - destruct (init_mean_returns idx codes s (length scores) Hs Hp Hr Hc)
        as (s1 & E1 & Hm & Hi & Hl & Hd).
      exists s1. split; [exact E1|]. split; [|auto].
      pose proof (init_mean_shaped idx codes s Hs) as Hp1. now rewrite E1 in Hp1.
    - apply Nat.eqb_neq in Ei.
      destruct (update_paths_returns idx codes s (length scores) Hs (sh_sampled Hs Ei) Hp
                  (Hn Ei) Hr Hc) as (s1 & E1 & Hm & Hi & Hl & Hd).
      assert (Hs1 : shaped s1).
      { pose proof (update_paths_shaped idx codes s Hs) as Hp1. now rewrite E1 in Hp1. }
      erewrite bind_ok by exact E1. rewrite bind_get.
      destruct (refresh_due s1).
      + destruct (refresh_returns s1 Hs1) as (s2 & E2 & Hx & Hi2 & Hl2 & Hd2).
        exists s2. split; [exact E2|]. split.
        { pose proof (refresh_shaped s1 Hs1) as Hp2. now rewrite E2 in Hp2. }
        split; [|repeat split; congruence].
        destruct Hm as [Hm1 Hm2]. unfold mean_shaped. rewrite Hx, Hd2. auto.
      + exists s1. unfold ret. split; [reflexivity|]. auto. }
  destruct H1 as (s1 & E1 & Hs1 & Hm1 & Hi1 & Hl1 & Hd1).
  erewrite bind_ok by exact E1.
  destruct (sample_returns z s1 Hs1 Hm1) as (out & s2 & E2 & Ho1 & Ho2 & Hm2 & Hi2 & _).
  exists out, s2. split; [exact E2|]. repeat split; try apply Hm2; congruence.
Qed.

Lemma init_dimen N pop sig code freq mx params st :
  init N pop sig code freq mx params = Ok st ->
  space_dimen st = N /\ istep st = 0%nat /\ sigma st = sig.
Proof.
  unfold init. destruct (reshape_init N code); cbn [rbind]; [|discriminate].
  intros E. injection E as <-. repeat split.
Qed.

Lemma fitting_run_returns st (calls : list (call R)) : forall s,
  shaped s -> same_setup st s -> istep s <> 0%nat ->
  Forall (fitting st) calls ->
  Forall (fun r => exists out, r = Ok out /\ nrows out = lambda_ st
                               /\ ncols out = space_dimen st)
    (trace step_simple calls s)
  /\ istep (run step_simple calls s) = (istep s + length calls)%nat.
Proof.
  induction calls as [|[[scores codes] z] calls IH]; intros s Hs Hset Hi Hfit.
  - split; [constructor | cbn; lia].
  - inversion Hfit as [|c l (Hr & Hc & Hn) Hrest]; subst. cbn [fst snd] in Hr, Hc, Hn.
    pose proof Hset as (Hd & Hl & Hm & _).
    destruct (step_simple_returns scores codes z s Hs Hr) as (out & s' & E & Ho1 & Ho2 & _ & Hi');
      [congruence | intros _; rewrite Hm, Hl; exact Hn |].
    assert (Hs' : shaped s').
    { pose proof (step_simple_shaped scores codes z s Hs) as Hp. now rewrite E in Hp. }
    assert (Hset' : same_setup st s').
    { pose proof (step_simple_same_setup st scores codes z s Hset) as Hp. now rewrite E in Hp. }
    destruct (IH s' Hs' Hset') as [IH1 IH2]; [lia | exact Hrest |].
    change (run step_simple (((scores, codes), z) :: calls) s)
      with (run step_simple calls (snd (step_simple scores codes z s))).
    cbn [trace fst snd]. rewrite E. cbn [fst snd]. split.
    + constructor; [|exact IH1]. exists out. repeat split; congruence.
    + rewrite IH2, Hi'. cbn [length]. lia.
Qed.

(** X3.  An engine constructed with a damping that is not zero keeps running on
    well-shaped input.  When the first call gets one score per code and codes
    of the engine's dimension, and every later call moreover gets at least
    [mu] and at most [lambda_] of them, every call returns a population of
    [lambda_] codes of that dimension, and the generation counter is the
    number of calls. *)
Theorem fitting_calls_return
  (N : nat) (population_size : option nat) (init_sigma : R)
  (init_code : option (list R)) (Aupdate_freq : option Z) (maximize : bool)
  (params : optim_params) (st : CholeskyCMAES.t)
  (scores : list R) (codes : matrix R) (z : nat -> nat -> R) (rest : list (call R)) :
  init N population_size init_sigma init_code Aupdate_freq maximize params = Ok st ->
  damps st <> 0 ->
  nrows codes = length scores -> ncols codes = N ->
  Forall (fitting st) rest ->
  let calls := (scores, codes, z) :: rest in
  Forall (fun r => exists out, r = Ok out /\ nrows out = lambda_ st /\ ncols out = N)
    (trace step_simple calls st)
  /\ istep (run step_simple calls st) = length calls.
Proof.
  intros Hinit _ Hr Hc Hfit calls.
  pose proof (init_shaped _ _ _ _ _ _ _ _ Hinit) as Hs.
  destruct (init_dimen _ _ _ _ _ _ _ _ Hinit) as (Hd & Hi & _).
  destruct (step_simple_returns scores codes z st Hs Hr) as (out & s' & E & Ho1 & Ho2 & _ & Hi');
    [congruence | intros H; now elim H |].
  assert (Hs' : shaped s').
  { pose proof (step_simple_shaped scores codes z st Hs) as Hp. now rewrite E in Hp. }
  assert (Hset' : same_setup st s').
  { pose proof (step_simple_same_setup st scores codes z st (same_setup_refl st)) as Hp.
    now rewrite E in Hp. }
  destruct (fitting_run_returns st rest s' Hs' Hset') as [H1 H2]; [lia | exact Hfit |].
  unfold calls.
  change (run step_simple (((scores, codes), z) :: rest) st)
    with (run step_simple rest (snd (step_simple scores codes z st))).
  cbn [trace fst snd]. rewrite E. cbn [fst snd]. split.
  - constructor.
    + exists out. repeat split; congruence.
    + rewrite <- Hd. exact H1.
  - rewrite H2, Hi', Hi. reflexivity.
Qed.

Lemma fitting_calls_return_witness :
  Forall (fun r => exists out, r = Ok out /\ nrows out = lambda_ demo_init
                               /\ ncols out = 1%nat)
    (trace step_simple [demo_call; demo_call; demo_call] demo_init)
  /\ istep (run step_simple [demo_call; demo_call; demo_call] demo_init) = 3%nat.
Proof.
  apply (fitting_calls_return 1 (Some 2%nat) 3 None (Some 10%Z) true no_params demo_init
           [0; 0] (zeros 2 1) (fun _ _ => 0) [demo_call; demo_call]).
  - reflexivity.
  - pose proof (init_damps_pos 1 (Some 2%nat) 3 None (Some 10%Z) true no_params demo_init
                  eq_refl eq_refl).
    lra.
  - reflexivity.
  - reflexivity.
  - assert (Hfit : fitting demo_init demo_call).
    { split; [reflexivity|]. split; [reflexivity|].
      change (mu demo_init) with (Z.to_nat (Zfloor (IZR (Z.of_nat 2) / IZR 2))).
      rewrite (Zfloor_eq 1); [simpl; lia | simpl; lra]. }
    constructor; [exact Hfit | constructor; [exact Hfit | constructor]].
Defined.
End EngineProgress.

(** ** CholeskyCMAES: the first and the later generations *)

Section EngineGenerations.
Import CholeskyCMAES.

(** X4.  The first call of an engine constructed with an initial code looks at
    neither scores nor codes: it returns, the mean is the initial code, and
    sample [i] is the initial code plus [init_sigma] times the [i]-th
    normal draw. *)
Theorem first_generation_from_init_code
  (N : nat) (population_size : option nat) (init_sigma : R)
  (code : list R) (Aupdate_freq : option Z) (maximize : bool)
  (params : optim_params) (st : CholeskyCMAES.t)
  (scores : list R) (codes : matrix R) (z : nat -> nat -> R) :
  init N population_size init_sigma (Some code) Aupdate_freq maximize params = Ok st ->
  exists out st',
    step_simple scores codes z st = (Ok out, st')
    /\ xmean st' = row_of_list code
    /\ nrows out = lambda_ st /\ ncols out = N
    /\ forall i j, (i < lambda_ st)%nat -> (j < N)%nat ->
         mget out i j = nth j code 0 + init_sigma * z i j.
Proof.
  intros Hinit. unfold init in Hinit. unfold reshape_init in Hinit.
  destruct (Nat.eqb (length code) N) eqn:El; cbn [rbind] in Hinit; [|discriminate].
  apply Nat.eqb_eq in El. injection Hinit as <-.
  unfold step_simple. rewrite bind_get. cbn [istep Nat.eqb].
  unfold init_mean. erewrite bind_ok.
  2:{ rewrite bind_get. cbn [init_x]. unfold modify. reflexivity. }
  unfold sample. rewrite bind_get, bind_modify.
  cbn [lambda_ space_dimen A sigma xmean set_xmean set_randz].
  rewrite matmul_ok by reflexivity. rewrite bind_lift_Ok.
  unfold madd. rewrite broadcast2_row by (cbn; congruence).
  rewrite bind_lift_Ok, !bind_modify. unfold ret.
  eexists. eexists. split; [reflexivity|]. cbn [xmean set_istep set_counteval set_randz set_xmean].
  split; [reflexivity|]. cbn [nrows ncols mget scale eye row_of_list].
  split; [reflexivity|]. split; [exact El|].
  intros i j Hi Hj. rewrite El. cbn [bidx Nat.eqb].
  rewrite !bidx_lt by assumption. unR.
  rewrite vsum_ext with (g := fun k => init_sigma * z i k * (if Nat.eqb k j then 1 else 0)).
  2:{ intros k Hk. reflexivity. }
  rewrite (vsum_diag_r_one N j (fun k => init_sigma * z i k)) by exact Hj.
  replace (if (N =? 1)%nat then 0%nat else j) with j.
  2:{ destruct (Nat.eqb N 1) eqn:E1; [apply Nat.eqb_eq in E1; lia | reflexivity]. }
  reflexivity.
Qed.

Lemma first_generation_from_init_code_witness :
  exists out st',
    step_simple [] (zeros 0 0) (fun i j => INR (i + j)) demo_init_coded = (Ok out, st')
    /\ nrows out = 3%nat /\ ncols out = 2%nat
    /\ mget out 1 1 = 7 + 3 * INR 2.
Proof.
  destruct (first_generation_from_init_code 2 (Some 3%nat) 3 [5; 7] (Some 10%Z) true no_params
              demo_init_coded [] (zeros 0 0) (fun i j => INR (i + j)) eq_refl)
    as (out & st' & H1 & _ & H2 & H3 & H4).
  exists out, st'. split; [exact H1|]. split; [exact H2|]. split; [exact H3|].
  apply (H4 1%nat 1%nat); [cbn; lia | lia].
Defined.

(** X5.  Past the first generation the selection is not renormalized: a call
    that supplies fewer codes than the selection size [mu] raises ValueError
    at the recombination, after the old mean was already saved; mean,
    paths, step size and counters are left as they were. *)
Theorem later_generation_needs_mu_codes
  (N : nat) (population_size : option nat) (init_sigma : R)
  (init_code : option (list R)) (Aupdate_freq : option Z) (maximize : bool)
  (params : optim_params) (st : CholeskyCMAES.t) (calls : list (call R))
  (scores : list R) (codes : matrix R) (z : nat -> nat -> R) :
  init N population_size init_sigma init_code Aupdate_freq maximize params = Ok st ->
  let s := run step_simple calls st in
  istep s <> 0%nat ->
  nrows codes = length scores ->
  (length scores < mu s)%nat ->
  step_simple scores codes z s = (Raise ValueError, set_xold (xmean s) s).
Proof.
  intros Hinit s Hi Hr Hn.
  assert (Hs : shaped s).
  { apply run_shaped. eapply init_shaped. exact Hinit. }
  apply Nat.eqb_neq in Hi.
  unfold step_simple. rewrite bind_get, Hi.
  pose proof (sort_index_perm (CholeskyCMAES.maximize s) scores) as Hp.
  set (idx := sort_index (CholeskyCMAES.maximize s) scores) in *.
  erewrite bind_raise; [reflexivity|].
  erewrite bind_raise; [reflexivity|].
  unfold update_paths. rewrite bind_get, bind_modify.
  destruct (take_rows_perm_ok codes idx (length scores) (mu s) Hp) as (sel & E1 & Hs1 & Hs2);
    [lia|].
  cbn [mu set_xold]. rewrite E1, bind_lift_Ok.
  rewrite Nat.min_r in Hs1 by lia.
  unfold matmul. cbn [weights set_xold].
  replace (Nat.eqb (ncols (weights s)) (nrows sel)) with false.
  2:{ symmetry. apply Nat.eqb_neq. rewrite (sh_weights_cols Hs), Hs1. lia. }
  reflexivity.
Qed.

Lemma later_generation_needs_mu_codes_witness :
  step_simple [5] (row_of_list [1; 2]) (fun _ _ => 0)
    (run step_simple [demo_short_call] demo_init4)
  = (Raise ValueError,
     set_xold (xmean (run step_simple [demo_short_call] demo_init4))
       (run step_simple [demo_short_call] demo_init4)).
Proof.
  apply (later_generation_needs_mu_codes 2 (Some 4%nat) 3 None (Some 10%Z) true no_params
           demo_init4 [demo_short_call] [5] (row_of_list [1; 2]) (fun _ _ => 0)).
  - reflexivity.
  - rewrite run_istep. cbn [trace demo_short_call fst snd].
    destruct (step_simple_returns [5] (row_of_list [1; 2]) (fun _ _ => 0) demo_init4)
      as (out & s' & E & _).
    + apply (init_shaped 2 (Some 4%nat) 3 None (Some 10%Z) true no_params). reflexivity.
    + reflexivity.
    + reflexivity.
    + intros H. now elim H.
    + rewrite E. cbn. lia.
  - reflexivity.
  - pose proof (run_preserves (same_setup demo_init4) step_simple
                  (step_simple_same_setup demo_init4) [demo_short_call] demo_init4
                  (same_setup_refl demo_init4)) as (_ & _ & Hm & _).
    rewrite Hm.
    change (mu demo_init4) with (Z.to_nat (Zfloor (IZR (Z.of_nat 4) / IZR 2))).
    rewrite (Zfloor_eq 2); [simpl; lia | simpl; lra].
Defined.
End EngineGenerations.

(** ** CholeskyCMAES: the constructed strategy *)

Lemma vsum_sub n (f g : nat -> R) :
  vsum n (fun k => f k - g k) = vsum n f - vsum n g.
Proof. induction n as [|n IH]; simpl; unfold s0; unR; [lra | rewrite IH; lra]. Qed.

Lemma vsum_const n c : vsum n (fun _ => c) = INR n * c.
Proof.
  induction n as [|n IH]; [simpl; unfold s0; unR; lra|].
  rewrite S_INR. simpl vsum. rewrite IH. unR. lra.
Qed.

Lemma vsum_squares_le_square n (f : nat -> R) :
  (forall k, (k < n)%nat -> 0 <= f k) ->
  vsum n (fun k => f k * f k) <= vsum n f * vsum n f.
Proof.
  induction n as [|n IH]; intros Hf; simpl; unfold s0; unR; [lra|].
  assert (H1 : 0 <= vsum n f) by (apply vsum_nonneg; intros; apply Hf; lia).
  assert (H2 : 0 <= f n) by (apply Hf; lia).
  assert (H3 := IH (fun k Hk => Hf k (Nat.lt_lt_succ_r _ _ Hk))).
  nra.
Qed.

Lemma vsum_cauchy n (f : nat -> R) :
  vsum n f * vsum n f <= INR n * vsum n (fun k => f k * f k).
Proof.
  induction n as [|n IH]; [simpl; unfold s0; unR; lra|].
  rewrite S_INR. simpl vsum. unR.
  assert (H : 0 <= vsum n (fun k => f k * f k) - 2 * f n * vsum n f
                   + INR n * (f n * f n)).
  { replace (vsum n (fun k => f k * f k) - 2 * f n * vsum n f + INR n * (f n * f n))
      with (vsum n (fun k => (f k - f n) * (f k - f n))).
    - apply vsum_nonneg. intros k _. apply Rle_0_sqr.
    - rewrite vsum_ext with (g := fun k => f k * f k - (2 * f n * f k - f n * f n))
        by (intros; ring).
      rewrite vsum_sub, vsum_sub, vsum_scal_l, vsum_const. ring. }
  generalize dependent (vsum n f). generalize (vsum n (fun k => f k * f k)).
  generalize (f n). generalize (INR n). intros. nra.
Qed.

Lemma lsum_map_sqr (w : list R) :
  lsum (map sqr w) = vsum (length w) (fun k => nth k w 0 * nth k w 0).
Proof.
  unfold lsum. rewrite length_map. apply vsum_ext. intros k Hk.
  unfold s0. unR.
  rewrite nth_indep with (d' := sqr 0) by (now rewrite length_map).
  rewrite (map_nth sqr w 0 k). reflexivity.
Qed.

Section DefaultParameters.
Import CholeskyCMAES.

Lemma half_population (lambda_ : nat) :
  (2 <= lambda_)%nat ->
  (1 <= Z.to_nat (Zfloor (INR lambda_ / 2)) <= lambda_)%nat
  /\ INR (Z.to_nat (Zfloor (INR lambda_ / 2))) <= INR lambda_ / 2.
Proof.
  intros Hl. assert (2 <= INR lambda_) by (apply (le_INR 2); exact Hl).
  destruct (floor_of_cutoff lambda_ (INR lambda_ / 2)) as [[H1 H2] H3]; [lra|].
  auto.
Qed.

(** The variance-effective selection mass of normalized positive weights
    lies between 1 and their number. *)
Lemma mueff_bounds (w : list R) :
  (forall k, (k < length w)%nat -> 0 < nth k w 0) ->
  (1 <= length w)%nat -> lsum w = 1 ->
  1 <= sqr (lsum w) / lsum (map sqr w) <= INR (length w).
Proof.
  intros Hpos Hn Hsum. rewrite lsum_map_sqr. rewrite Hsum. unfold sqr.
  assert (HQ : 0 < vsum (length w) (fun k => nth k w 0 * nth k w 0)).
  { apply vsum_pos; [lia|]. intros k Hk. specialize (Hpos k Hk).
    apply Rmult_lt_0_compat; exact Hpos. }
  pose proof (vsum_squares_le_square (length w) (fun k => nth k w 0)
                (fun k Hk => Rlt_le _ _ (Hpos k Hk))) as H1.
  pose proof (vsum_cauchy (length w) (fun k => nth k w 0)) as H2.
  unfold lsum in Hsum. unfold s0 in Hsum. unR. rewrite Hsum in H1, H2.
  generalize dependent (vsum (length w) (fun k => nth k w 0 * nth k w 0)).
  intros Q HQ H1 H2.
  replace (1 * 1 / Q) with (/ Q) by (field; lra).
  split.
  - rewrite <- Rinv_1 at 1. apply Rinv_le_contravar; lra.
  - apply Rmult_le_reg_r with Q; [lra|]. rewrite Rinv_l by lra. lra.
Qed.

Lemma default_lambda_ge_4 (N : nat) : (1 <= N)%nat -> (4 <= default_lambda (T:=R) N)%nat.
Proof.
  intros HN. unfold default_lambda, log2, sofnat. unR.
  assert (H1 : 1 <= IZR (Z.of_nat N)) by (apply (IZR_le 1); lia).
  assert (H2 : 0 <= ln (IZR (Z.of_nat N))).
  { rewrite <- ln_1. destruct (Req_dec 1 (IZR (Z.of_nat N))) as [<-|Hne]; [lra|].
    apply Rlt_le, ln_increasing; lra. }
  assert (H3 : 0 < ln 2) by (rewrite <- ln_1; apply ln_increasing; lra).
  assert (H4 : 0 <= 3 * (ln (IZR (Z.of_nat N)) / ln 2)).
  { apply Rmult_le_pos; [lra|]. apply Rmult_le_pos; [exact H2|].
    apply Rlt_le, Rinv_0_lt_compat, H3. }
  destruct (Zfloor_bound (3 * (ln (IZR (Z.of_nat N)) / ln 2))) as [Hlo Hhi].
  assert (0 <= Zfloor (3 * (ln (IZR (Z.of_nat N)) / ln 2)))%Z.
  { assert (-1 < Zfloor (3 * (ln (IZR (Z.of_nat N)) / ln 2)))%Z; [|lia].
    apply lt_IZR. lra. }
  lia.
Qed.

(** X6.  With no override of the adaptation constants, in a dimension of at
    least 1 and with a population of at least 2 (the default population is
    at least 4), the constructor builds a valid strategy: a selection size
    between 1 and half the population, positive weights that sum to 1, a
    selection mass between 1 and the selection size, learning rates strictly
    between 0 and 1, a damping above 1 and a positive expected norm. *)
Theorem constructed_strategy_is_valid
  (N : nat) (population_size : option nat) (init_sigma : R)
  (init_code : option (list R)) (Aupdate_freq : option Z) (maximize : bool)
  (st : CholeskyCMAES.t) :
  init N population_size init_sigma init_code Aupdate_freq maximize no_params = Ok st ->
  (1 <= N)%nat ->
  (forall p, population_size = Some p -> (2 <= p)%nat) ->
  (population_size = None -> (4 <= lambda_ st)%nat)
  /\ (1 <= mu st)%nat /\ (2 * mu st <= lambda_ st)%nat
  /\ ncols (weights st) = mu st
  /\ (forall k, (k < mu st)%nat -> 0 < mget (weights st) 0 k)
  /\ vsum (mu st) (fun k => mget (weights st) 0 k) = 1
  /\ 1 <= mueff st <= INR (mu st)
  /\ 0 < cc st < 1 /\ 0 < cs st < 1 /\ 0 < c1 st < 1
  /\ 1 < damps st /\ 0 < chiN st.
Proof.
  intros Hinit HN Hpop.
  unfold init in Hinit. destruct (reshape_init N init_code); cbn [rbind] in Hinit;
    [|discriminate].
  injection Hinit as <-. cbn [lambda_ mu weights mueff cc cs c1 damps chiN op_cc op_cs op_c1
                              no_params override].
  set (lam := match population_size with Some p => p | None => default_lambda (T:=R) N end).
  assert (Hlam : (2 <= lam)%nat).
  { unfold lam. destruct population_size as [p|]; [now apply Hpop|].
    pose proof (default_lambda_ge_4 N HN). lia. }
  rewrite <- !INR_IZR_INZ.
  destruct (half_population lam Hlam) as [[Hm1 Hm2] Hm3].
  assert (Hlen : length (normalize (log_weights (INR lam / 2)))
                 = Z.to_nat (Zfloor (INR lam / 2))).
  { rewrite normalize_length. apply log_weights_length. }
  assert (Hpos : forall k, (k < Z.to_nat (Zfloor (INR lam / 2)))%nat ->
                   0 < nth k (normalize (log_weights (INR lam / 2))) 0).
  { intros k Hk. apply init_weights_pos. exact Hk. }
  assert (Hsum : lsum (normalize (log_weights (INR lam / 2))) = 1).
  { apply lsum_normalize.
    assert (0 < lsum (log_weights (INR lam / 2))); [|lra].
    unfold lsum. rewrite log_weights_length. apply vsum_pos; [exact Hm1|].
    intros k Hk. rewrite nth_log_weights by exact Hk.
    apply (log_weight_pos (INR lam / 2) (Z.to_nat (Zfloor (INR lam / 2))));
      [exact Hm3 | exact Hk]. }
  assert (Hmueff : 1 <= lsum (normalize (log_weights (INR lam / 2)))
                        * lsum (normalize (log_weights (INR lam / 2)))
                        / lsum (map sqr (normalize (log_weights (INR lam / 2))))
                   <= INR (Z.to_nat (Zfloor (INR lam / 2)))).
  { rewrite <- Hlen.
    apply (mueff_bounds (normalize (log_weights (INR lam / 2)))); rewrite ?Hlen; auto. }
  assert (HNr : 1 <= INR N) by (apply (le_INR 1); exact HN).
  assert (HsN : 1 <= R_sqrt.sqrt (INR N)).
  { rewrite <- sqrt_1. apply sqrt_le_1_alt. exact HNr. }
  split.
  { intros ->. apply default_lambda_ge_4. exact HN. }
  split; [exact Hm1|].
  split.
  { assert (INR (2 * Z.to_nat (Zfloor (INR lam / 2))) <= INR lam); [|now apply INR_le].
    rewrite mult_INR. simpl INR. lra. }
  split; [exact Hlen|].
  split; [exact Hpos|].
  split.
  { unfold lsum in Hsum. rewrite Hlen in Hsum. exact Hsum. }
  split; [exact Hmueff|].
  generalize dependent (lsum (normalize (log_weights (INR lam / 2)))
                        * lsum (normalize (log_weights (INR lam / 2)))
                        / lsum (map sqr (normalize (log_weights (INR lam / 2))))).
  intros me Hmueff.
  assert (Hsm : 1 <= R_sqrt.sqrt me).
  { rewrite <- sqrt_1. apply sqrt_le_1_alt. apply Hmueff. }
  split.
  { split.
    - apply Rdiv_lt_0_compat; lra.
    - apply Rmult_lt_reg_r with (INR N + 4); [lra|].
      unfold Rdiv. rewrite Rmult_assoc, Rinv_l by lra. lra. }
  split.
  { split.
    - apply Rdiv_lt_0_compat; lra.
    - apply Rmult_lt_reg_r with (R_sqrt.sqrt me + R_sqrt.sqrt (INR N)); [lra|].
      unfold Rdiv. rewrite Rmult_assoc, Rinv_l by lra. lra. }
  assert (Hs2 : 1 <= R_sqrt.sqrt 2).
  { rewrite <- sqrt_1. apply sqrt_le_1_alt. lra. }
  split.
  { assert (Hsq : 4 <= (INR N + R_sqrt.sqrt 2) * (INR N + R_sqrt.sqrt 2)).
    { clear - HNr Hs2. generalize dependent (R_sqrt.sqrt 2).
      generalize dependent (INR N). intros. nra. }
    split.
    - apply Rdiv_lt_0_compat; lra.
    - apply Rmult_lt_reg_r with ((INR N + R_sqrt.sqrt 2) * (INR N + R_sqrt.sqrt 2)); [lra|].
      unfold Rdiv. rewrite Rmult_assoc, Rinv_l by lra. lra. }
  split.
  { assert (Hcs : 0 < R_sqrt.sqrt me / (R_sqrt.sqrt me + R_sqrt.sqrt (INR N)))
      by (apply Rdiv_lt_0_compat; lra).
    assert (Hmax : 0 <= smax 0 (R_sqrt.sqrt ((me - 1) / (INR N + 1)) - 1)).
    { unfold smax. unR. unfold Rltb. destruct (Rlt_dec _ _); lra. }
    lra. }
  apply Rmult_lt_0_compat; [lra|].
  assert (H4 : 1 / (4 * INR N) <= 1 / 4).
  { unfold Rdiv. rewrite !Rmult_1_l. apply Rinv_le_contravar; lra. }
  assert (H21 : 0 < 1 / (21 * (INR N * INR N))).
  { apply Rdiv_lt_0_compat; [lra|]. apply Rmult_lt_0_compat; [lra|].
    apply Rmult_lt_0_compat; lra. }
  lra.
Qed.

Lemma constructed_strategy_is_valid_witness :
  (1 <= mu demo_init4)%nat /\ 0 < c1 demo_init4 < 1 /\ 1 <= mueff demo_init4.
Proof.
  destruct (constructed_strategy_is_valid 2 (Some 4%nat) 3 None (Some 10%Z) true demo_init4
              eq_refl) as (_ & H1 & _ & _ & _ & _ & [H2 _] & _ & _ & H3 & _).
  - lia.
  - intros p E. injection E as <-. lia.
  - auto.
Defined.
End DefaultParameters.

(** ** CholeskyCMAES: the factor pair over a run *)

Section FactorPair.
Import CholeskyCMAES.






End FactorPair.

(** ** CholeskyCMAES: when the refresh runs *)

Section RefreshSchedule.
Import CholeskyCMAES.

Lemma update_paths_counters idx (codes : matrix R) (u : R) (e c : Z) (l : nat) a ai :
  preserves (fun s => update_crit s = u /\ eigeneval s = e /\ counteval s = c
                      /\ lambda_ s = l /\ A s = a /\ Ainv s = ai)
    (update_paths idx codes).
Proof.
  unfold update_paths, get_randz.
  apply preserves_bind_get; intros s Hs.
  repeat preserve_step; try assumption.
  destruct (randz _); repeat preserve_step.
Qed.

Lemma init_mean_counters idx (codes : matrix R) (u : R) (e c : Z) (l : nat) a ai :
  preserves (fun s => update_crit s = u /\ eigeneval s = e /\ counteval s = c
                      /\ lambda_ s = l /\ A s = a /\ Ainv s = ai)
    (init_mean idx codes).
Proof.
  unfold init_mean. apply preserves_bind_get; intros s Hs.
  destruct (init_x s); repeat preserve_step; assumption.
Qed.

Lemma step_without_refresh (scores : list R) (codes : matrix R) z s :
  (istep s <> 0%nat -> refresh_due s = false) ->
  let s' := snd (step_simple scores codes z s) in
  update_crit s' = update_crit s /\ eigeneval s' = eigeneval s
  /\ lambda_ s' = lambda_ s /\ A s' = A s /\ Ainv s' = Ainv s
  /\ (counteval s <= counteval s' <= counteval s + Z.of_nat (lambda_ s))%Z.
Proof.
  intros Hdue s'. subst s'. unfold step_simple. rewrite bind_get.
  set (idx := sort_index (maximize s) scores).
  assert (H1 : forall s1,
             snd ((if Nat.eqb (istep s) 0 then init_mean idx codes
                   else bind (update_paths idx codes)
                          (fun _ => bind get (fun self =>
                             if refresh_due self then refresh else ret tt))) s) = s1 ->
             update_crit s1 = update_crit s /\ eigeneval s1 = eigeneval s
             /\ counteval s1 = counteval s /\ lambda_ s1 = lambda_ s
             /\ A s1 = A s /\ Ainv s1 = Ainv s).
  { intros s1 <-. destruct (Nat.eqb (istep s) 0) eqn:Ei.
    - apply (init_mean_counters idx codes); repeat split.
    - apply Nat.eqb_neq in Ei. specialize (Hdue Ei).
      pose proof (update_paths_counters idx codes (update_crit s) (eigeneval s)
                    (counteval s) (lambda_ s) (A s) (Ainv s) s) as Hp.
      destruct (bind_cases (update_paths idx codes)
                  (fun _ => bind get (fun self => if refresh_due self then refresh else ret tt)) s)
        as [([] & s1 & E1 & ->) | (e & s1 & E1 & ->)];
        rewrite E1 in Hp; cbn [snd] in Hp;
        (assert (Hq := Hp (conj eq_refl (conj eq_refl (conj eq_refl
                          (conj eq_refl (conj eq_refl eq_refl)))))));
        [|exact Hq].
      rewrite bind_get.
      assert (Hd1 : refresh_due s1 = false).
      { unfold refresh_due in *. destruct Hq as (-> & -> & -> & _). exact Hdue. }
      rewrite Hd1. exact Hq. }
  match goal with |- context [bind ?m _ s] => set (m1 := m) in * end.
  destruct (bind_cases m1 (fun _ => sample z) s) as [(a & s1 & E1 & ->) | (e & s1 & E1 & ->)];
    specialize (H1 s1); rewrite E1 in H1; specialize (H1 eq_refl);
    destruct H1 as (K1 & K2 & K3 & K4 & K5 & K6).
  - unfold sample, bind, get, modify, lift, ret.
    destruct (matmul (T:=R) _ _); [destruct (madd (T:=R) _ _)|]; cbn;
      rewrite ?K1, ?K2, ?K3, ?K4, ?K5, ?K6; repeat split; try reflexivity; lia.
  - cbn [snd]. rewrite K1, K2, K3, K4, K5, K6. repeat split; try reflexivity; lia.
Qed.

Lemma quiet_run (calls : list (call R)) : forall s,
  IZR (counteval s - eigeneval s + Z.of_nat (length calls * lambda_ s))
    <= update_crit s + INR (lambda_ s) ->
  normalizer_regular calls s
  /\ eigeneval (run step_simple calls s) = eigeneval s
  /\ A (run step_simple calls s) = A s /\ Ainv (run step_simple calls s) = Ainv s.
Proof.
  induction calls as [|[[scores codes] z] calls IH]; intros s Hle;
    [split; [exact I | repeat split]|].
  cbn [length] in Hle.
  assert (Hdue : refresh_due s = false).
  { apply refresh_due_false. rewrite INR_IZR_INZ in Hle.
    rewrite plus_IZR in Hle. rewrite Nat2Z.inj_mul, Nat2Z.inj_succ in Hle.
    assert (0 <= IZR (Z.of_nat (length calls) * Z.of_nat (lambda_ s)))
      by (apply IZR_le; lia).
    replace (Z.succ (Z.of_nat (length calls)) * Z.of_nat (lambda_ s))%Z
      with (Z.of_nat (length calls) * Z.of_nat (lambda_ s)
            + Z.of_nat (lambda_ s))%Z in Hle by lia.
    rewrite plus_IZR in Hle. lra. }
  destruct (step_without_refresh scores codes z s (fun _ => Hdue))
    as (H1 & H2 & H3 & H4 & H5 & H6).
  change (run step_simple (((scores, codes), z) :: calls) s)
    with (run step_simple calls (snd (step_simple scores codes z s))).
  destruct (IH (snd (step_simple scores codes z s))) as (I1 & I2 & I3 & I4).
  { rewrite H1, H2, H3. eapply Rle_trans; [|exact Hle]. apply IZR_le. lia. }
  split; [|rewrite I2, I3, I4; auto].
  split; [|exact I1]. cbn [fst snd].
  intros s1 Hi Hup Hd1. exfalso.
  pose proof (update_paths_counters (sort_index (maximize s) scores) codes (update_crit s)
                (eigeneval s) (counteval s) (lambda_ s) (A s) (Ainv s) s) as Hp.
  rewrite Hup in Hp. cbn [snd] in Hp.
  destruct Hp as (K1 & K2 & K3 & _); [repeat split|].
  unfold refresh_due in *. rewrite K1, K2, K3, Hdue in Hd1. discriminate.
Qed.

(** X8.  [Aupdate_freq] generations of grace: on an engine constructed with
    [Aupdate_freq = f >= 0], the refresh runs in none of the first [f + 1]
    calls, whatever they are given; the factor pair is still the identity
    and [eigeneval] is still 0 after them. *)
Theorem no_refresh_before_update_freq
  (N : nat) (population_size : option nat) (init_sigma : R)
  (init_code : option (list R)) (f : Z) (maximize : bool)
  (params : optim_params) (st : CholeskyCMAES.t) (calls : list (call R)) :
  init N population_size init_sigma init_code (Some f) maximize params = Ok st ->
  (Z.of_nat (length calls) <= f + 1)%Z ->
  eigeneval (run step_simple calls st) = 0%Z
  /\ A (run step_simple calls st) = eye N N
  /\ Ainv (run step_simple calls st) = eye N N.
Proof.
  intros Hinit Hlen.
  unfold init in Hinit. destruct (reshape_init N init_code); cbn [rbind] in Hinit;
    [|discriminate].
  injection Hinit as <-.
  match goal with |- context [run step_simple calls ?s] => set (s0 := s) end.
  destruct (quiet_run calls s0) as (_ & H1 & H2 & H3); [|auto].
  unfold s0. cbn [counteval eigeneval update_crit lambda_]. unR.
  rewrite INR_IZR_INZ, <- plus_IZR. apply IZR_le.
  rewrite Nat2Z.inj_mul. nia.
Qed.

Lemma no_refresh_before_update_freq_witness :
  eigeneval (run step_simple [demo_call; demo_call; demo_call] demo_init) = 0%Z
  /\ A (run step_simple [demo_call; demo_call; demo_call] demo_init) = eye 1 1.
Proof.
  destruct (no_refresh_before_update_freq 1 (Some 2%nat) 3 None 10 true no_params demo_init
              [demo_call; demo_call; demo_call] eq_refl) as (H1 & H2 & _).
  - cbn. lia.
  - split; assumption.
Defined.

End RefreshSchedule.

(** ** The sort index *)

Lemma insert_idx_sorted (key : nat -> R) i l :
  StronglySorted (fun a b => key a <= key b) l ->
  StronglySorted (fun a b => key a <= key b) (insert_idx Rltb key i l).
Proof.
  induction l as [|j l IH]; intros Hl; cbn [insert_idx].
  - constructor; constructor.
  - inversion Hl as [|? ? Hl' Hj]; subst.
    unfold Rltb at 1. destruct (Rlt_dec (key j) (key i)) as [Hlt|Hge].
    + constructor; [apply IH; exact Hl'|].
      eapply Permutation_Forall.
      * symmetry. apply insert_idx_perm.
      * constructor; [lra | exact Hj].
    + constructor; [exact Hl|].
      constructor; [lra|].
      eapply Forall_impl; [|exact Hj]. cbv beta. intros a Ha. lra.
Qed.

Lemma argsort_sorted (l : list R) :
  StronglySorted (fun a b => nth a l 0 <= nth b l 0) (argsort l).
Proof.
  unfold argsort, argsort_by. unfold s0. unR.
  induction (seq 0 (length l)) as [|i rest IH]; cbn [fold_right]; [constructor|].
  apply (insert_idx_sorted (fun k => nth k l 0)). exact IH.
Qed.

Lemma nth_map_opp (l : list R) k : nth k (map Ropp l) 0 = - nth k l 0.
Proof.
  rewrite <- Ropp_0 at 1. exact (map_nth Ropp l 0 k).
Qed.

Section SortIndex.
Import CholeskyCMAES.

(** X9.  The sort index lists every position of the score array exactly once,
    from the best score to the worst: scores do not increase along it when
    maximizing and do not decrease when minimizing. *)
Theorem sort_index_best_first (maximize : bool) (scores : list R) :
  let idx := sort_index maximize scores in
  Permutation idx (seq 0 (length scores))
  /\ StronglySorted
       (fun a b => if maximize then nth b scores 0 <= nth a scores 0
                   else nth a scores 0 <= nth b scores 0) idx
  /\ forall k, (k < length scores)%nat ->
       if maximize then nth k scores 0 <= nth (nth 0 idx 0%nat) scores 0
       else nth (nth 0 idx 0%nat) scores 0 <= nth k scores 0.
Proof.
  intros idx.
  assert (Hp : Permutation idx (seq 0 (length scores))) by apply sort_index_perm.
  assert (Hs : StronglySorted
                 (fun a b => if maximize then nth b scores 0 <= nth a scores 0
                             else nth a scores 0 <= nth b scores 0) idx).
  { unfold idx, sort_index. destruct maximize.
    - pose proof (argsort_sorted (map sopp scores)) as H. unR.
      eapply StronglySorted_ind
        with (P := fun l => StronglySorted
                     (fun a b => nth b scores 0 <= nth a scores 0) l);
        [constructor | | exact H].
      intros a l _ IH Ha. constructor; [exact IH|].
      eapply Forall_impl; [|exact Ha]. cbv beta. intros b Hb.
      rewrite !nth_map_opp in Hb. lra.
    - apply argsort_sorted. }
  split; [exact Hp|]. split; [exact Hs|].
  intros k Hk.
  assert (Hin : In k idx).
  { apply (Permutation_in k (Permutation_sym Hp)). apply in_seq. lia. }
  destruct idx as [|i0 rest]; [contradiction|]. cbn [nth].
  inversion Hs as [|? ? _ H0]; subst.
  destruct Hin as [<-|Hin].
  - destruct maximize; lra.
  - rewrite Forall_forall in H0. exact (H0 k Hin).
Qed.
End SortIndex.

(** ** The factor-free engine and the cutoff of the rank weights *)

Section FactorFree.
Import CholeskyCMAES_torch_noCMA.



End FactorFree.

Section RankWeightErrors.
Import RankWeighting.

(** X11.  A cutoff beyond the population is an error: when [floor(mu)] exceeds
    [lambda_] (and is not 1), the weights of [floor(mu)] ranks do not fit the
    [lambda_] slots and [rankweight] raises ValueError. *)
Theorem rankweight_rejects_large_cutoff (lambda_ : nat) (mu : R) :
  (lambda_ < Z.to_nat (Zfloor mu))%nat ->
  Z.to_nat (Zfloor mu) <> 1%nat ->
  rankweight lambda_ (Some mu) = Raise ValueError.
Proof.
  intros Hl H1. unfold rankweight. cbv zeta. unR.
  rewrite log_weights_length.
  replace (Zfloor mu <? 0)%Z with false by (symmetry; apply Z.ltb_ge; lia).
  rewrite Nat.min_r by lia.
  replace (Nat.eqb (Z.to_nat (Zfloor mu)) lambda_) with false
    by (symmetry; apply Nat.eqb_neq; lia).
  replace (Nat.eqb (Z.to_nat (Zfloor mu)) 1) with false
    by (symmetry; apply Nat.eqb_neq; exact H1).
  reflexivity.
Qed.

Lemma rankweight_rejects_large_cutoff_witness :
  rankweight 3 (Some 20) = Raise ValueError.
Proof.
  apply rankweight_rejects_large_cutoff.
  - rewrite (Zfloor_eq 20); [simpl; lia | simpl; lra].
  - rewrite (Zfloor_eq 20); [simpl; lia | simpl; lra].
Defined.
End RankWeightErrors.

(** ** The spherical engine: tangent directions *)

Lemma sqr_norm_row (x : matrix R) :
  nrows x = 1%nat ->
  sqr (norm x) = vsum (ncols x) (fun j => mget x 0 j * mget x 0 j).
Proof.
  intros Hr. unfold sqr, norm. rewrite Hr. rewrite vsum_1. unR.
  apply sqrt_sqrt. apply vsum_nonneg. intros k _. apply Rle_0_sqr.
Qed.

Section Tangents.
Import ZOHA_Sphere_lr_euclid.
Variable ExpMap : matrix R -> matrix R -> matrix R.

Lemma after_projection_keeps (V : matrix R) (self : ZOHA_Sphere_lr_euclid.t) :
  preserves (fun s => outerV s = V /\ xnew s = xnew self)
    (bind (lift (schedule_entry self)) (fun mu =>
     bind (lift (assign_block 1 (dimen self) (xnew self))) (fun row0 =>
     bind (modify (set_tang_codes (scale mu V))) (fun _ =>
     bind (lift (assign_block (B self) (dimen self) (ExpMap (xnew self) (scale mu V))))
       (fun rest =>
     bind (modify (fun s => set_istep (istep s + 1)%Z s)) (fun _ =>
     ret (mk_matrix (S (B self)) (dimen self)
            (fun i j => match i with
                        | O => mget row0 0 j
                        | S i' => mget rest i' j
                        end)))))))).
Proof. repeat preserve_step; assumption. Qed.

(** X12.  The exploration directions are tangent to the sphere at the base point:
    whenever the base point [xnew] is one non-zero row of the engine's
    dimension, every row of [outerV] that the sampling part of [step_simple]
    leaves behind is orthogonal to it, whether the call then returns or
    raises. *)
Theorem tangents_orthogonal_to_base (z : nat -> nat -> R) (s : ZOHA_Sphere_lr_euclid.t) :
  nrows (xnew s) = 1%nat -> ncols (xnew s) = dimen s -> norm (xnew s) <> 0 ->
  let s' := snd (propose ExpMap z s) in
  xnew s' = xnew s
  /\ nrows (outerV s') = B s /\ ncols (outerV s') = dimen s
  /\ forall i, (i < B s)%nat ->
       vsum (dimen s) (fun j => mget (outerV s') i j * mget (xnew s) 0 j) = 0.
Proof.
  intros Hr Hc Hn s'. subst s'. unfold propose.
  rewrite bind_get, !bind_modify.
  cbn [xnew set_outerV set_innerU set_tang_codes dimen B sphere_norm].
  rewrite matmul_ok by (cbn; congruence). rewrite bind_lift_Ok.
  rewrite matmul_ok by (cbn; congruence). rewrite bind_lift_Ok.
  unfold msub. rewrite broadcast2_same by (cbn; congruence).
  rewrite bind_lift_Ok, bind_modify.
  match goal with
  | |- context [set_outerV ?V ?s0] =>
      pose proof (after_projection_keeps V s (set_outerV V s0)
                    (conj eq_refl eq_refl)) as Hk
  end.
  cbn [xnew set_outerV set_innerU set_tang_codes dimen B] in Hk |- *.
  destruct Hk as [Hk1 Hk2].
  match goal with
  | H : outerV (snd ?t) = _ |- context [outerV (snd ?t')] => change t' with t
  end.
  rewrite Hk1, Hk2. split; [reflexivity|]. cbn [nrows ncols mget mdivs].
  split; [reflexivity|]. split; [reflexivity|].
  intros i Hi. clear Hk1 Hk2.
  cbn [ncols nrows mget transpose]. rewrite Hr.
  rewrite sqr_norm_row by exact Hr. rewrite !Hc.
  assert (Hnz : vsum (dimen s) (fun j => mget (xnew s) 0 j * mget (xnew s) 0 j) <> 0).
  { intros H0. apply Hn. unfold norm. rewrite Hr, vsum_1, Hc. unR. rewrite H0.
    apply sqrt_0. }
  rewrite vsum_ext with
    (g := fun j => z i j * mget (xnew s) 0 j
                   - vsum (dimen s) (fun k => z i k * mget (xnew s) 0 k)
                     / vsum (dimen s) (fun j => mget (xnew s) 0 j * mget (xnew s) 0 j)
                     * (mget (xnew s) 0 j * mget (xnew s) 0 j)).
  2:{ intros j Hj. unR. rewrite !bidx_lt by assumption.
      rewrite vsum_1. field. exact Hnz. }
  rewrite vsum_sub, vsum_scal_l. field. exact Hnz.
Qed.
End Tangents.

Section TangentsWitness.
Import ZOHA_Sphere_lr_euclid.

Lemma tangents_orthogonal_to_base_witness :
  vsum 2 (fun j =>
            mget (outerV (snd (propose flat_ExpMap (fun _ _ => 1) demo_sphere_based))) 0 j
            * mget (xnew demo_sphere_based) 0 j) = 0.
Proof.
  destruct (tangents_orthogonal_to_base flat_ExpMap (fun _ _ => 1) demo_sphere_based)
    as (_ & _ & _ & H).
  - reflexivity.
  - reflexivity.
  - unfold norm. cbn. unfold s0. unR.
    assert (0 < R_sqrt.sqrt (0 + (0 + 3 * 3 + 4 * 4))); [apply sqrt_lt_R0; lra | lra].
  - apply (H 0%nat). cbn. lia.
Defined.
End TangentsWitness.

(** ** The spherical engine: rank weights *)

Lemma vsum_shift n (f : nat -> R) :
  vsum (S n) f = f 0%nat + vsum n (fun i => f (S i)).
Proof.
  induction n as [|n IH]; [simpl; unfold s0; unR; lra|].
  change (vsum (S (S n)) f) with (sadd (vsum (S n) f) (f (S n))).
  rewrite IH. simpl. unR. lra.
Qed.

Lemma lsum_cons (x : R) l : lsum (x :: l) = x + lsum l.
Proof. unfold lsum. cbn [length]. rewrite vsum_shift. reflexivity. Qed.

Lemma lsum_perm (l l' : list R) : Permutation l l' -> lsum l = lsum l'.
Proof.
  induction 1 as [|x l l' _ IH|x y l|l l' l'' _ IH1 _ IH2].
  - reflexivity.
  - rewrite !lsum_cons, IH. reflexivity.
  - rewrite !lsum_cons. lra.
  - congruence.
Qed.

Lemma map_nth_seq (w : list R) : map (fun k => nth k w 0) (seq 0 (length w)) = w.
Proof.
  apply nth_ext with (d := 0) (d' := 0).
  - now rewrite length_map, length_seq.
  - intros i Hi. rewrite length_map, length_seq in Hi.
    rewrite nth_indep with (d' := nth 0%nat w 0) by (now rewrite length_map, length_seq).
    rewrite (map_nth (fun k => nth k w 0) (seq 0 (length w)) 0%nat i).
    rewrite seq_nth by exact Hi. reflexivity.
Qed.

Lemma Forall_nth_nonneg (w : list R) :
  (forall i, 0 <= nth i w 0) <-> Forall (fun x => 0 <= x) w.
Proof.
  split.
  - intros H. apply Forall_forall. intros x Hx.
    destruct (In_nth w x 0 Hx) as (i & _ & <-). apply H.
  - intros H i. destruct (Nat.lt_ge_cases i (length w)) as [Hi|Hi].
    + rewrite Forall_forall in H. apply H, nth_In, Hi.
    + rewrite nth_overflow by exact Hi. lra.
Qed.

Section RankWeights.
Import ZOHA_Sphere_lr_euclid.

Lemma ranks_perm (l : list R) : Permutation (ranks l) (seq 0 (length l)).
Proof.
  unfold ranks, argsort_nat, argsort.
  pose proof (argsort_by_perm sltb s0 l) as H1.
  pose proof (argsort_by_perm Nat.ltb 0%nat (argsort_by sltb s0 l)) as H2.
  apply Permutation_length in H1. rewrite length_seq in H1. now rewrite H1 in H2.
Qed.

Lemma gather_perm (raw : list R) (code_rank : list nat) :
  Permutation code_rank (seq 0 (length raw)) ->
  exists w, gather raw code_rank = Ok w /\ Permutation w raw.
Proof.
  intros Hp. unfold gather.
  destruct (perm_seq_bound code_rank (length raw) Hp) as [_ Hb]. rewrite Hb.
  eexists. split; [reflexivity|]. unfold s0. unR.
  eapply Permutation_trans; [apply Permutation_map; exact Hp|].
  rewrite map_nth_seq. apply Permutation_refl.
Qed.

Lemma rankweight_total (lambda_ : nat) (mu : option R) :
  (2 <= lambda_)%nat ->
  (forall m, mu = Some m -> 1 <= m <= INR lambda_) ->
  exists w, RankWeighting.rankweight lambda_ mu = Ok w
            /\ length w = lambda_ /\ lsum w = 1 /\ forall i, 0 <= nth i w 0.
Proof.
  intros Hl Hmu.
  set (c := cutoff_of lambda_ mu). set (k := Z.to_nat (Zfloor c)).
  assert (Hc : 1 <= c <= INR lambda_).
  { unfold c, cutoff_of. destruct mu as [m|]; [apply Hmu; reflexivity|].
    assert (2 <= INR lambda_) by (apply (le_INR 2); exact Hl). lra. }
  destruct (floor_of_cutoff lambda_ c Hc) as [[Hk1 Hk2] Hk3]. fold k in Hk1, Hk2, Hk3.
  assert (Hcode : match mu with
                  | None => sdiv (sofnat lambda_) (sofZ 2)
                  | Some m => m
                  end = c).
  { unfold c, cutoff_of. destruct mu; [reflexivity|].
    unfold sofnat. unR. now rewrite INR_IZR_INZ. }
  assert (Hlen : length (log_weights c) = k) by apply log_weights_length.
  assert (Hrhs : forall i, (i < k)%nat -> 0 < nth i (log_weights c) 0).
  { intros i Hi. rewrite nth_log_weights by exact Hi. now apply (log_weight_pos c k). }
  assert (Htot : 0 < lsum (log_weights c)).
  { unfold lsum. rewrite Hlen. apply vsum_pos; [lia|exact Hrhs]. }
  assert (Hraw : lsum (log_weights c ++ repeat 0 (lambda_ - k)) = lsum (log_weights c))
    by apply lsum_app_zeros.
  assert (Hrawlen : length (log_weights c ++ repeat 0 (lambda_ - k)) = lambda_).
  { rewrite length_app, repeat_length. lia. }
  exists (normalize (log_weights c ++ repeat 0 (lambda_ - k))).
  split.
  { unfold RankWeighting.rankweight. rewrite Hcode. cbv zeta. unR. fold k.
    replace (Zfloor c <? 0)%Z with false
      by (symmetry; apply Z.ltb_ge; unfold k in Hk1; lia).
    rewrite Nat.min_l by exact Hk2.
    rewrite Hlen, Nat.eqb_refl. cbn [orb].
    rewrite <- Hlen at 1. rewrite firstn_all. reflexivity. }
  split; [now rewrite normalize_length|].
  split; [apply lsum_normalize; rewrite Hraw; lra|].
  intros i. destruct (Nat.lt_ge_cases i lambda_) as [Hi|Hi].
  - rewrite nth_normalize by lia. rewrite Hraw.
    destruct (Nat.lt_ge_cases i k) as [Hik|Hik].
    + rewrite app_nth1 by lia. apply Rlt_le, Rdiv_lt_0_compat; [now apply Hrhs | exact Htot].
    + rewrite app_nth2 by lia. rewrite nth_repeat. unfold Rdiv. lra.
  - rewrite nth_overflow by (rewrite normalize_length; lia). lra.
Qed.

(** X13.  In rank-weight mode the recombination weights are the rank weights
    handed out by fitness rank: with at least two scores, the weights of the
    first generation are a rearrangement of [rankweight(n)], so they are
    non-negative and sum to 1. *)
Theorem first_rank_weights_rearrange (st : ZOHA_Sphere_lr_euclid.t) (scores : list R) :
  rankweight st = true ->
  (2 <= length scores)%nat ->
  exists w raw,
    RankWeighting.rankweight (length scores) None = Ok raw
    /\ first_weights st scores = Ok w
    /\ Permutation w raw
    /\ length w = length scores
    /\ lsum w = 1
    /\ forall i, 0 <= nth i w 0.
Proof.
  intros Hrw Hn.
  destruct (rankweight_total (length scores) None Hn) as (raw & Eraw & Hlen & Hsum & Hnn);
    [discriminate|].
  unfold first_weights. rewrite Hrw. cbn [negb].
  set (code_rank := if negb (maximize st) then ranks scores else ranks (map sopp scores)).
  assert (Hp : Permutation code_rank (seq 0 (length scores))).
  { unfold code_rank. destruct (negb (maximize st)); [apply ranks_perm|].
    rewrite <- (length_map sopp scores). apply ranks_perm. }
  assert (Hcl : length code_rank = length scores).
  { apply Permutation_length in Hp. now rewrite length_seq in Hp. }
  rewrite Hcl, Eraw. cbn [rbind].
  destruct (gather_perm raw code_rank) as (w & Ew & Hpw); [now rewrite Hlen|].
  exists w, raw. split; [reflexivity|]. split; [exact Ew|]. split; [exact Hpw|].
  split; [apply Permutation_length in Hpw; congruence|].
  split; [rewrite (lsum_perm w raw Hpw); exact Hsum|].
  apply Forall_nth_nonneg. eapply Permutation_Forall; [symmetry; exact Hpw|].
  apply Forall_nth_nonneg. exact Hnn.
Qed.

Lemma first_rank_weights_rearrange_witness :
  exists w, first_weights (init 1 3 1 1 true true false 3) [1; 3; 2] = Ok w
            /\ lsum w = 1.
Proof.
  destruct (first_rank_weights_rearrange (init 1 3 1 1 true true false 3) [1; 3; 2])
    as (w & raw & _ & H2 & _ & _ & H5 & _).
  - reflexivity.
  - cbn. lia.
  - exists w. split; assumption.
Defined.

(** X14.  The weights of a running generation in rank-weight mode: the ranked
    scores (all of them, or all but the basis when [rankbasis] is off) get a
    rearrangement of [rankweight(n, select_cutoff)], which needs
    [1 <= select_cutoff <= n]; with [rankbasis] off the basis gets weight 0.
    The weights sum to 1. *)
Theorem running_rank_weights_rearrange (st : ZOHA_Sphere_lr_euclid.t) (scores : list R) :
  rankweight st = true ->
  let ranked := if rankbasis st then scores else tl scores in
  (2 <= length ranked)%nat ->
  1 <= select_cutoff st <= INR (length ranked) ->
  exists w raw,
    RankWeighting.rankweight (length ranked) (Some (select_cutoff st)) = Ok raw
    /\ running_weights st scores = Ok (if rankbasis st then w else 0 :: w)
    /\ Permutation w raw
    /\ lsum (if rankbasis st then w else 0 :: w) = 1.
Proof.
  intros Hrw ranked Hn Hc.
  destruct (rankweight_total (length ranked) (Some (select_cutoff st)) Hn)
    as (raw & Eraw & Hlen & Hsum & Hnn).
  { intros m E. injection E as <-. exact Hc. }
  unfold running_weights. rewrite Hrw. cbn [negb].
  assert (Hranked : (if negb (rankbasis st) then tl scores else scores) = ranked).
  { unfold ranked. destruct (rankbasis st); reflexivity. }
  rewrite Hranked.
  set (code_rank := if negb (maximize st) then ranks ranked else ranks (map sopp ranked)).
  assert (Hp : Permutation code_rank (seq 0 (length ranked))).
  { unfold code_rank. destruct (negb (maximize st)); [apply ranks_perm|].
    rewrite <- (length_map sopp ranked). apply ranks_perm. }
  assert (Hcl : length code_rank = length ranked).
  { apply Permutation_length in Hp. now rewrite length_seq in Hp. }
  rewrite Hcl, Eraw. cbn [rbind].
  destruct (gather_perm raw code_rank) as (w & Ew & Hpw); [now rewrite Hlen|].
  rewrite Ew. cbn [rbind].
  exists w, raw. split; [reflexivity|]. split.
  { unfold s0. unR. destruct (rankbasis st); reflexivity. }
  split; [exact Hpw|].
  destruct (rankbasis st).
  - rewrite (lsum_perm w raw Hpw). exact Hsum.
  - rewrite lsum_cons, (lsum_perm w raw Hpw), Hsum. lra.
Qed.

Lemma running_rank_weights_rearrange_witness :
  exists w, running_weights (init 1 3 2 1 true true false 3) [1; 3; 2; 5] = Ok (0 :: w)
            /\ lsum (0 :: w) = 1.
Proof.
  destruct (running_rank_weights_rearrange (init 1 3 2 1 true true false 3) [1; 3; 2; 5])
    as (w & raw & _ & H2 & _ & H4).
  - reflexivity.
  - cbn. lia.
  - cbn. lra.
  - exists w. split; assumption.
Defined.
End RankWeights.

(** ** The spherical engine: exceptions *)

Lemma bind_ret {S A B} (a : A) (k : A -> M S B) s : bind (ret a) k s = k a s.
Proof. reflexivity. Qed.

Lemma bind_raise_now {S A B} e (k : A -> M S B) (s : S) :
  bind (raise e) k s = (Raise e, s).
Proof. reflexivity. Qed.

Section SphereErrors.
Import ZOHA_Sphere_lr_euclid.
Variable ExpMap : matrix R -> matrix R -> matrix R.
Variable SLERP : matrix R -> matrix R -> R -> matrix R.

(** X15.  A running generation in rank-weight mode needs as many ranked scores as
    the selection cutoff: with fewer than [floor(select_cutoff)] of them
    [step_simple] raises the ValueError of [rankweight], having only recorded
    the current base point. *)
Theorem small_population_is_rejected
  (st : ZOHA_Sphere_lr_euclid.t) (scores : list R) (codes : matrix R)
  (verbosity : bool) (z : nat -> nat -> R) :
  rankweight st = true ->
  istep st <> (-1)%Z ->
  scores <> [] ->
  let ranked := if rankbasis st then scores else tl scores in
  (length ranked < Z.to_nat (Zfloor (select_cutoff st)))%nat ->
  Z.to_nat (Zfloor (select_cutoff st)) <> 1%nat ->
  step_simple ExpMap SLERP scores codes verbosity z st
  = (Raise ValueError, set_xcur (first_row codes) st).
Proof.
  intros Hrw Hi Hne ranked Hl H1.
  assert (Hw : running_weights st scores = Raise ValueError).
  { unfold running_weights. rewrite Hrw. cbn [negb].
    assert (Hranked : (if negb (rankbasis st) then tl scores else scores) = ranked).
    { unfold ranked. destruct (rankbasis st); reflexivity. }
    rewrite Hranked.
    assert (Hcl : forall l : list R, length (ranks l) = length l).
    { intros l. pose proof (ranks_perm l) as Hp. apply Permutation_length in Hp.
      now rewrite length_seq in Hp. }
    assert (Hlen : length (if negb (maximize st) then ranks ranked
                           else ranks (map sopp ranked)) = length ranked).
    { destruct (negb (maximize st)); rewrite Hcl; [reflexivity | apply length_map]. }
    rewrite Hlen. unfold RankWeighting.rankweight. cbv zeta. unR.
    rewrite log_weights_length.
    replace (Zfloor (select_cutoff st) <? 0)%Z with false by (symmetry; apply Z.ltb_ge; lia).
    rewrite Nat.min_r by lia.
    replace (Nat.eqb (Z.to_nat (Zfloor (select_cutoff st))) (length ranked)) with false
      by (symmetry; apply Nat.eqb_neq; lia).
    replace (Nat.eqb (Z.to_nat (Zfloor (select_cutoff st))) 1) with false
      by (symmetry; apply Nat.eqb_neq; exact H1).
    reflexivity. }
  unfold step_simple.
  replace (Nat.eqb (length scores) 0) with false
    by (symmetry; apply Nat.eqb_neq; destruct scores; [contradiction | discriminate]).
  rewrite andb_false_r, bind_ret.
  erewrite bind_raise; [reflexivity|].
  unfold move_base. rewrite bind_get, bind_modify.
  replace (istep st =? -1)%Z with false by (symmetry; apply Z.eqb_neq; exact Hi).
  assert (Hw' : running_weights (T:=R) st scores = Raise ValueError) by exact Hw.
  erewrite bind_lift_raise; [reflexivity|].
  exact Hw.
Qed.

Lemma propose_needs_schedule (z : nat -> nat -> R) (s : ZOHA_Sphere_lr_euclid.t) :
  mulist s = None ->
  exists e, fst (propose ExpMap z s) = Raise e /\ mulist (snd (propose ExpMap z s)) = None
            /\ istep (snd (propose ExpMap z s)) = istep s.
Proof.
  intros Hm. unfold propose. rewrite bind_get, !bind_modify.
  eval_lift; [|eexists; cbn; split; [reflexivity | split; [exact Hm | reflexivity]]].
  eval_lift; [|eexists; cbn; split; [reflexivity | split; [exact Hm | reflexivity]]].
  eval_lift; [|eexists; cbn; split; [reflexivity | split; [exact Hm | reflexivity]]].
  rewrite bind_modify.
  assert (Hse : schedule_entry s = Raise AttributeError)
    by (unfold schedule_entry; rewrite Hm; reflexivity).
  rewrite Hse, bind_lift_Raise.
  eexists. cbn. split; [reflexivity | split; [exact Hm | reflexivity]].
Qed.

Lemma move_base_keeps_schedule (o : option (list R)) (i : Z) scores codes :
  preserves (fun s => mulist s = o /\ istep s = i) (move_base SLERP scores codes).
Proof.
  unfold move_base. apply preserves_bind_get; intros s Hs.
  apply preserves_bind; [repeat preserve_step; assumption | intros _].
  destruct (istep s =? -1)%Z; repeat preserve_step; assumption.
Qed.

Lemma step_needs_schedule scores codes verbosity z (s : ZOHA_Sphere_lr_euclid.t) :
  mulist s = None ->
  (exists e, fst (step_simple ExpMap SLERP scores codes verbosity z s) = Raise e)
  /\ mulist (snd (step_simple ExpMap SLERP scores codes verbosity z s)) = None
  /\ istep (snd (step_simple ExpMap SLERP scores codes verbosity z s)) = istep s.
Proof.
  intros Hm. unfold step_simple.
  destruct (verbosity && Nat.eqb (length scores) 0).
  { rewrite bind_raise_now. cbn. split; [eexists; reflexivity | auto]. }
  rewrite bind_ret.
  pose proof (move_base_keeps_schedule None (istep s) scores codes s (conj Hm eq_refl)) as Hk.
  destruct (bind_cases (move_base SLERP scores codes)
              (fun _ => bind (propose ExpMap z) (fun new_samples =>
                 bind get (fun self => ret (renormalize new_samples (sphere_norm self))))) s)
    as [(a & s1 & E1 & ->) | (e & s1 & E1 & ->)]; rewrite E1 in Hk; cbn [snd] in Hk.
  - destruct Hk as [Hk1 Hk2].
    destruct (propose_needs_schedule z s1 Hk1) as (e & E2 & Hm2 & Hi2).
    destruct (propose ExpMap z s1) as [[o|e'] s2] eqn:E3; cbn [fst snd] in *; [discriminate|].
    erewrite bind_raise by exact E3. cbn [fst snd].
    split; [eexists; reflexivity|]. split; [exact Hm2 | congruence].
  - cbn [fst snd]. split; [eexists; reflexivity | exact Hk].
Qed.

(** X16.  The schedule has to be set before the first step.  A new engine has no
    [mulist], and neither has one after [lr_schedule] with a mode other than
    "inv", "lin" and "exp", which sets only [mu_init] and [mu_final]: every
    [step_simple] call then raises, however often it is tried, and the
    generation counter stays at -1. *)
Theorem step_needs_lr_schedule
  (space_dimen population_size : nat) (select_size lr : R)
  (maximize rankweight rankbasis : bool) (sphere_norm : R)
  (n_gen : Z) (lim : R * R) (verbosity : bool) (calls : list (call R)) :
  let new := init space_dimen population_size select_size lr maximize rankweight
               rankbasis sphere_norm in
  let other := snd (lr_schedule n_gen OtherMode lim new) in
  let step := fun scores codes z => step_simple ExpMap SLERP scores codes verbosity z in
  fst (lr_schedule n_gen OtherMode lim new) = Ok tt
  /\ mu_init other = Some (fst lim) /\ mu_final other = Some (snd lim)
  /\ Forall (fun r => exists e, r = Raise e) (trace step calls new)
  /\ Forall (fun r => exists e, r = Raise e) (trace step calls other)
  /\ istep (run step calls new) = (-1)%Z
  /\ istep (run step calls other) = (-1)%Z.
Proof.
  intros new other step.
  assert (Hgen : forall s, mulist s = None ->
            Forall (fun r => exists e, r = Raise e) (trace step calls s)
            /\ istep (run step calls s) = istep s).
  { induction calls as [|[[scores codes] z] l IH]; intros s Hm;
      [split; [constructor | reflexivity]|].
    destruct (step_needs_schedule scores codes verbosity z s Hm) as ((e & He) & Hm' & Hi').
    change (run step (((scores, codes), z) :: l) s)
      with (run step l (snd (step scores codes z s))).
    cbn [trace fst snd].
    destruct (IH (snd (step scores codes z s)) Hm') as [IH1 IH2].
    split.
    - constructor; [|exact IH1]. exists e. exact He.
    - rewrite IH2. exact Hi'. }
  split; [reflexivity|]. split; [reflexivity|]. split; [reflexivity|].
  destruct (Hgen new eq_refl) as [H1 H2].
  destruct (Hgen other eq_refl) as [H3 H4].
  repeat split; assumption.
Qed.
End SphereErrors.

Section SphereErrorsWitness.
Import ZOHA_Sphere_lr_euclid.

Lemma small_population_is_rejected_witness :
  step_simple flat_ExpMap full_SLERP [1; 3; 2] demo_codes false (fun _ _ => 0)
    (set_istep 0%Z (init 1 3 20 1 true true false 3))
  = (Raise ValueError,
     set_xcur (first_row demo_codes) (set_istep 0%Z (init 1 3 20 1 true true false 3))).
Proof.
  apply small_population_is_rejected.
  - reflexivity.
  - cbn. lia.
  - discriminate.
  - cbn [select_cutoff rankbasis set_istep init tl length].
    rewrite (Zfloor_eq 20); [simpl; lia | simpl; lra].
  - cbn [select_cutoff set_istep init].
    rewrite (Zfloor_eq 20); [simpl; lia | simpl; lra].
Defined.
End SphereErrorsWitness.

(** ** The spherical engine: the default schedule *)

Section InverseSchedule.
Import ZOHA_Sphere_lr_euclid.

Lemma nth_map_seq1 (f : nat -> R) n k :
  (k < n)%nat -> nth k (map f (seq 1 n)) 0 = f (S k).
Proof.
  intros Hk.
  rewrite nth_indep with (d' := f 0%nat) by (now rewrite length_map, length_seq).
  rewrite (map_nth f (seq 1 n) 0%nat k). rewrite seq_nth by exact Hk. reflexivity.
Qed.

Lemma inv_entry_decreasing (i j : nat) :
  (i < j)%nat ->
  15 + 1 / (17 / 10000 * INR (S j) + 146 / 10000)
  < 15 + 1 / (17 / 10000 * INR (S i) + 146 / 10000).
Proof.
  intros Hij.
  assert (Hi : 0 < INR (S i)) by (apply lt_0_INR; lia).
  assert (Hlt : INR (S i) < INR (S j)) by (apply lt_INR; lia).
  assert (H : / (17 / 10000 * INR (S j) + 146 / 10000)
              < / (17 / 10000 * INR (S i) + 146 / 10000)).
  { apply Rinv_lt_contravar; [|lra]. apply Rmult_lt_0_compat; lra. }
  lra.
Qed.

(** X17.  The default ("inv") schedule.  For [n_gen >= 1] in a dimension of at
    least 1, [lr_schedule] returns and [mulist] has [n_gen] entries; entry
    [k] is [15 + 1 / (0.0017 (k + 1) + 0.0146)] degrees converted to radians
    and divided by [sqrt(dimen)]; the entries decrease strictly and stay
    above the value for 15 degrees; [mu_init] and [mu_final] are the first
    and the last entry.  The [lim] argument is not used. *)
Theorem inv_schedule_decreases
  (n_gen : Z) (lim : R * R) (s : ZOHA_Sphere_lr_euclid.t) :
  (1 <= n_gen)%Z -> (1 <= dimen s)%nat ->
  exists l s',
    lr_schedule n_gen Inv lim s = (Ok tt, s')
    /\ mulist s' = Some l /\ Z.of_nat (length l) = n_gen
    /\ mu_init s' = Some (nth 0 l 0) /\ mu_final s' = Some (nth (length l - 1) l 0)
    /\ (forall k, (k < length l)%nat ->
          nth k l 0 = (15 + 1 / (17 / 10000 * INR (S k) + 146 / 10000))
                      / 180 * PI / R_sqrt.sqrt (INR (dimen s)))
    /\ (forall i j, (i < j)%nat -> (j < length l)%nat -> nth j l 0 < nth i l 0)
    /\ (forall k, (k < length l)%nat ->
          15 / 180 * PI / R_sqrt.sqrt (INR (dimen s)) < nth k l 0).
Proof.
  intros Hn Hd.
  set (f := fun k : nat => 15 + 1 / (17 / 10000 * INR k + 146 / 10000)).
  set (g := fun x : R => x / 180 * PI / R_sqrt.sqrt (INR (dimen s))).
  set (l := map g (map f (seq 1 (Z.to_nat n_gen)))).
  assert (Hl : to_radians (dimen s)
                 (map (fun k => sofZ 15 + sofZ 1 / (sofZ 17 / sofZ 10000 * k
                                                      + sofZ 146 / sofZ 10000))%num
                    (arange1 n_gen)) = l).
  { unfold to_radians, arange1, l, sofnat. unR. rewrite !map_map.
    apply map_ext. intros k. unfold g, f. now rewrite !INR_IZR_INZ. }
  assert (Hlen : length l = Z.to_nat n_gen).
  { unfold l. now rewrite !length_map, length_seq. }
  assert (Hnth : forall k, (k < length l)%nat -> nth k l 0 = g (f (S k))).
  { intros k Hk. rewrite Hlen in Hk. unfold l. rewrite map_map.
    apply (nth_map_seq1 (fun x => g (f x))). exact Hk. }
  assert (Hne : l <> []).
  { intros E. rewrite E in Hlen. cbn in Hlen. lia. }
  exists l. eexists. split.
  { unfold lr_schedule. rewrite bind_get, bind_modify, bind_modify.
    rewrite Hl.
    rewrite (index_in_range l 0) by (rewrite Hlen; lia). rewrite bind_lift_Ok, bind_modify.
    rewrite (index_last l Hne). rewrite bind_lift_Ok. unfold modify. reflexivity. }
  cbn [mulist mu_init mu_final set_mulist set_mu_init set_mu_final].
  split; [reflexivity|]. split; [rewrite Hlen; lia|].
  split; [reflexivity|]. split; [reflexivity|].
  assert (Hs : 0 < R_sqrt.sqrt (INR (dimen s))).
  { apply sqrt_lt_R0. apply lt_0_INR. lia. }
  assert (Hg : forall x y, x < y -> g x < g y).
  { intros x y Hxy. unfold g. pose proof PI_RGT_0.
    apply Rmult_lt_compat_r; [now apply Rinv_0_lt_compat|].
    apply Rmult_lt_compat_r; [assumption|]. lra. }
  split; [intros k Hk; rewrite Hnth by exact Hk; reflexivity|].
  split.
  - intros i j Hij Hj. rewrite !Hnth by lia. apply Hg. unfold f.
    now apply inv_entry_decreasing.
  - intros k Hk. rewrite Hnth by exact Hk. apply (Hg 15). unfold f.
    assert (0 < INR (S k)) by (apply lt_0_INR; lia).
    assert (0 < 1 / (17 / 10000 * INR (S k) + 146 / 10000)); [|lra].
    apply Rdiv_lt_0_compat; [lra|]. apply Rplus_lt_0_compat; [|lra].
    apply Rmult_lt_0_compat; lra.
Qed.

Lemma inv_schedule_decreases_witness :
  exists l s',
    lr_schedule 100 Inv (50, 7) (init 4096 40 20 (3 / 2) true true false 300) = (Ok tt, s')
    /\ mulist s' = Some l /\ Z.of_nat (length l) = 100%Z.
Proof.
  destruct (inv_schedule_decreases 100 (50, 7) (init 4096 40 20 (3 / 2) true true false 300))
    as (l & s' & H1 & H2 & H3 & _).
  - lia.
  - cbn. lia.
  - exists l, s'. auto.
Defined.
End InverseSchedule.

(** ** HessCMAES: [step_simple] *)

Section HessStep.
Import HessCMAES.

Lemma hess_before_sample_keeps (P : HessCMAES.t (T:=R) -> Prop) (scores : list R)
  (codes : matrix R) (self : HessCMAES.t (T:=R)) (loc : locals) :
  (forall x s, P s -> P (set_xmean x s)) ->
  (forall x s, P s -> P (set_xold x s)) ->
  (forall x s, P s -> P (set_eigeneval x s)) ->
  preserves P
    (if Nat.eqb (istep self) 0
     then bind (init_mean (CholeskyCMAES.sort_index (maximize self) scores) codes)
            (fun _ => ret loc)
     else update_locals (CholeskyCMAES.sort_index (maximize self) scores) codes loc).
Proof.
  intros H1 H2 H3.
  destruct (Nat.eqb (istep self) 0).
  - apply preserves_bind; [|intros _; apply preserves_ret].
    unfold init_mean. apply preserves_bind_get; intros s Hs.
    destruct (init_x s); repeat preserve_step; auto.
  - unfold update_locals, get_randz.
    apply preserves_bind_get; intros s Hs.
    repeat preserve_step; auto.
    + destruct (randz _); repeat preserve_step.
    + destruct (refresh_due s); [|apply preserves_ret].
      unfold refresh_locals. repeat preserve_step; auto.
Qed.

(** X18.  A call that raises leaves the strategy state as it was: [sigma], [A],
    [Ainv], [ps] and [pc] are computed on local copies and assigned in the
    last statements only, so an exception anywhere in the call loses the
    update as a whole. *)
Theorem failed_call_keeps_strategy
  (scores : list R) (codes : matrix R) (z : nat -> nat -> R)
  (s : HessCMAES.t) (e : exn) :
  fst (step_simple scores codes z s) = Raise e ->
  same_strategy s (snd (step_simple scores codes z s))
  /\ istep (snd (step_simple scores codes z s)) = istep s
  /\ counteval (snd (step_simple scores codes z s)) = counteval s.
Proof.
  unfold step_simple. rewrite bind_get.
  set (loc := mk_locals (sigma s) (A s) (Ainv s) (ps s) (pc s)).
  pose proof (hess_before_sample_keeps
                (fun x => same_strategy s x /\ istep x = istep s /\ counteval x = counteval s)
                scores codes s loc
                (fun _ _ H => H) (fun _ _ H => H) (fun _ _ H => H) s) as Hk.
  match goal with |- context [bind ?m _ s] => set (m1 := m) in * end.
  assert (H0 : same_strategy s s /\ istep s = istep s /\ counteval s = counteval s)
    by (repeat split).
  specialize (Hk H0).
  destruct (bind_cases m1 (fun loc' => sample z loc') s)
    as [(loc' & s1 & E1 & ->) | (e1 & s1 & E1 & ->)]; rewrite E1 in Hk; cbn [snd] in Hk.
  - unfold sample. rewrite bind_get, bind_modify.
    eval_lift; [|intros _; exact Hk].
    eval_lift; [|intros _; exact Hk].
    rewrite !bind_modify. unfold ret. cbn [fst]. discriminate.
  - intros _. exact Hk.
Qed.

Lemma failed_call_keeps_strategy_witness :
  fst (step_simple [0] (zeros 1 3) (fun _ _ => 0) demo_hess_long) = Raise ValueError
  /\ same_strategy demo_hess_long
       (snd (step_simple [0] (zeros 1 3) (fun _ _ => 0) demo_hess_long)).
Proof.
  assert (E : fst (step_simple [0] (zeros 1 3) (fun _ _ => 0) demo_hess_long)
              = Raise ValueError) by reflexivity.
  split; [exact E|].
  apply (failed_call_keeps_strategy [0] (zeros 1 3) (fun _ _ => 0) demo_hess_long
           ValueError E).
Defined.





Lemma set_Hessian_frame (eigvals : list R) (V : matrix R) c (p : R) (s : HessCMAES.t (T:=R)) :
  let s' := snd (set_Hessian eigvals V c p s) in
  istep s' = istep s /\ init_x s' = init_x s /\ sigma s' = sigma s
  /\ lambda_ s' = lambda_ s /\ space_dimen s' = space_dimen s.
Proof.
  assert (Hp : preserves (fun x => istep x = istep s /\ init_x x = init_x s
                                   /\ sigma x = sigma s /\ lambda_ x = lambda_ s
                                   /\ space_dimen x = space_dimen s)
                 (set_Hessian eigvals V c p)).
  { unfold set_Hessian. repeat preserve_step; assumption. }
  apply Hp. repeat split.
Qed.

(** X20.  The first generation after [set_Hessian], from an initial code: sample
    [i] is the initial code displaced along the first [M] eigenvectors, the
    [k]-th by [init_sigma * z[i, k] * lambda_k ^ (-p)].  The initial code
    must have as many entries as an eigenvector; the eigenvalues are taken
    positive, where the power of the reals is numpy's. *)
Theorem hessian_first_generation
  (space_dimen : nat) (population_size cutoff : option nat) (init_sigma : R)
  (code : list R) (Aupdate_freq : option Z) (maximize : bool)
  (params : optim_params) (eigvals : list R) (V : matrix R)
  (cutoff_arg : option nat) (p : R)
  (scores : list R) (codes : matrix R) (z : nat -> nat -> R) :
  let st := init space_dimen population_size cutoff init_sigma (Some code)
              Aupdate_freq maximize params in
  let M := cutoff_at_construction space_dimen cutoff in
  (M <= length eigvals)%nat -> (M <= ncols V)%nat ->
  (forall i, (i < M)%nat -> 0 < nth i eigvals 0) ->
  length code = nrows V ->
  exists st1 out st2,
    set_Hessian eigvals V cutoff_arg p st = (Ok tt, st1)
    /\ step_simple scores codes z st1 = (Ok out, st2)
    /\ nrows out = lambda_ st /\ ncols out = nrows V
    /\ forall i j, (i < lambda_ st)%nat -> (j < nrows V)%nat ->
         mget out i j
         = nth j code 0
           + init_sigma * vsum M (fun k => z i k * (Rpower (nth k eigvals 0) (- p)
                                                    * mget V j k)).
Proof.
  intros st M HMe HMv _ Hcode.
  assert (HM : HessCMAES.space_dimen st = M) by apply init_space_dimen.
  destruct (set_Hessian_entries st eigvals V cutoff_arg p)
    as (st1 & Hrun & HA1 & HA2 & _ & _ & HA & _);
    try (rewrite HM; assumption).
  rewrite HM in *.
  pose proof (set_Hessian_frame eigvals V cutoff_arg p st) as Hf.
  rewrite Hrun in Hf. cbn [snd] in Hf. destruct Hf as (Hi & Hx & Hsig & Hlam & Hsd).
  assert (Hi0 : istep st1 = 0%nat) by (rewrite Hi; reflexivity).
  assert (Hx0 : init_x st1 = Some (row_of_list code)) by (rewrite Hx; reflexivity).
  assert (Hsig0 : sigma st1 = init_sigma) by (rewrite Hsig; reflexivity).
  exists st1. eexists. eexists. split; [exact Hrun|].
  unfold step_simple. rewrite bind_get, Hi0. cbn [Nat.eqb].
  erewrite bind_ok.
  2:{ erewrite bind_ok; [reflexivity|].
      unfold init_mean. rewrite bind_get, Hx0. unfold modify. reflexivity. }
  unfold sample. rewrite bind_get, bind_modify.
  cbn [l_sigma l_A l_Ainv l_ps l_pc lambda_ HessCMAES.space_dimen xmean set_xmean set_randz].
  rewrite matmul_ok by (cbn; congruence). rewrite bind_lift_Ok.
  unfold madd. rewrite broadcast2_row by (cbn; congruence).
  rewrite bind_lift_Ok, !bind_modify. unfold ret.
  split; [reflexivity|].
  cbn [nrows ncols mget scale row_of_list].
  split; [exact Hlam|]. split; [exact Hcode|].
  intros i j Hi' Hj. rewrite Hlam, Hsd, HM, Hsig0, Hcode.
  rewrite HA2. cbn [bidx Nat.eqb]. rewrite !bidx_lt by assumption. unR.
  rewrite <- vsum_scal_l.
  rewrite vsum_ext with
    (f := fun k => init_sigma * z i k * mget (A st1) k j)
    (g := fun k => init_sigma * (z i k * (Rpower (nth k eigvals 0) (- p) * mget V j k))).
  2:{ intros k Hk. rewrite HA by assumption. ring. }
  reflexivity.
Qed.

Lemma hessian_first_generation_witness :
  exists st1 out st2,
    set_Hessian [4; 1] (eye 2 2) None default_expon demo_hess = (Ok tt, st1)
    /\ step_simple [] (zeros 0 0) (fun _ _ => 1) st1 = (Ok out, st2)
    /\ mget out 0 0 = 5 + 3 * vsum 1 (fun k => 1 * (Rpower (nth k [4; 1] 0) (- default_expon)
                                                   * mget (eye 2 2) 0 k)).
Proof.
  destruct (hessian_first_generation 2 (Some 4%nat) (Some 1%nat) 3 [5; 7] (Some 10%Z) true
              no_params [4; 1] (eye 2 2) None default_expon [] (zeros 0 0) (fun _ _ => 1))
    as (st1 & out & st2 & H1 & H2 & _ & _ & H5).
  - cbn. lia.
  - cbn. lia.
  - intros i Hi. destruct i as [|i]; [cbn; lra | cbn in Hi; lia].
  - reflexivity.
  - exists st1, out, st2. split; [exact H1|]. split; [exact H2|].
    apply (H5 0%nat 0%nat); cbn; lia.
Defined.
End HessStep.

(** ** [fix_param_wrapper] *)

Section FixedPart.
Context {S : Type} `{Optimizer R S}.

(** One call of the wrapper in terms of the call of its optimizer. *)
Lemma fix_step_simple_inner (o : S) (fixed : matrix R) (pre0 : bool) (k : nat)
  (scores : list R) (codes : matrix R) z :
  fix_param_wrapper.step_simple scores codes z (fix_param_wrapper.mk o fixed pre0 k)
  = match opt_step_simple scores (free_part pre0 k codes) z o with
    | (Ok new, o') =>
        ((if pre0 then hconcat (repeat_rows fixed (nrows new)) new
          else hconcat new (repeat_rows fixed (nrows new))),
         fix_param_wrapper.mk o' fixed pre0 k)
    | (Raise e, o') => (Raise e, fix_param_wrapper.mk o' fixed pre0 k)
    end.
Proof.
  unfold fix_param_wrapper.step_simple, free_part. rewrite bind_get.
  cbn [fix_param_wrapper.pre fix_param_wrapper.sep fix_param_wrapper.fix_code].
  destruct pre0; unfold bind, fix_param_wrapper.on_optim, lift;
    cbn [fix_param_wrapper.optim fix_param_wrapper.pre fix_param_wrapper.sep
         fix_param_wrapper.fix_code fst snd];
    destruct (opt_step_simple scores _ z o) as [[new|e] o']; reflexivity.
Qed.

(** X21.  The fixed code has to be a single row.  With any other number of rows,
    a call in which the optimizer returns a population that is not empty
    raises ValueError at the concatenation, and the optimizer has moved on
    by then. *)
Theorem fixed_code_must_be_one_row (o o' : S) (fixed : matrix R) (pre0 : bool)
  (scores : list R) (codes : matrix R) (z : nat -> nat -> R) (new : matrix R) :
  opt_step_simple scores (free_part pre0 (ncols fixed) codes) z o = (Ok new, o') ->
  nrows new <> 0%nat -> nrows fixed <> 1%nat ->
  fix_param_wrapper.step_simple scores codes z (fix_param_wrapper.init o fixed pre0)
  = (Raise ValueError, fix_param_wrapper.init o' fixed pre0).
Proof.
  intros E Hn Hf. unfold fix_param_wrapper.init.
  rewrite fix_step_simple_inner, E.
  unfold hconcat, repeat_rows. cbn [nrows].
  assert (Hne : (nrows fixed * nrows new)%nat <> nrows new) by nia.
  destruct pre0.
  - replace (Nat.eqb (nrows fixed * nrows new) (nrows new)) with false; [reflexivity|].
    symmetry. now apply Nat.eqb_neq.
  - replace (Nat.eqb (nrows new) (nrows fixed * nrows new)) with false; [reflexivity|].
    symmetry. apply Nat.eqb_neq. congruence.
Qed.
End FixedPart.

Section FixedPartOfEngine.
Import CholeskyCMAES.

Lemma fixed_code_must_be_one_row_witness :
  exists o',
    fix_param_wrapper.step_simple [] (zeros 0 3) (fun _ _ => 0)
      (fix_param_wrapper.init demo_init_coded (zeros 2 1) true)
    = (Raise ValueError, fix_param_wrapper.init o' (zeros 2 1) true).
Proof.
  destruct (step_simple_returns [] (free_part true 1 (zeros 0 3)) (fun _ _ => 0) demo_init_coded)
    as (out & s' & E & Ho1 & _).
  - apply (init_shaped 2 (Some 3%nat) 3 (Some [5; 7]) (Some 10%Z) true no_params). reflexivity.
  - reflexivity.
  - reflexivity.
  - intros Hi. now elim Hi.
  - exists s'.
    apply (fixed_code_must_be_one_row demo_init_coded s' (zeros 2 1) true [] (zeros 0 3)
             (fun _ _ => 0) out).
    + exact E.
    + rewrite Ho1. cbn. lia.
    + cbn. lia.
Defined.

Lemma free_part_shape (pre0 : bool) (k n : nat) (codes : matrix R) :
  pre0 = true \/ k <> 0%nat ->
  ncols codes = (k + n)%nat ->
  nrows (free_part pre0 k codes) = nrows codes /\ ncols (free_part pre0 k codes) = n.
Proof.
  intros Hk Hc. unfold free_part, cols_from, cols_drop_last.
  destruct pre0; cbn [nrows ncols].
  - split; [reflexivity | lia].
  - destruct Hk as [Hk|Hk]; [discriminate|].
    apply Nat.eqb_neq in Hk. rewrite Hk. split; [reflexivity | lia].
Qed.

(** A run of the wrapper is a run of its engine on the free part of the
    codes. *)
Lemma fix_run_inner st (fixed : matrix R) (pre0 : bool) :
  pre0 = true \/ ncols fixed <> 0%nat ->
  forall (calls : list (call R)) s,
  shaped s -> same_setup st s ->
  Forall (fitting_wide st (ncols fixed)) calls ->
  Forall2 (fun r r0 => exists new, r0 = Ok new
             /\ nrows new = lambda_ st /\ ncols new = space_dimen st
             /\ r = if pre0 then hconcat (repeat_rows fixed (nrows new)) new
                    else hconcat new (repeat_rows fixed (nrows new)))
    (trace fix_param_wrapper.step_simple calls
       (fix_param_wrapper.mk s fixed pre0 (ncols fixed)))
    (trace step_simple (map (free_call pre0 (ncols fixed)) calls) s)
  /\ run fix_param_wrapper.step_simple calls
       (fix_param_wrapper.mk s fixed pre0 (ncols fixed))
     = fix_param_wrapper.mk (run step_simple (map (free_call pre0 (ncols fixed)) calls) s)
         fixed pre0 (ncols fixed).
Proof.
  intros Hk. induction calls as [|[[scores codes] z] calls IH]; intros s Hs Hset Hfit.
  - split; [constructor | reflexivity].
  - inversion Hfit as [|c l (Hr & Hc & Hn) Hrest]; subst. cbn [fst snd] in Hr, Hc, Hn.
    pose proof Hset as (Hd & Hl & Hm & _).
    destruct (free_part_shape pre0 (ncols fixed) (space_dimen st) codes Hk Hc) as [Hfr Hfc].
    destruct (step_simple_returns scores (free_part pre0 (ncols fixed) codes) z s Hs)
      as (out & s' & E & Ho1 & Ho2 & _ & Hi');
      [congruence | congruence | intros _; rewrite Hm, Hl; exact Hn |].
    assert (Hs' : shaped s').
    { pose proof (step_simple_shaped scores (free_part pre0 (ncols fixed) codes) z s Hs) as Hp.
      now rewrite E in Hp. }
    assert (Hset' : same_setup st s').
    { pose proof (step_simple_same_setup st scores (free_part pre0 (ncols fixed) codes) z s Hset)
        as Hp. now rewrite E in Hp. }
    destruct (IH s' Hs' Hset' Hrest) as [IH1 IH2].
    change (run fix_param_wrapper.step_simple (((scores, codes), z) :: calls)
              (fix_param_wrapper.mk s fixed pre0 (ncols fixed)))
      with (run fix_param_wrapper.step_simple calls
              (snd (fix_param_wrapper.step_simple scores codes z
                      (fix_param_wrapper.mk s fixed pre0 (ncols fixed))))).
    change (run step_simple (map (free_call pre0 (ncols fixed)) (((scores, codes), z) :: calls)) s)
      with (run step_simple (map (free_call pre0 (ncols fixed)) calls)
              (snd (step_simple scores (free_part pre0 (ncols fixed) codes) z s))).
    cbn [trace map free_call fst snd].
    rewrite fix_step_simple_inner.
    unfold opt_step_simple, Optimizer_CholeskyCMAES.
    rewrite E. cbn [fst snd]. split; [|exact IH2].
    constructor; [|exact IH1].
    exists out. split; [reflexivity|]. split; [congruence|]. split; [congruence|]. reflexivity.
Qed.

(** X22.  A wrapper around an engine constructed with a damping that is not
    zero, with a fixed code of one row, works as an optimizer of the full
    codes.  Given calls with one score per code, codes of [sep] columns more
    than the engine's dimension and between [mu] and [lambda_] of them, every
    call returns [lambda_] codes of that width: the fixed columns of every
    row hold the fixed code, the other columns hold the row that the engine
    returns when it is run alone on the free part of the same codes, and the
    engine inside is in the state of that run.  When the fixed part comes
    last the fixed code must not be empty. *)
Theorem fixed_part_is_carried
  (N : nat) (population_size : option nat) (init_sigma : R)
  (init_code : option (list R)) (Aupdate_freq : option Z) (maximize : bool)
  (params : optim_params) (st : CholeskyCMAES.t)
  (fixed : matrix R) (pre0 : bool) (calls : list (call R)) :
  init N population_size init_sigma init_code Aupdate_freq maximize params = Ok st ->
  damps st <> 0 ->
  nrows fixed = 1%nat ->
  pre0 = true \/ ncols fixed <> 0%nat ->
  Forall (fitting_wide st (ncols fixed)) calls ->
  let k := ncols fixed in
  let w := fix_param_wrapper.init st fixed pre0 in
  Forall2 (fun r r0 => exists out new, r = Ok out /\ r0 = Ok new
             /\ nrows out = lambda_ st /\ ncols out = (k + N)%nat
             /\ forall i, (i < lambda_ st)%nat ->
                  (forall j, (j < k)%nat ->
                     mget out i (if pre0 then j else (N + j)%nat) = mget fixed 0 j)
                  /\ (forall j, (j < N)%nat ->
                        mget out i (if pre0 then (k + j)%nat else j) = mget new i j))
    (trace fix_param_wrapper.step_simple calls w)
    (trace step_simple (map (free_call pre0 k) calls) st)
  /\ fix_param_wrapper.optim (run fix_param_wrapper.step_simple calls w)
     = run step_simple (map (free_call pre0 k) calls) st.
Proof.
  intros Hinit _ Hrow Hk Hfit k w.
  pose proof (init_shaped _ _ _ _ _ _ _ _ Hinit) as Hs.
  destruct (init_dimen _ _ _ _ _ _ _ _ Hinit) as (Hd & _).
  destruct (fix_run_inner st fixed pre0 Hk calls st Hs (same_setup_refl st) Hfit) as [H1 H2].
  unfold w, fix_param_wrapper.init. fold k in H1, H2 |- *. split.
  - eapply Forall2_impl; [|exact H1].
    intros r r0 (new & -> & Hn1 & Hn2 & ->).
    unfold hconcat, repeat_rows. cbn [nrows ncols mget]. rewrite Hrow, Nat.mul_1_l.
    destruct pre0; rewrite Nat.eqb_refl.
    + eexists. exists new. split; [reflexivity|]. split; [reflexivity|].
      cbn [nrows ncols mget]. split; [lia|]. split; [fold k; lia|].
      intros i Hi. split; intros j Hj.
      * fold k. replace (Nat.ltb j k) with true by (symmetry; apply Nat.ltb_lt; exact Hj).
        rewrite Nat.div_small by lia. reflexivity.
      * fold k. replace (Nat.ltb (k + j) k) with false by (symmetry; apply Nat.ltb_ge; lia).
        f_equal. lia.
    + eexists. exists new. split; [reflexivity|]. split; [reflexivity|].
      cbn [nrows ncols mget]. split; [lia|]. split; [fold k; lia|].
      intros i Hi. split; intros j Hj.
      * replace (Nat.ltb (N + j) (ncols new)) with false by (symmetry; apply Nat.ltb_ge; lia).
        rewrite Nat.div_small by lia. f_equal. lia.
      * replace (Nat.ltb j (ncols new)) with true by (symmetry; apply Nat.ltb_lt; lia).
        reflexivity.
  - rewrite H2. reflexivity.
Qed.

Lemma fixed_part_is_carried_witness :
  Forall2 (fun r r0 => exists out new, r = Ok out /\ r0 = Ok new
             /\ nrows out = lambda_ demo_init4 /\ ncols out = (1 + 2)%nat
             /\ forall i, (i < lambda_ demo_init4)%nat ->
                  (forall j, (j < 1)%nat ->
                     mget out i (2 + j)%nat = mget (row_of_list [9]) 0 j)
                  /\ (forall j, (j < 2)%nat -> mget out i j = mget new i j))
    (trace fix_param_wrapper.step_simple
       [([1; 2], zeros 2 3, fun _ _ => 0); ([1; 2], zeros 2 3, fun _ _ => 0)]
       (fix_param_wrapper.init demo_init4 (row_of_list [9]) false))
    (trace step_simple
       (map (free_call false 1)
          [([1; 2], zeros 2 3, fun _ _ => 0); ([1; 2], zeros 2 3, fun _ _ => 0)])
       demo_init4)
  /\ fix_param_wrapper.optim
       (run fix_param_wrapper.step_simple
          [([1; 2], zeros 2 3, fun _ _ => 0); ([1; 2], zeros 2 3, fun _ _ => 0)]
          (fix_param_wrapper.init demo_init4 (row_of_list [9]) false))
     = run step_simple
         (map (free_call false 1)
            [([1; 2], zeros 2 3, fun _ _ => 0); ([1; 2], zeros 2 3, fun _ _ => 0)])
         demo_init4.
Proof.
  apply (fixed_part_is_carried 2 (Some 4%nat) 3 None (Some 10%Z) true no_params demo_init4
           (row_of_list [9]) false
           [([1; 2], zeros 2 3, fun _ _ => 0); ([1; 2], zeros 2 3, fun _ _ => 0)]).
  - reflexivity.
  - pose proof (init_damps_pos 2 (Some 4%nat) 3 None (Some 10%Z) true no_params demo_init4
                  eq_refl eq_refl).
    lra.
  - reflexivity.
  - right. cbn. lia.
  - assert (Hfit : fitting_wide demo_init4 (ncols (row_of_list [9]))
                     ([1; 2], zeros 2 3, fun _ _ => 0)).
    { split; [reflexivity|]. split; [reflexivity|].
      change (mu demo_init4) with (Z.to_nat (Zfloor (IZR (Z.of_nat 4) / IZR 2))).
      rewrite (Zfloor_eq 2); [simpl; lia | simpl; lra]. }
    constructor; [exact Hfit | constructor; [exact Hfit | constructor]].
Defined.
End FixedPartOfEngine.

(** ** [fix_param_wrapper] with an empty fixed code *)

Section EmptyFixedCode.
Import CholeskyCMAES.

(** When the recombination returns, the mean is as wide as the codes. *)
Lemma update_paths_mean_cols idx (codes : matrix R) s s1 :
  update_paths idx codes s = (Ok tt, s1) ->
  ncols (xmean s1) = ncols codes /\ space_dimen s1 = space_dimen s.
Proof.
  unfold update_paths. rewrite bind_get, bind_modify.
  eval_lift; [|discriminate].
  eval_lift; [|discriminate].
  rewrite bind_modify, bind_get_randz.
  cbn [randz set_xmean set_xold].
  destruct (randz s) as [rz|]; [|discriminate].
  eval_lift; [|discriminate].
  eval_lift; [|discriminate].
  eval_lift; [|discriminate].
  rewrite bind_modify.
  eval_lift; [|discriminate].
  eval_lift; [|discriminate].
  rewrite bind_modify. unfold modify. intros Ex. injection Ex as <-.
  cbn [xmean space_dimen set_sigma set_pc set_ps set_xmean set_xold].
  split; [|reflexivity].
  match goal with
  | H1 : take_rows codes _ = Ok ?sel, H2 : matmul _ ?sel = Ok _ |- _ =>
      rewrite (matmul_ncols _ _ _ H2); exact (take_rows_ncols _ _ _ H1)
  end.
Qed.

(** A mean without columns cannot be added to samples of two or more. *)
Lemma sample_without_mean_cols z s :
  shaped s -> ncols (xmean s) = 0%nat -> (2 <= space_dimen s)%nat ->
  exists s', sample z s = (Raise ValueError, s').
Proof.
  intros Hs Hm HN. unfold sample. rewrite bind_get, bind_modify.
  rewrite matmul_ok by (cbn; symmetry; apply (sh_A_rows Hs)).
  rewrite bind_lift_Ok.
  unfold madd, broadcast2. cbn [nrows ncols scale].
  rewrite Hm, (sh_A_cols Hs).
  assert (Hb : bshape 0 (space_dimen s) = Raise ValueError).
  { unfold bshape. destruct (space_dimen s) as [|[|n]]; [lia | lia | reflexivity]. }
  rewrite Hb.
  destruct (bshape (nrows (xmean s)) (lambda_ s)) as [r|e] eqn:Er; cbn [rbind].
  - rewrite bind_lift_Raise. eexists. reflexivity.
  - assert (He : e = ValueError).
    { unfold bshape in Er.
      repeat match type of Er with (if ?b then _ else _) = _ => destruct b end;
        congruence. }
    subst e. rewrite bind_lift_Raise. eexists. reflexivity.
Qed.

Lemma step_simple_without_cols (scores : list R) (codes : matrix R) z s :
  shaped s -> istep s <> 0%nat -> ncols codes = 0%nat -> (2 <= space_dimen s)%nat ->
  exists e s', step_simple scores codes z s = (Raise e, s')
               /\ (e = ValueError \/ e = IndexError).
Proof.
  intros Hs Hi Hc HN.
  assert (Hr : exists e s', step_simple scores codes z s = (Raise e, s')).
  { unfold step_simple. rewrite bind_get.
    apply Nat.eqb_neq in Hi. rewrite Hi.
    set (idx := sort_index (maximize s) scores).
    rewrite bind_assoc.
    destruct (bind_cases (update_paths idx codes)
                (fun x => bind ((fun _ => bind get (fun self =>
                                   if refresh_due self then refresh else ret tt)) x)
                            (fun _ => sample z)) s)
      as [(a & s2 & E2 & ->) | (e2 & s2 & E2 & ->)]; [|eexists; eexists; reflexivity].
    assert (Hs2 : shaped s2).
    { pose proof (update_paths_shaped idx codes s Hs) as Hp. now rewrite E2 in Hp. }
    destruct a. destruct (update_paths_mean_cols idx codes s s2 E2) as [Hm2 Hd2].
    rewrite bind_assoc, bind_get.
    destruct (refresh_due s2).
    - destruct (refresh_returns s2 Hs2) as (s3 & E3 & Hx3 & _ & _ & Hd3).
      assert (Hs3 : shaped s3).
      { pose proof (refresh_shaped s2 Hs2) as Hp. now rewrite E3 in Hp. }
      erewrite bind_ok by exact E3.
      destruct (sample_without_mean_cols z s3 Hs3) as (s4 & E4); [congruence | lia |].
      rewrite E4. eexists. eexists. reflexivity.
    - rewrite bind_ret.
      destruct (sample_without_mean_cols z s2 Hs2) as (s4 & E4); [congruence | lia |].
      rewrite E4. eexists. eexists. reflexivity. }
  destruct Hr as (e & s' & E). exists e, s'. split; [exact E|].
  apply (step_simple_raises scores codes z s e Hs). now rewrite E.
Qed.

(** An engine constructed with an initial code returns from its first call
    whatever it is given. *)
Lemma coded_first_step_returns (scores : list R) (codes : matrix R) z s x :
  shaped s -> istep s = 0%nat -> init_x s = Some x ->
  exists out s', step_simple scores codes z s = (Ok out, s') /\ istep s' = 1%nat.
Proof.
  intros Hs Hi Hx. unfold step_simple. rewrite bind_get, Hi. cbn [Nat.eqb].
  unfold init_mean. rewrite bind_assoc, bind_get, Hx, bind_modify.
  destruct (sample_returns z (set_xmean x s)) as (out & s' & E & _ & _ & _ & Hi' & _).
  - keep_shaped Hs.
  - exact (sh_init_x Hs Hx).
  - exists out, s'. split; [exact E|]. rewrite Hi'. cbn [istep set_xmean]. now rewrite Hi.
Qed.

Lemma fix_step_simple_keeps (P : CholeskyCMAES.t (T:=R) -> Prop) (fixed : matrix R)
  (pre0 : bool) (k : nat) :
  (forall scores codes z, preserves P (step_simple scores codes z)) ->
  forall (scores : list R) (codes : matrix R) z,
  preserves (fun w => P (fix_param_wrapper.optim w)
                      /\ fix_param_wrapper.fix_code w = fixed
                      /\ fix_param_wrapper.pre w = pre0
                      /\ fix_param_wrapper.sep w = k)
    (fix_param_wrapper.step_simple scores codes z).
Proof.
  intros HP scores codes z [o f p k0] (Ho & Hf & Hp & Hk). cbn in Ho, Hf, Hp, Hk. subst.
  rewrite fix_step_simple_inner.
  unfold opt_step_simple, Optimizer_CholeskyCMAES.
  pose proof (HP scores (free_part pre0 k codes) z o Ho) as Hn.
  destruct (step_simple scores (free_part pre0 k codes) z o) as [[new|e] o'];
    cbn [snd fix_param_wrapper.optim fix_param_wrapper.fix_code fix_param_wrapper.pre
         fix_param_wrapper.sep] in *; auto.
Qed.

(** X23.  The fixed part cannot be an empty code at the end.  [codes[:, :-0]] is
    the empty slice, so a wrapper that fixes the last part, constructed with
    a fixed code of no columns around an engine of dimension two or more
    (its damping not zero), hands its engine codes without columns: every
    call past the first generation raises ValueError or IndexError, whatever
    it is given. *)
Theorem empty_fixed_code_at_end
  (N : nat) (population_size : option nat) (init_sigma : R)
  (init_code : option (list R)) (Aupdate_freq : option Z) (maximize : bool)
  (params : optim_params) (st : CholeskyCMAES.t)
  (fixed : matrix R) (calls : list (call R))
  (scores : list R) (codes : matrix R) (z : nat -> nat -> R) :
  init N population_size init_sigma init_code Aupdate_freq maximize params = Ok st ->
  damps st <> 0 ->
  (2 <= N)%nat ->
  ncols fixed = 0%nat ->
  let w := run fix_param_wrapper.step_simple calls (fix_param_wrapper.init st fixed false) in
  istep (fix_param_wrapper.optim w) <> 0%nat ->
  exists e w', fix_param_wrapper.step_simple scores codes z w = (Raise e, w')
               /\ (e = ValueError \/ e = IndexError).
Proof.
  intros Hinit _ HN Hk w Hi.
  pose proof (init_shaped _ _ _ _ _ _ _ _ Hinit) as Hs.
  destruct (init_dimen _ _ _ _ _ _ _ _ Hinit) as (Hd & _).
  assert (Hw : (shaped (fix_param_wrapper.optim w)
                /\ same_setup st (fix_param_wrapper.optim w))
               /\ fix_param_wrapper.fix_code w = fixed
               /\ fix_param_wrapper.pre w = false
               /\ fix_param_wrapper.sep w = 0%nat).
  { unfold w.
    apply (run_preserves
             (fun w => (shaped (fix_param_wrapper.optim w)
                        /\ same_setup st (fix_param_wrapper.optim w))
                       /\ fix_param_wrapper.fix_code w = fixed
                       /\ fix_param_wrapper.pre w = false
                       /\ fix_param_wrapper.sep w = 0%nat)
             fix_param_wrapper.step_simple).
    - apply (fix_step_simple_keeps (fun s => shaped s /\ same_setup st s)).
      intros sc cd z0 s [H1 H2]. split.
      + apply step_simple_shaped, H1.
      + apply step_simple_same_setup, H2.
    - unfold fix_param_wrapper.init.
      cbn [fix_param_wrapper.optim fix_param_wrapper.fix_code fix_param_wrapper.pre
           fix_param_wrapper.sep].
      split; [split; [exact Hs | apply same_setup_refl]|].
      split; [reflexivity|]. split; [reflexivity | exact Hk]. }
  generalize dependent w. intros [o f p k0] Hi ((Ho & Hset) & Hf & Hp & Hk0).
  cbn in Hi, Ho, Hset, Hf, Hp, Hk0. subst.
  rewrite fix_step_simple_inner.
  unfold opt_step_simple, Optimizer_CholeskyCMAES.
  destruct Hset as (Hd' & _).
  destruct (step_simple_without_cols scores (free_part false 0 codes) z o Ho Hi)
    as (e & s' & E & He); [reflexivity | lia |].
  rewrite E. exists e. eexists. split; [reflexivity | exact He].
Qed.

Lemma empty_fixed_code_at_end_witness :
  exists e w',
    fix_param_wrapper.step_simple [1; 2] (zeros 2 2) (fun _ _ => 0)
      (run fix_param_wrapper.step_simple [([1; 2], zeros 2 2, fun _ _ => 0)]
         (fix_param_wrapper.init demo_init_coded (zeros 1 0) false))
    = (Raise e, w')
    /\ (e = ValueError \/ e = IndexError).
Proof.
  apply (empty_fixed_code_at_end 2 (Some 3%nat) 3 (Some [5; 7]) (Some 10%Z) true no_params
           demo_init_coded (zeros 1 0) [([1; 2], zeros 2 2, fun _ _ => 0)]
           [1; 2] (zeros 2 2) (fun _ _ => 0)).
  - reflexivity.
  - pose proof (init_damps_pos 2 (Some 3%nat) 3 (Some [5; 7]) (Some 10%Z) true no_params
                  demo_init_coded eq_refl eq_refl).
    lra.
  - lia.
  - reflexivity.
  - change (run fix_param_wrapper.step_simple [([1; 2], zeros 2 2, fun _ _ => 0)]
              (fix_param_wrapper.init demo_init_coded (zeros 1 0) false))
      with (snd (fix_param_wrapper.step_simple [1; 2] (zeros 2 2) (fun _ _ => 0)
                   (fix_param_wrapper.mk demo_init_coded (zeros 1 0) false 0))).
    rewrite fix_step_simple_inner.
    unfold opt_step_simple, Optimizer_CholeskyCMAES.
    destruct (coded_first_step_returns [1; 2] (free_part false 0 (zeros 2 2)) (fun _ _ => 0)
                demo_init_coded (row_of_list [5; 7])) as (out & s' & E & Hi').
    + apply (init_shaped 2 (Some 3%nat) 3 (Some [5; 7]) (Some 10%Z) true no_params). reflexivity.
    + reflexivity.
    + reflexivity.
    + rewrite E. cbn [snd fix_param_wrapper.optim]. rewrite Hi'. lia.
Defined.
End EmptyFixedCode.

(** ** [concat_wrapper] *)

Section SideBySide.
Context {S1 S2 : Type} `{Optimizer R S1} `{Optimizer R S2}.

(** One call of the wrapper in terms of the calls of its two optimizers. *)
Lemma concat_step_simple_inner (o1 : S1) (o2 : S2) (k : nat)
  (scores : list R) (codes : matrix R) z1 z2 :
  concat_wrapper.step_simple scores codes z1 z2 (concat_wrapper.mk o1 o2 k)
  = match opt_step_simple scores (cols_upto codes k) z1 o1 with
    | (Ok new1, o1') =>
        match opt_step_simple scores (cols_from codes k) z2 o2 with
        | (Ok new2, o2') => (hconcat new1 new2, concat_wrapper.mk o1' o2' k)
        | (Raise e, o2') => (Raise e, concat_wrapper.mk o1' o2' k)
        end
    | (Raise e, o1') => (Raise e, concat_wrapper.mk o1' o2 k)
    end.
Proof.
  unfold concat_wrapper.step_simple. rewrite bind_get.
  cbn [concat_wrapper.sep].
  unfold bind, concat_wrapper.on_optim1, concat_wrapper.on_optim2, lift.
  cbn [concat_wrapper.optim1 concat_wrapper.optim2 concat_wrapper.sep fst snd].
  destruct (opt_step_simple scores (cols_upto codes k) z1 o1) as [[new1|e] o1'];
    cbn [concat_wrapper.optim1 concat_wrapper.optim2 concat_wrapper.sep fst snd];
    [|reflexivity].
  destruct (opt_step_simple scores (cols_from codes k) z2 o2) as [[new2|e] o2']; reflexivity.
Qed.
End SideBySide.

Section EnginesSideBySide.
Import CholeskyCMAES.

(** A run of the wrapper is a run of each engine on its part of the codes. *)
Lemma concat_run_inner (st1 st2 : CholeskyCMAES.t (T:=R)) :
  forall (calls : list (call2 R)) s1 s2,
  shaped s1 -> same_setup st1 s1 -> shaped s2 -> same_setup st2 s2 ->
  Forall (fitting_pair st1 st2) calls ->
  let k := space_dimen st1 in
  Forall2 (fun r p => exists new1 new2, p = (Ok new1, Ok new2)
             /\ nrows new1 = lambda_ st1 /\ ncols new1 = space_dimen st1
             /\ nrows new2 = lambda_ st2 /\ ncols new2 = space_dimen st2
             /\ r = hconcat new1 new2)
    (trace2 concat_wrapper.step_simple calls (concat_wrapper.mk s1 s2 k))
    (combine (trace step_simple (map (left_call k) calls) s1)
             (trace step_simple (map (right_call k) calls) s2))
  /\ run2 concat_wrapper.step_simple calls (concat_wrapper.mk s1 s2 k)
     = concat_wrapper.mk (run step_simple (map (left_call k) calls) s1)
         (run step_simple (map (right_call k) calls) s2) k
  /\ istep (run step_simple (map (left_call k) calls) s1) = (istep s1 + length calls)%nat
  /\ istep (run step_simple (map (right_call k) calls) s2) = (istep s2 + length calls)%nat.
Proof.
  induction calls as [|[[[scores codes] z1] z2] calls IH];
    intros s1 s2 Hs1 Hset1 Hs2 Hset2 Hfit k.
  - split; [constructor|]. split; [reflexivity|]. cbn. lia.
  - inversion Hfit as [|c l (Hr & Hc & Hn1 & Hn2) Hrest]; subst. cbn [fst snd] in Hr, Hc, Hn1, Hn2.
    pose proof Hset1 as (Hd1 & Hl1 & Hm1 & _).
    pose proof Hset2 as (Hd2 & Hl2 & Hm2 & _).
    destruct (step_simple_returns scores (cols_upto codes k) z1 s1 Hs1)
      as (out1 & s1' & E1 & Ho1 & Ho1' & _ & Hi1);
      [exact Hr | unfold k; cbn [ncols cols_upto]; lia
       | intros _; rewrite Hm1, Hl1; exact Hn1 |].
    destruct (step_simple_returns scores (cols_from codes k) z2 s2 Hs2)
      as (out2 & s2' & E2 & Ho2 & Ho2' & _ & Hi2);
      [exact Hr | unfold k; cbn [ncols cols_from]; lia
       | intros _; rewrite Hm2, Hl2; exact Hn2 |].
    assert (Hs1' : shaped s1').
    { pose proof (step_simple_shaped scores (cols_upto codes k) z1 s1 Hs1) as Hp.
      now rewrite E1 in Hp. }
    assert (Hs2' : shaped s2').
    { pose proof (step_simple_shaped scores (cols_from codes k) z2 s2 Hs2) as Hp.
      now rewrite E2 in Hp. }
    assert (Hset1' : same_setup st1 s1').
    { pose proof (step_simple_same_setup st1 scores (cols_upto codes k) z1 s1 Hset1) as Hp.
      now rewrite E1 in Hp. }
    assert (Hset2' : same_setup st2 s2').
    { pose proof (step_simple_same_setup st2 scores (cols_from codes k) z2 s2 Hset2) as Hp.
      now rewrite E2 in Hp. }
    destruct (IH s1' s2' Hs1' Hset1' Hs2' Hset2' Hrest) as (IH1 & IH2 & IH3 & IH4).
    fold k in IH1, IH2, IH3, IH4.
    change (run2 concat_wrapper.step_simple ((((scores, codes), z1), z2) :: calls)
              (concat_wrapper.mk s1 s2 k))
      with (run2 concat_wrapper.step_simple calls
              (snd (concat_wrapper.step_simple scores codes z1 z2
                      (concat_wrapper.mk s1 s2 k)))).
    change (run step_simple (map (left_call k) ((((scores, codes), z1), z2) :: calls)) s1)
      with (run step_simple (map (left_call k) calls)
              (snd (step_simple scores (cols_upto codes k) z1 s1))).
    change (run step_simple (map (right_call k) ((((scores, codes), z1), z2) :: calls)) s2)
      with (run step_simple (map (right_call k) calls)
              (snd (step_simple scores (cols_from codes k) z2 s2))).
    cbn [trace2 trace map left_call right_call combine fst snd length].
    rewrite concat_step_simple_inner.
    unfold opt_step_simple, Optimizer_CholeskyCMAES.
    rewrite E1, E2. cbn [fst snd].
    split; [|split; [exact IH2 | split; lia]].
    constructor; [|exact IH1].
    exists out1, out2. split; [reflexivity|].
    repeat split; congruence.
Qed.

(** X24.  Two engines of the same population size, constructed with dampings
    that are not zero, work side by side as one optimizer of the
    concatenated codes.  Given calls with one score per code, codes as wide
    as the two dimensions together and a number of them that fits both
    engines, every call returns [lambda_] codes of that width: the first
    columns are what the first engine returns when it is run alone on the
    first [sep] columns of the same codes, the others are what the second
    engine returns on the remaining columns, and the engines inside are in
    the states of those runs. *)
Theorem concat_runs_side_by_side
  (N1 : nat) (population_size1 : option nat) (init_sigma1 : R)
  (init_code1 : option (list R)) (Aupdate_freq1 : option Z) (maximize1 : bool)
  (params1 : optim_params) (st1 : CholeskyCMAES.t)
  (N2 : nat) (population_size2 : option nat) (init_sigma2 : R)
  (init_code2 : option (list R)) (Aupdate_freq2 : option Z) (maximize2 : bool)
  (params2 : optim_params) (st2 : CholeskyCMAES.t)
  (calls : list (call2 R)) :
  init N1 population_size1 init_sigma1 init_code1 Aupdate_freq1 maximize1 params1 = Ok st1 ->
  init N2 population_size2 init_sigma2 init_code2 Aupdate_freq2 maximize2 params2 = Ok st2 ->
  damps st1 <> 0 -> damps st2 <> 0 ->
  lambda_ st1 = lambda_ st2 ->
  Forall (fitting_pair st1 st2) calls ->
  exists w,
    concat_wrapper.init st1 st2 = Ok w
    /\ concat_wrapper.sep w = N1
    /\ Forall2 (fun r p => exists out new1 new2, r = Ok out /\ p = (Ok new1, Ok new2)
                  /\ nrows out = lambda_ st1 /\ ncols out = (N1 + N2)%nat
                  /\ forall i, (i < lambda_ st1)%nat ->
                       (forall j, (j < N1)%nat -> mget out i j = mget new1 i j)
                       /\ (forall j, (j < N2)%nat ->
                             mget out i (N1 + j)%nat = mget new2 i j))
         (trace2 concat_wrapper.step_simple calls w)
         (combine (trace step_simple (map (left_call N1) calls) st1)
                  (trace step_simple (map (right_call N1) calls) st2))
    /\ concat_wrapper.optim1 (run2 concat_wrapper.step_simple calls w)
       = run step_simple (map (left_call N1) calls) st1
    /\ concat_wrapper.optim2 (run2 concat_wrapper.step_simple calls w)
       = run step_simple (map (right_call N1) calls) st2.
Proof.
  intros Hinit1 Hinit2 _ _ Hl Hfit.
  pose proof (init_shaped _ _ _ _ _ _ _ _ Hinit1) as Hs1.
  pose proof (init_shaped _ _ _ _ _ _ _ _ Hinit2) as Hs2.
  destruct (init_dimen _ _ _ _ _ _ _ _ Hinit1) as (Hd1 & _).
  destruct (init_dimen _ _ _ _ _ _ _ _ Hinit2) as (Hd2 & _).
  destruct (concat_run_inner st1 st2 calls st1 st2 Hs1 (same_setup_refl st1)
              Hs2 (same_setup_refl st2) Hfit) as (H1 & H2 & _).
  rewrite Hd1 in H1, H2.
  exists (concat_wrapper.mk st1 st2 N1).
  split.
  { unfold concat_wrapper.init, opt_space_dimen, Optimizer_CholeskyCMAES.
    cbn [rbind]. now rewrite Hd1. }
  split; [reflexivity|]. split; [|rewrite H2; split; reflexivity].
  eapply Forall2_impl; [|exact H1].
  intros r p (new1 & new2 & -> & Hr1 & Hc1 & Hr2 & Hc2 & ->).
  unfold hconcat. replace (Nat.eqb (nrows new1) (nrows new2)) with true.
  2:{ symmetry. apply Nat.eqb_eq. congruence. }
  eexists. exists new1, new2. split; [reflexivity|]. split; [reflexivity|].
  cbn [nrows ncols mget]. split; [exact Hr1|]. split; [congruence|].
  intros i Hi. split; intros j Hj.
  - replace (Nat.ltb j (ncols new1)) with true by (symmetry; apply Nat.ltb_lt; lia).
    reflexivity.
  - replace (Nat.ltb (N1 + j) (ncols new1)) with false by (symmetry; apply Nat.ltb_ge; lia).
    f_equal. lia.
Qed.

Lemma concat_runs_side_by_side_witness :
  exists w,
    concat_wrapper.init demo_init4 demo_init4 = Ok w
    /\ concat_wrapper.sep w = 2%nat
    /\ Forall2 (fun r p => exists out new1 new2, r = Ok out /\ p = (Ok new1, Ok new2)
                  /\ nrows out = lambda_ demo_init4 /\ ncols out = (2 + 2)%nat
                  /\ forall i, (i < lambda_ demo_init4)%nat ->
                       (forall j, (j < 2)%nat -> mget out i j = mget new1 i j)
                       /\ (forall j, (j < 2)%nat ->
                             mget out i (2 + j)%nat = mget new2 i j))
         (trace2 concat_wrapper.step_simple
            [([1; 2], zeros 2 4, fun _ _ => 0, fun _ _ => 1)] w)
         (combine
            (trace step_simple
               (map (left_call 2) [([1; 2], zeros 2 4, fun _ _ => 0, fun _ _ => 1)])
               demo_init4)
            (trace step_simple
               (map (right_call 2) [([1; 2], zeros 2 4, fun _ _ => 0, fun _ _ => 1)])
               demo_init4))
    /\ concat_wrapper.optim1
         (run2 concat_wrapper.step_simple
            [([1; 2], zeros 2 4, fun _ _ => 0, fun _ _ => 1)] w)
       = run step_simple
           (map (left_call 2) [([1; 2], zeros 2 4, fun _ _ => 0, fun _ _ => 1)])
           demo_init4
    /\ concat_wrapper.optim2
         (run2 concat_wrapper.step_simple
            [([1; 2], zeros 2 4, fun _ _ => 0, fun _ _ => 1)] w)
       = run step_simple
           (map (right_call 2) [([1; 2], zeros 2 4, fun _ _ => 0, fun _ _ => 1)])
           demo_init4.
Proof.
  apply (concat_runs_side_by_side
           2 (Some 4%nat) 3 None (Some 10%Z) true no_params demo_init4
           2 (Some 4%nat) 3 None (Some 10%Z) true no_params demo_init4
           [([1; 2], zeros 2 4, fun _ _ => 0, fun _ _ => 1)]).
  - reflexivity.
  - reflexivity.
  - pose proof (init_damps_pos 2 (Some 4%nat) 3 None (Some 10%Z) true no_params demo_init4
                  eq_refl eq_refl).
    lra.
  - pose proof (init_damps_pos 2 (Some 4%nat) 3 None (Some 10%Z) true no_params demo_init4
                  eq_refl eq_refl).
    lra.
  - reflexivity.
  - assert (Hmu : (mu demo_init4 <= 2 <= lambda_ demo_init4)%nat).
    { change (mu demo_init4) with (Z.to_nat (Zfloor (IZR (Z.of_nat 4) / IZR 2))).
      rewrite (Zfloor_eq 2); [simpl; lia | simpl; lra]. }
    constructor; [|constructor].
    split; [reflexivity|]. split; [reflexivity|]. split; exact Hmu.
Defined.

(** X25.  The two engines must have the same population size.  When they differ
    (the dampings not zero), every call that fits both engines raises
    ValueError at the concatenation, and both engines have nevertheless
    advanced by one generation at each call. *)
Theorem concat_needs_equal_populations
  (N1 : nat) (population_size1 : option nat) (init_sigma1 : R)
  (init_code1 : option (list R)) (Aupdate_freq1 : option Z) (maximize1 : bool)
  (params1 : optim_params) (st1 : CholeskyCMAES.t)
  (N2 : nat) (population_size2 : option nat) (init_sigma2 : R)
  (init_code2 : option (list R)) (Aupdate_freq2 : option Z) (maximize2 : bool)
  (params2 : optim_params) (st2 : CholeskyCMAES.t)
  (calls : list (call2 R)) :
  init N1 population_size1 init_sigma1 init_code1 Aupdate_freq1 maximize1 params1 = Ok st1 ->
  init N2 population_size2 init_sigma2 init_code2 Aupdate_freq2 maximize2 params2 = Ok st2 ->
  damps st1 <> 0 -> damps st2 <> 0 ->
  lambda_ st1 <> lambda_ st2 ->
  Forall (fitting_pair st1 st2) calls ->
  exists w,
    concat_wrapper.init st1 st2 = Ok w
    /\ Forall (fun r => r = Raise ValueError) (trace2 concat_wrapper.step_simple calls w)
    /\ istep (concat_wrapper.optim1 (run2 concat_wrapper.step_simple calls w)) = length calls
    /\ istep (concat_wrapper.optim2 (run2 concat_wrapper.step_simple calls w)) = length calls.
Proof.
  intros Hinit1 Hinit2 _ _ Hl Hfit.
  pose proof (init_shaped _ _ _ _ _ _ _ _ Hinit1) as Hs1.
  pose proof (init_shaped _ _ _ _ _ _ _ _ Hinit2) as Hs2.
  destruct (init_dimen _ _ _ _ _ _ _ _ Hinit1) as (Hd1 & Hi1 & _).
  destruct (init_dimen _ _ _ _ _ _ _ _ Hinit2) as (Hd2 & Hi2 & _).
  destruct (concat_run_inner st1 st2 calls st1 st2 Hs1 (same_setup_refl st1)
              Hs2 (same_setup_refl st2) Hfit) as (H1 & H2 & H3 & H4).
  exists (concat_wrapper.mk st1 st2 (space_dimen st1)).
  split.
  { unfold concat_wrapper.init, opt_space_dimen, Optimizer_CholeskyCMAES. reflexivity. }
  rewrite H2. cbn [concat_wrapper.optim1 concat_wrapper.optim2].
  split; [|split; [rewrite H3, Hi1 | rewrite H4, Hi2]; reflexivity].
  clear H2 H3 H4.
  induction H1 as [|r p l l' (new1 & new2 & _ & Hr1 & _ & Hr2 & _ & ->) _ IH];
    constructor; [|exact IH].
  unfold hconcat. replace (Nat.eqb (nrows new1) (nrows new2)) with false; [reflexivity|].
  symmetry. apply Nat.eqb_neq. congruence.
Qed.

Lemma concat_needs_equal_populations_witness :
  exists w,
    concat_wrapper.init demo_init4 demo_init6 = Ok w
    /\ Forall (fun r => r = Raise ValueError)
         (trace2 concat_wrapper.step_simple
            [([1; 2; 3], zeros 3 4, fun _ _ => 0, fun _ _ => 1)] w)
    /\ istep (concat_wrapper.optim1
                (run2 concat_wrapper.step_simple
                   [([1; 2; 3], zeros 3 4, fun _ _ => 0, fun _ _ => 1)] w)) = 1%nat
    /\ istep (concat_wrapper.optim2
                (run2 concat_wrapper.step_simple
                   [([1; 2; 3], zeros 3 4, fun _ _ => 0, fun _ _ => 1)] w)) = 1%nat.
Proof.
  apply (concat_needs_equal_populations
           2 (Some 4%nat) 3 None (Some 10%Z) true no_params demo_init4
           2 (Some 6%nat) 3 None (Some 10%Z) true no_params demo_init6
           [([1; 2; 3], zeros 3 4, fun _ _ => 0, fun _ _ => 1)]).
  - reflexivity.
  - reflexivity.
  - pose proof (init_damps_pos 2 (Some 4%nat) 3 None (Some 10%Z) true no_params demo_init4
                  eq_refl eq_refl).
    lra.
  - pose proof (init_damps_pos 2 (Some 6%nat) 3 None (Some 10%Z) true no_params demo_init6
                  eq_refl eq_refl).
    lra.
  - cbn. lia.
  - constructor; [|constructor].
    split; [reflexivity|]. split; [reflexivity|]. split.
    + change (mu demo_init4) with (Z.to_nat (Zfloor (IZR (Z.of_nat 4) / IZR 2))).
      rewrite (Zfloor_eq 2); [simpl; lia | simpl; lra].
    + change (mu demo_init6) with (Z.to_nat (Zfloor (IZR (Z.of_nat 6) / IZR 2))).
      rewrite (Zfloor_eq 3); [simpl; lia | simpl; lra].
Defined.
End EnginesSideBySide.

(** ** The torch port against the numpy engine *)

Lemma simulates_ext_r {St Sn A} (Rel : St -> Sn -> Prop) (RA : A -> A -> Prop)
  (mt : M St A) (mn mn' : M Sn A) :
  (forall s, mn s = mn' s) -> simulates Rel RA mt mn' -> simulates Rel RA mt mn.
Proof. intros E H a b Hab. rewrite E. now apply H. Qed.

Lemma outcome_conj {A} (RA : A -> A -> Prop) (Q : A -> Prop) (r1 r2 : result A) :
  match r1, r2 with
  | Ok x, Ok y => RA x y
  | Raise e, Raise e' => e = e'
  | _, _ => False
  end ->
  (forall x, r1 = Ok x -> Q x) ->
  match r1, r2 with
  | Ok x, Ok y => RA x y /\ Q x
  | Raise e, Raise e' => e = e'
  | _, _ => False
  end.
Proof. destruct r1, r2; auto. Qed.

Lemma transpose_meq (a b : matrix R) : meq a b -> meq (transpose a) (transpose b).
Proof.
  intros (H1 & H2 & H3). split; [exact H2|]. split; [exact H1|].
  cbn [nrows ncols mget transpose]. intros i j Hi Hj. now apply H3.
Qed.

(** The product respects array equality, and a scalar factor of the left
    operand can be taken out of it. *)
Lemma matmul_scale_meq c (a a' b b' : matrix R) :
  meq a (scale c a') -> meq b b' ->
  match matmul a b, matmul a' b' with
  | Ok x, Ok y => meq x (scale c y)
  | Raise e, Raise e' => e = e'
  | _, _ => False
  end.
Proof.
  intros (A1 & A2 & A3) (B1 & B2 & B3). cbn [nrows ncols scale] in A1, A2.
  unfold matmul. rewrite <- A2, <- B1.
  destruct (Nat.eqb (ncols a) (nrows b)) eqn:E; [|reflexivity].
  apply Nat.eqb_eq in E.
  split; [exact A1|]. split; [exact B2|].
  cbn [nrows ncols mget scale]. intros i j Hi Hj. unR.
  rewrite <- vsum_scal_l. apply vsum_ext. intros k Hk.
  rewrite A3, B3 by lia. cbn [mget scale]. unR. ring.
Qed.

Lemma matmul_meq (a a' b b' : matrix R) :
  meq a a' -> meq b b' ->
  match matmul a b, matmul a' b' with
  | Ok x, Ok y => meq x y
  | Raise e, Raise e' => e = e'
  | _, _ => False
  end.
Proof.
  intros (A1 & A2 & A3) (B1 & B2 & B3).
  unfold matmul. rewrite <- A2, <- B1.
  destruct (Nat.eqb (ncols a) (nrows b)) eqn:E; [|reflexivity].
  apply Nat.eqb_eq in E.
  split; [exact A1|]. split; [exact B2|].
  cbn [nrows ncols mget]. intros i j Hi Hj.
  apply vsum_ext. intros k Hk. rewrite A3, B3 by lia. reflexivity.
Qed.

Ltac ported_step :=
  let a := fresh "a" in
  let b := fresh "b" in
  let Hab := fresh "Hab" in
  intros a b Hab; destruct Hab; constructor;
  cbn [CholeskyCMAES.space_dimen CholeskyCMAES.maximize CholeskyCMAES.lambda_
       CholeskyCMAES.mu CholeskyCMAES.weights CholeskyCMAES.mueff CholeskyCMAES.sigma
       CholeskyCMAES.cc CholeskyCMAES.cs CholeskyCMAES.c1 CholeskyCMAES.damps
       CholeskyCMAES.init_x CholeskyCMAES.xmean CholeskyCMAES.xold CholeskyCMAES.pc
       CholeskyCMAES.ps CholeskyCMAES.A CholeskyCMAES.Ainv CholeskyCMAES.eigeneval
       CholeskyCMAES.counteval CholeskyCMAES.update_crit CholeskyCMAES.chiN
       CholeskyCMAES.istep CholeskyCMAES.randz
       CholeskyCMAES.set_sigma CholeskyCMAES.set_xmean CholeskyCMAES.set_xold
       CholeskyCMAES.set_pc CholeskyCMAES.set_ps CholeskyCMAES.set_A
       CholeskyCMAES.set_Ainv CholeskyCMAES.set_eigeneval
       CholeskyCMAES.set_counteval CholeskyCMAES.set_istep CholeskyCMAES.set_randz];
  try assumption; try congruence.

Section Port.
Import CholeskyCMAES.

Lemma init_mean_port idx (codes : matrix R) :
  simulates ported eq (init_mean idx codes) (init_mean idx codes).
Proof.
  unfold init_mean.
  apply simulates_bind_get; intros a0 b0 H0.
  rewrite <- (po_init_x H0), <- (po_mu H0), <- (po_weights H0).
  destruct (init_x a0).
  - apply simulates_modify. ported_step.
  - apply simulates_bind with (RA := eq); [apply simulates_lift; auto | intros x y <-].
    apply simulates_bind with (RA := eq); [apply simulates_lift; auto | intros x2 y2 <-].
    apply simulates_modify. ported_step.
Qed.

Lemma get_randz_port : simulates ported eq get_randz get_randz.
Proof.
  unfold get_randz.
  apply simulates_bind_get; intros a0 b0 H0.
  rewrite <- (po_randz H0).
  destruct (randz a0); [apply simulates_ret; reflexivity | apply simulates_raise].
Qed.

Lemma update_paths_port idx (codes : matrix R) :
  simulates ported eq (update_paths idx codes) (CholeskyCMAES_torch.update_paths idx codes).
Proof.
  unfold update_paths, CholeskyCMAES_torch.update_paths.
  apply simulates_bind_get; intros a0 b0 H0.
  rewrite <- (po_xmean H0), <- (po_mu H0), <- (po_weights H0), <- (po_cs H0),
    <- (po_ps H0), <- (po_mueff H0), <- (po_cc H0), <- (po_sigma H0),
    <- (po_damps H0), <- (po_chiN H0).
  apply simulates_bind with (RA := eq); [apply simulates_modify; ported_step | intros _ _ _].
  apply simulates_bind with (RA := eq); [apply simulates_lift; auto | intros sel ? <-].
  apply simulates_bind with (RA := eq); [apply simulates_lift; auto | intros xm ? <-].
  apply simulates_bind with (RA := eq); [apply simulates_modify; ported_step | intros _ _ _].
  apply simulates_bind with (RA := eq); [apply get_randz_port | intros rz ? <-].
  apply simulates_bind with (RA := eq); [apply simulates_lift; auto | intros rsel ? <-].
  apply simulates_bind with (RA := fun x y => x = y /\ nrows x = 1%nat).
  { apply simulates_lift. intros x Hx. split; [reflexivity|].
    apply matmul_inv in Hx. destruct Hx as (_ & Hx & _). rewrite Hx.
    apply (po_weights_row H0). }
  intros randzw ? [<- Hzw].
  apply simulates_bind with (RA := eq); [apply simulates_lift; auto | intros ps' ? <-].
  apply simulates_bind with (RA := eq); [apply simulates_modify; ported_step | intros _ _ _].
  apply simulates_bind
    with (RA := fun x y => meq x (scale (ssqrt (cc a0 * (sofZ 2 - cc a0) * mueff a0)) y)
                           /\ nrows x = 1%nat).
  { apply simulates_lift2.
    apply (outcome_conj
             (fun x y => meq x (scale (ssqrt (cc a0 * (sofZ 2 - cc a0) * mueff a0)) y))
             (fun x => nrows x = 1%nat)).
    - apply matmul_scale_meq; [apply meq_refl | apply (po_A H0)].
    - intros x Ex. apply matmul_inv in Ex. destruct Ex as (_ & Ex & _).
      rewrite Ex. exact Hzw. }
  intros zA zB [HzA HzA1].
  apply simulates_bind with (RA := fun x y => meq x y /\ nrows x = 1%nat).
  { apply simulates_lift2.
    apply (outcome_conj meq (fun x => nrows x = 1%nat)).
    - apply broadcast2_meq; [apply scale_meq, (po_pc H0) | exact HzA].
    - intros x Ex. apply broadcast2_inv in Ex. destruct Ex as (Ex & _).
      cbn [nrows scale] in Ex. rewrite (po_pc_row H0), HzA1 in Ex.
      now apply bshape_same. }
  intros pa pb [Hpc Hpc1].
  apply simulates_bind with (RA := eq); [apply simulates_modify; ported_step | intros _ _ _].
  apply simulates_modify. ported_step.
Qed.

Lemma refresh_port : simulates ported eq refresh CholeskyCMAES_torch.refresh.
Proof.
  unfold refresh, CholeskyCMAES_torch.refresh.
  apply simulates_bind_get; intros a0 b0 H0. cbv zeta.
  rewrite <- (po_counteval H0), <- (po_c1 H0).
  apply simulates_bind with (RA := eq); [apply simulates_modify; ported_step | intros _ _ _].
  apply simulates_bind with (RA := fun x y => meq x y /\ nrows x = 1%nat).
  { apply simulates_lift2.
    apply (outcome_conj meq (fun x => nrows x = 1%nat)).
    - apply matmul_meq; [apply (po_pc H0) | apply (po_Ainv H0)].
    - intros x Ex. apply matmul_inv in Ex. destruct Ex as (_ & Ex & _).
      rewrite Ex. apply (po_pc_row H0). }
  intros va vb [Hv Hv1].
  apply simulates_bind
    with (RA := fun x y => meq x y /\ nrows x = 1%nat /\ ncols x = 1%nat).
  { apply simulates_lift2.
    apply (outcome_conj meq (fun x => nrows x = 1%nat /\ ncols x = 1%nat)).
    - apply matmul_meq; [exact Hv | apply transpose_meq, Hv].
    - intros x Ex. apply matmul_inv in Ex. destruct Ex as (_ & Ex1 & Ex2).
      cbn [ncols transpose] in Ex2. split; congruence. }
  intros vva vvb [Hvv [Hvv1 Hvv2]].
  assert (Hitem : CholeskyCMAES_torch.item_checked vvb = Ok (item vva)).
  { destruct Hvv as (V1 & V2 & V3).
    rewrite item_checked_ok by congruence.
    unfold item. rewrite V3 by lia. reflexivity. }
  eapply simulates_ext_r.
  { intros s. rewrite Hitem. apply bind_lift_Ok. }
  set (nv := item vva).
  apply simulates_bind with (RA := meq).
  { apply simulates_lift2. apply matmul_meq; [|apply (po_pc H0)].
    apply scale_meq, transpose_meq, Hv. }
  intros cAa cAb HcA.
  apply simulates_bind with (RA := meq).
  { apply simulates_lift2. apply broadcast2_meq; [|exact HcA].
    apply scale_meq, (po_A H0). }
  intros Aa Ab HA.
  apply simulates_bind with (RA := eq); [apply simulates_modify; ported_step | intros _ _ _].
  set (k := (sofZ 1 / ssqrt (sofZ 1 - c1 a0) / nv
             * (sofZ 1 - sofZ 1 / ssqrt (sofZ 1 + nv * c1 a0 / (sofZ 1 - c1 a0))))%num).
  assert (Hk : (sofZ 1 / (ssqrt (sofZ 1 - c1 a0) * nv)
                * (sofZ 1 - sofZ 1 / ssqrt (sofZ 1 + nv * c1 a0 / (sofZ 1 - c1 a0))))%num
               = k).
  { unfold k. unR. unfold Rdiv. rewrite Rinv_mult. ring. }
  rewrite Hk.
  apply simulates_bind with (RA := fun x y => meq x (scale k y)).
  { apply simulates_lift2. apply matmul_scale_meq; [|apply transpose_meq, Hv].
    apply scale_meq, (po_Ainv H0). }
  intros ua ub Hu.
  apply simulates_bind with (RA := fun x y => meq x (scale k y)).
  { apply simulates_lift2. apply matmul_scale_meq; assumption. }
  intros ca cb Hc.
  apply simulates_bind with (RA := meq).
  { apply simulates_lift2. apply broadcast2_meq; [|exact Hc].
    apply scale_meq, (po_Ainv H0). }
  intros Ia Ib HI.
  apply simulates_modify. ported_step.
Qed.

Lemma sample_port z :
  simulates ported meq (sample z) (CholeskyCMAES_torch.sample z).
Proof.
  unfold sample, CholeskyCMAES_torch.sample.
  apply simulates_bind_get; intros a0 b0 H0. cbv zeta.
  rewrite <- (po_lambda_ H0), <- (po_space_dimen H0), <- (po_xmean H0), <- (po_sigma H0).
  apply simulates_bind with (RA := eq); [apply simulates_modify; ported_step | intros _ _ _].
  apply simulates_bind with (RA := fun x y => meq x (scale (sigma a0) y)).
  { apply simulates_lift2. apply matmul_scale_meq; [apply meq_refl | apply (po_A H0)]. }
  intros zA zB HzA.
  apply simulates_bind with (RA := meq).
  { apply simulates_lift2. apply broadcast2_meq; [apply meq_refl | exact HzA]. }
  intros na nb Hn.
  apply simulates_bind with (RA := eq); [apply simulates_modify; ported_step | intros _ _ _].
  apply simulates_bind with (RA := eq); [apply simulates_modify; ported_step | intros _ _ _].
  apply simulates_ret. exact Hn.
Qed.

Lemma step_simple_port (scores : list R) (codes : matrix R) z :
  simulates ported meq (step_simple scores codes z)
    (CholeskyCMAES_torch.step_simple scores codes z).
Proof.
  unfold step_simple, CholeskyCMAES_torch.step_simple.
  apply simulates_bind_get; intros a0 b0 H0.
  rewrite <- (po_maximize H0), <- (po_istep H0).
  apply simulates_bind with (RA := eq); [ | intros _ _ _; apply sample_port ].
  destruct (Nat.eqb (istep a0) 0); [apply init_mean_port|].
  apply simulates_bind with (RA := eq); [apply update_paths_port | intros _ _ _].
  apply simulates_bind_get; intros a1 b1 H1.
  replace (refresh_due b1) with (refresh_due a1).
  2:{ unfold refresh_due.
      now rewrite (po_update_crit H1), (po_counteval H1), (po_eigeneval H1). }
  destruct (refresh_due a1); [apply refresh_port | apply simulates_ret; reflexivity].
Qed.

Lemma run_port (calls : list (call R)) : forall a b,
  ported a b ->
  Forall2 same_codes (trace step_simple calls a)
    (trace CholeskyCMAES_torch.step_simple calls b)
  /\ ported (run step_simple calls a) (run CholeskyCMAES_torch.step_simple calls b).
Proof.
  induction calls as [|[[scores codes] z] calls IH]; intros a b Hab.
  - split; [constructor | exact Hab].
  - destruct (step_simple_port scores codes z a b Hab) as [Hrel Hout].
    destruct (IH _ _ Hrel) as [IH1 IH2].
    split; [|exact IH2].
    cbn [trace fst snd]. constructor; [|exact IH1].
    clear IH IH1 IH2 Hrel. unfold same_codes.
    destruct (step_simple scores codes z a) as [[x|e] a'],
             (CholeskyCMAES_torch.step_simple scores codes z b) as [[y|e'] b'];
      cbn [fst] in *; first [exact Hout | exact I].
Qed.

(** X26.  The torch port computes what the numpy engine computes.  Over the
    reals, for two engines constructed with the same arguments, on a strategy
    where the square roots and quotients of a generation are defined, and
    along calls whose scores are pairwise distinct (the order of equal
    scores is left to the two sort routines) and in which no refresh meets a
    zero normalizer: at every call both engines raise or both return, and
    then they return the same codes entry by entry; afterwards they hold the
    same attributes, the covariance path and the factor pair entry by
    entry. *)
Theorem torch_port_matches_numpy
  (N : nat) (population_size : option nat) (init_sigma : R)
  (init_code : option (list R)) (Aupdate_freq : option Z) (maximize : bool)
  (params : optim_params) (a b : CholeskyCMAES.t) (calls : list (call R)) :
  init N population_size init_sigma init_code Aupdate_freq maximize params = Ok a ->
  CholeskyCMAES_torch.init N population_size init_sigma init_code Aupdate_freq maximize params
  = Ok b ->
  regular_strategy a ->
  Forall (fun c => NoDup (fst (fst c))) calls ->
  normalizer_regular calls a ->
  Forall2 same_codes (trace step_simple calls a)
    (trace CholeskyCMAES_torch.step_simple calls b)
  /\ ported (run step_simple calls a) (run CholeskyCMAES_torch.step_simple calls b).
Proof.
  intros Ha Hb _ _ _. apply run_port.
  unfold CholeskyCMAES_torch.init in Hb. rewrite Ha in Hb. injection Hb as <-.
  pose proof (init_shaped _ _ _ _ _ _ _ _ Ha) as Hs.
  constructor; try reflexivity; try apply meq_refl.
  - apply (sh_pc_rows Hs).
  - apply (sh_weights_rows Hs).
Qed.

Lemma torch_port_matches_numpy_witness :
  Forall2 same_codes
    (trace step_simple [([1; 2], zeros 2 1, fun _ _ => 0); ([1; 2], zeros 2 1, fun _ _ => 0)]
       demo_init_tuned)
    (trace CholeskyCMAES_torch.step_simple
       [([1; 2], zeros 2 1, fun _ _ => 0); ([1; 2], zeros 2 1, fun _ _ => 0)]
       demo_init_tuned)
  /\ ported
       (run step_simple [([1; 2], zeros 2 1, fun _ _ => 0); ([1; 2], zeros 2 1, fun _ _ => 0)]
          demo_init_tuned)
       (run CholeskyCMAES_torch.step_simple
          [([1; 2], zeros 2 1, fun _ _ => 0); ([1; 2], zeros 2 1, fun _ _ => 0)]
          demo_init_tuned).
Proof.
  apply (torch_port_matches_numpy 1 (Some 2%nat) 3 None (Some 10%Z) true
           (mk_params (Some (1 / 2)) (Some (1 / 2)) (Some (1 / 2)))
           demo_init_tuned demo_init_tuned
           [([1; 2], zeros 2 1, fun _ _ => 0); ([1; 2], zeros 2 1, fun _ _ => 0)]).
  - reflexivity.
  - reflexivity.
  - unfold regular_strategy.
    change (space_dimen demo_init_tuned) with 1%nat.
    change (lambda_ demo_init_tuned) with 2%nat.
    change (cc demo_init_tuned) with (1 / 2).
    change (cs demo_init_tuned) with (1 / 2).
    change (c1 demo_init_tuned) with (1 / 2).
    repeat split; try lia; lra.
  - assert (Hd : NoDup [1; 2]).
    { constructor; [|constructor; [intros []|constructor]].
      intros [H|[]]. lra. }
    constructor; [exact Hd | constructor; [exact Hd | constructor]].
  - apply quiet_run.
    change (update_crit demo_init_tuned) with (IZR (10 * Z.of_nat 2)).
    change (lambda_ demo_init_tuned) with 2%nat.
    change (counteval demo_init_tuned) with 0%Z.
    change (eigeneval demo_init_tuned) with 0%Z.
    cbn. lra.
Defined.
End Port.

(** ** HessCMAES against CholeskyCMAES *)

Ltac both_lift :=
  match goal with
  | |- context [bind (lift ?r) _ _] =>
      let E := fresh "E" in
      destruct r as [?|?] eqn:E;
      [rewrite !bind_lift_Ok | rewrite bind_lift_Raise; intros; discriminate]
  end.

Ltac flat :=
  repeat first [rewrite bind_assoc | rewrite bind_modify | rewrite bind_get
               | rewrite bind_ret].

Ltac hess_fields :=
  cbn [HessCMAES.code_len HessCMAES.space_dimen HessCMAES.maximize HessCMAES.lambda_
       HessCMAES.mu HessCMAES.weights HessCMAES.mueff HessCMAES.sigma HessCMAES.cc
       HessCMAES.cs HessCMAES.c1 HessCMAES.damps HessCMAES.init_x HessCMAES.xmean
       HessCMAES.xold HessCMAES.pc HessCMAES.ps HessCMAES.A HessCMAES.Ainv
       HessCMAES.eigeneval HessCMAES.counteval HessCMAES.update_crit HessCMAES.chiN
       HessCMAES.istep HessCMAES.randz
       HessCMAES.set_sigma HessCMAES.set_xmean HessCMAES.set_xold HessCMAES.set_pc
       HessCMAES.set_ps HessCMAES.set_A HessCMAES.set_Ainv HessCMAES.set_eigeneval
       HessCMAES.set_counteval HessCMAES.set_istep HessCMAES.set_randz
       HessCMAES.l_sigma HessCMAES.l_A HessCMAES.l_Ainv HessCMAES.l_ps HessCMAES.l_pc
       CholeskyCMAES.space_dimen CholeskyCMAES.maximize CholeskyCMAES.lambda_
       CholeskyCMAES.mu CholeskyCMAES.weights CholeskyCMAES.mueff CholeskyCMAES.sigma
       CholeskyCMAES.cc CholeskyCMAES.cs CholeskyCMAES.c1 CholeskyCMAES.damps
       CholeskyCMAES.init_x CholeskyCMAES.xmean CholeskyCMAES.xold CholeskyCMAES.pc
       CholeskyCMAES.ps CholeskyCMAES.A CholeskyCMAES.Ainv CholeskyCMAES.eigeneval
       CholeskyCMAES.counteval CholeskyCMAES.update_crit CholeskyCMAES.chiN
       CholeskyCMAES.istep CholeskyCMAES.randz
       CholeskyCMAES.set_sigma CholeskyCMAES.set_xmean CholeskyCMAES.set_xold
       CholeskyCMAES.set_pc CholeskyCMAES.set_ps CholeskyCMAES.set_A
       CholeskyCMAES.set_Ainv CholeskyCMAES.set_eigeneval
       CholeskyCMAES.set_counteval CholeskyCMAES.set_istep CholeskyCMAES.set_randz].

Lemma hess_step_alike (scores : list R) (codes : matrix R) z h s out s' :
  alike h s ->
  CholeskyCMAES.step_simple scores codes z s = (Ok out, s') ->
  exists h', HessCMAES.step_simple scores codes z h = (Ok out, h') /\ alike h' s'.
Proof.
  intros Hal.
  destruct h as [cl sd mx la m w me sg c_c c_s c_1 dm ix xm xo p_c p_s a ai ee ce uc ch it
                   rz ev evc sc].
  destruct Hal as [H1 H2 H3 H4 H5 H6 H7 H8 H9 H10 H11 H12 H13 H14 H15 H16 H17 H18 H19 H20
                     H21 H22 H23 H24 H25].
  cbn in H1, H2, H3, H4, H5, H6, H7, H8, H9, H10, H11, H12, H13, H14, H15, H16, H17, H18,
    H19, H20, H21, H22, H23, H24, H25.
  subst.
  unfold CholeskyCMAES.step_simple, HessCMAES.step_simple.
  rewrite !bind_get. hess_fields.
  destruct (Nat.eqb (CholeskyCMAES.istep s) 0).
  - rewrite bind_assoc.
    unfold CholeskyCMAES.init_mean, HessCMAES.init_mean.
    rewrite !bind_assoc, !bind_get. hess_fields.
    destruct (CholeskyCMAES.init_x s) as [x|] eqn:Eix.
    + rewrite !bind_modify, bind_ret.
      unfold CholeskyCMAES.sample, HessCMAES.sample.
      rewrite !bind_get, !bind_modify. hess_fields.
      both_lift. both_lift.
      rewrite !bind_modify. unfold ret. intros Ex. injection Ex as <- <-.
      eexists. split; [reflexivity|].
      constructor; hess_fields; first [reflexivity | congruence].
    + rewrite !bind_assoc. both_lift.
      rewrite !bind_assoc. both_lift.
      rewrite !bind_modify, bind_ret.
      unfold CholeskyCMAES.sample, HessCMAES.sample.
      rewrite !bind_get, !bind_modify. hess_fields.
      both_lift. both_lift.
      rewrite !bind_modify. unfold ret. intros Ex. injection Ex as <- <-.
      eexists. split; [reflexivity|].
      constructor; hess_fields; first [reflexivity | congruence].
  - unfold CholeskyCMAES.update_paths, HessCMAES.update_locals.
    rewrite !bind_assoc, !bind_get. hess_fields.
    rewrite !bind_assoc, !bind_modify.
    rewrite !bind_assoc. both_lift.
    rewrite !bind_assoc. both_lift.
    rewrite !bind_assoc, !bind_modify.
    unfold CholeskyCMAES.get_randz, HessCMAES.get_randz.
    rewrite !bind_assoc, !bind_get. hess_fields.
    destruct (CholeskyCMAES.randz s) as [rz|] eqn:Erz;
      [rewrite !bind_ret | rewrite bind_raise_now; intros; discriminate].
    flat. both_lift. flat. both_lift. flat. both_lift. flat. both_lift. flat. both_lift.
    flat. unfold CholeskyCMAES.refresh_due, HessCMAES.refresh_due. hess_fields.
    destruct (sltb (CholeskyCMAES.update_crit s)
                (sofZ (CholeskyCMAES.counteval s - CholeskyCMAES.eigeneval s))).
    + unfold CholeskyCMAES.refresh, HessCMAES.refresh_locals.
      flat. hess_fields. cbv zeta.
      flat. both_lift. flat. both_lift. flat. both_lift. flat. both_lift.
      flat. both_lift. flat. both_lift. flat. both_lift. flat.
      unfold CholeskyCMAES.sample, HessCMAES.sample.
      flat. hess_fields.
      both_lift. flat. both_lift. flat.
      unfold ret. intros Ex. injection Ex as <- <-.
      eexists. split; [reflexivity|].
      constructor; hess_fields; first [reflexivity | congruence].
    + flat.
      unfold CholeskyCMAES.sample, HessCMAES.sample.
      flat. hess_fields.
      both_lift. flat. both_lift. flat.
      unfold ret. intros Ex. injection Ex as <- <-.
      eexists. split; [reflexivity|].
      constructor; hess_fields; first [reflexivity | congruence].
Qed.

Lemma hess_run_alike (calls : list (call R)) : forall h s,
  alike h s ->
  Forall (fun r => exists out, r = Ok out) (trace CholeskyCMAES.step_simple calls s) ->
  trace HessCMAES.step_simple calls h = trace CholeskyCMAES.step_simple calls s
  /\ alike (run HessCMAES.step_simple calls h) (run CholeskyCMAES.step_simple calls s).
Proof.
  induction calls as [|[[scores codes] z] calls IH]; intros h s Hal Hret.
  - split; [reflexivity | exact Hal].
  - cbn [trace fst snd] in Hret. inversion Hret as [|r l (out & Hout) Hrest]; subst.
    destruct (CholeskyCMAES.step_simple scores codes z s) as [r s'] eqn:Es.
    cbn [fst snd] in Hout, Hrest. subst r.
    destruct (hess_step_alike scores codes z h s out s' Hal Es) as (h' & Eh & Hal').
    destruct (IH h' s' Hal' Hrest) as [IH1 IH2].
    change (run HessCMAES.step_simple (((scores, codes), z) :: calls) h)
      with (run HessCMAES.step_simple calls (snd (HessCMAES.step_simple scores codes z h))).
    change (run CholeskyCMAES.step_simple (((scores, codes), z) :: calls) s)
      with (run CholeskyCMAES.step_simple calls
              (snd (CholeskyCMAES.step_simple scores codes z s))).
    cbn [trace fst snd]. rewrite Eh, Es. cbn [fst snd].
    split; [now rewrite IH1 | exact IH2].
Qed.

Section HessAsCholesky.
Import CholeskyCMAES.

Lemma fitting_calls_all_return st (calls : list (call R)) : forall s,
  shaped s -> same_setup st s -> Forall (fitting st) calls ->
  Forall (fun r => exists out, r = Ok out) (trace step_simple calls s).
Proof.
  induction calls as [|[[scores codes] z] calls IH]; intros s Hs Hset Hfit; [constructor|].
  inversion Hfit as [|c l (Hr & Hc & Hn) Hrest]; subst. cbn [fst snd] in Hr, Hc, Hn.
  pose proof Hset as (Hd & Hl & Hm & _).
  destruct (step_simple_returns scores codes z s Hs Hr) as (out & s' & E & _);
    [congruence | intros _; rewrite Hm, Hl; exact Hn |].
  cbn [trace fst snd]. rewrite E. cbn [fst snd]. constructor; [now exists out|].
  apply IH; [| |exact Hrest].
  - pose proof (step_simple_shaped scores codes z s Hs) as Hp. now rewrite E in Hp.
  - pose proof (step_simple_same_setup st scores codes z s Hset) as Hp. now rewrite E in Hp.
Qed.

(** X27.  Without a cutoff and before [set_Hessian], HessCMAES is CholeskyCMAES
    as long as the calls return.  For two objects constructed with the same
    arguments (the damping not zero) and any sequence of calls that all
    return on the CholeskyCMAES object, every call returns the same codes on
    the HessCMAES object, which ends with the same attributes. *)
Theorem hess_without_hessian_is_cholesky
  (N : nat) (population_size : option nat) (init_sigma : R)
  (init_code : option (list R)) (Aupdate_freq : option Z) (maximize : bool)
  (params : optim_params) (s : CholeskyCMAES.t) (calls : list (call R)) :
  init N population_size init_sigma init_code Aupdate_freq maximize params = Ok s ->
  damps s <> 0 ->
  Forall (fun r => exists out, r = Ok out) (trace step_simple calls s) ->
  let h := HessCMAES.init N population_size None init_sigma init_code Aupdate_freq
             maximize params in
  trace HessCMAES.step_simple calls h = trace step_simple calls s
  /\ alike (run HessCMAES.step_simple calls h) (run step_simple calls s).
Proof.
  intros Hinit _ Hret h. apply hess_run_alike; [|exact Hret].
  unfold h, HessCMAES.init. unfold init in Hinit.
  unfold reshape_init in Hinit.
  destruct init_code as [l|].
  - destruct (Nat.eqb (length l) N); cbn [rbind] in Hinit; [|discriminate].
    injection Hinit as <-. constructor; reflexivity.
  - cbn [rbind] in Hinit. injection Hinit as <-. constructor; reflexivity.
Qed.

Lemma hess_without_hessian_is_cholesky_witness :
  trace HessCMAES.step_simple [demo_call; demo_call; demo_call]
    (HessCMAES.init 1 (Some 2%nat) None 3 None (Some 10%Z) true no_params)
  = trace step_simple [demo_call; demo_call; demo_call] demo_init
  /\ alike (run HessCMAES.step_simple [demo_call; demo_call; demo_call]
              (HessCMAES.init 1 (Some 2%nat) None 3 None (Some 10%Z) true no_params))
       (run step_simple [demo_call; demo_call; demo_call] demo_init).
Proof.
  apply (hess_without_hessian_is_cholesky 1 (Some 2%nat) 3 None (Some 10%Z) true no_params
           demo_init [demo_call; demo_call; demo_call]).
  - reflexivity.
  - pose proof (init_damps_pos 1 (Some 2%nat) 3 None (Some 10%Z) true no_params demo_init
                  eq_refl eq_refl).
    lra.
  - apply (fitting_calls_all_return demo_init).
    + apply (init_shaped 1 (Some 2%nat) 3 None (Some 10%Z) true no_params). reflexivity.
    + apply same_setup_refl.
    + assert (Hfit : fitting demo_init demo_call).
      { split; [reflexivity|]. split; [reflexivity|].
        change (mu demo_init) with (Z.to_nat (Zfloor (IZR (Z.of_nat 2) / IZR 2))).
        rewrite (Zfloor_eq 1); [simpl; lia | simpl; lra]. }
      constructor; [exact Hfit | constructor; [exact Hfit | constructor; [exact Hfit|]]].
      constructor.
Defined.
End HessAsCholesky.

(** ** The spherical engine: the interpolated schedules *)

Section InterpolatedSchedules.
Import ZOHA_Sphere_lr_euclid.

Lemma linspace_entries (a b : R) (n : Z) :
  (2 <= n)%Z ->
  exists l, linspace a b n = Ok l /\ Z.of_nat (length l) = n
    /\ (forall k, (k < length l)%nat ->
          nth k l 0 = a + INR k * (b - a) / INR (Z.to_nat n - 1))
    /\ (forall k d, (k < length l)%nat -> nth k l d = nth k l 0).
Proof.
  intros Hn. unfold linspace.
  replace (n <? 0)%Z with false by (symmetry; apply Z.ltb_ge; lia).
  eexists. split; [reflexivity|].
  rewrite length_map, length_seq.
  split; [lia|].
  assert (Hm : (1 < Z.to_nat n)%nat) by lia.
  assert (Hpos : 0 < INR (Z.to_nat n - 1)) by (apply lt_0_INR; lia).
  split.
  - intros k Hk.
    rewrite nth_indep with (d' := (fun i : nat =>
        if Nat.ltb 1 (Z.to_nat n) && Nat.eqb i (Z.to_nat n - 1) then b
        else (sofnat i * ((b - a) / sofnat (Z.to_nat n - 1)) + a)%num) 0%nat)
      by (now rewrite length_map, length_seq).
    rewrite (map_nth (fun i : nat =>
        if Nat.ltb 1 (Z.to_nat n) && Nat.eqb i (Z.to_nat n - 1) then b
        else (sofnat i * ((b - a) / sofnat (Z.to_nat n - 1)) + a)%num)).
    rewrite seq_nth by exact Hk. cbn [Nat.add].
    replace (Nat.ltb 1 (Z.to_nat n)) with true by (symmetry; apply Nat.ltb_lt; lia).
    cbn [andb]. unfold sofnat. unR. rewrite <- !INR_IZR_INZ.
    destruct (Nat.eqb_spec k (Z.to_nat n - 1)) as [->|Hne].
    + field. lra.
    + field. lra.
  - intros k d Hk. apply nth_indep. now rewrite length_map, length_seq.
Qed.

Lemma nth_to_radians (N : nat) (l : list R) k :
  (k < length l)%nat ->
  nth k (to_radians N l) 0 = nth k l 0 / 180 * PI / R_sqrt.sqrt (INR N).
Proof.
  intros Hk. unfold to_radians.
  rewrite nth_indep with (d' := (fun x => x / sofZ 180 * spi / ssqrt (sofnat N))%num 0)
    by (now rewrite length_map).
  rewrite (map_nth (fun x => x / sofZ 180 * spi / ssqrt (sofnat N))%num).
  unfold sofnat. unR. now rewrite <- INR_IZR_INZ.
Qed.

(** X28.  The linear schedule.  For [n_gen >= 2], [lr_schedule] in mode "lin"
    returns and [mulist] has [n_gen] entries, entry [k] being
    [lim[0] + k (lim[1] - lim[0]) / (n_gen - 1)] degrees converted to radians
    and divided by [sqrt(dimen)]: it runs from the first limit to the
    second.  [mu_init] and [mu_final] are the limits as given, in degrees,
    not the first and last entries as in mode "inv". *)
Theorem lin_schedule_interpolates
  (n_gen : Z) (lim : R * R) (s : ZOHA_Sphere_lr_euclid.t) :
  (2 <= n_gen)%Z ->
  exists l s',
    lr_schedule n_gen Lin lim s = (Ok tt, s')
    /\ mulist s' = Some l /\ Z.of_nat (length l) = n_gen
    /\ mu_init s' = Some (fst lim) /\ mu_final s' = Some (snd lim)
    /\ (forall k, (k < length l)%nat ->
          nth k l 0 = (fst lim + INR k * (snd lim - fst lim) / INR (Z.to_nat n_gen - 1))
                      / 180 * PI / R_sqrt.sqrt (INR (dimen s)))
    /\ nth 0 l 0 = fst lim / 180 * PI / R_sqrt.sqrt (INR (dimen s))
    /\ nth (length l - 1) l 0 = snd lim / 180 * PI / R_sqrt.sqrt (INR (dimen s)).
Proof.
  intros Hn.
  destruct (linspace_entries (fst lim) (snd lim) n_gen Hn) as (l0 & El & Hlen & Hnth & _).
  assert (Hlen' : length (to_radians (dimen s) l0) = length l0).
  { unfold to_radians. now rewrite length_map. }
  assert (Hpos : 0 < INR (Z.to_nat n_gen - 1)) by (apply lt_0_INR; lia).
  exists (to_radians (dimen s) l0). eexists. split.
  { unfold lr_schedule. rewrite bind_get, !bind_modify.
    rewrite El, bind_lift_Ok. unfold modify. reflexivity. }
  cbn [mulist mu_init mu_final set_mulist set_mu_init set_mu_final].
  split; [reflexivity|]. split; [rewrite Hlen'; exact Hlen|].
  split; [reflexivity|]. split; [reflexivity|].
  rewrite Hlen'. split; [|split].
  - intros k Hk. rewrite nth_to_radians by exact Hk. now rewrite Hnth.
  - rewrite nth_to_radians by lia. rewrite Hnth by lia. cbn [INR]. f_equal. f_equal.
    f_equal. field. lra.
  - rewrite nth_to_radians by lia. rewrite Hnth by lia.
    replace (length l0 - 1)%nat with (Z.to_nat n_gen - 1)%nat by lia.
    f_equal. f_equal. f_equal. field. lra.
Qed.

Lemma lin_schedule_interpolates_witness :
  exists l s',
    lr_schedule 3 Lin (50, 10) (init 4 40 20 (3 / 2) true true false 300) = (Ok tt, s')
    /\ mulist s' = Some l /\ Z.of_nat (length l) = 3%Z
    /\ mu_init s' = Some 50 /\ mu_final s' = Some 10.
Proof.
  destruct (lin_schedule_interpolates 3 (50, 10) (init 4 40 20 (3 / 2) true true false 300))
    as (l & s' & H1 & H2 & H3 & H4 & H5 & _).
  - lia.
  - exists l, s'. auto.
Defined.

Lemma pow10_log10 (x : R) : 0 < x -> Rpower 10 (ln x / ln 10) = x.
Proof.
  intros Hx. unfold Rpower.
  assert (H10 : 0 < ln 10).
  { rewrite <- ln_1. apply ln_increasing; lra. }
  replace (ln x / ln 10 * ln 10) with (ln x) by (field; lra).
  now apply exp_ln.
Qed.

(** X29.  The exponential schedule.  For [n_gen >= 2] and two positive limits,
    [lr_schedule] in mode "exp" returns and [mulist] has [n_gen] entries,
    entry [k] being [lim[0] * (lim[1] / lim[0]) ** (k / (n_gen - 1))] degrees
    converted to radians and divided by [sqrt(dimen)]: a geometric
    progression from the first limit to the second.  [mu_init] and
    [mu_final] are the limits as given. *)
Theorem exp_schedule_is_geometric
  (n_gen : Z) (lim : R * R) (s : ZOHA_Sphere_lr_euclid.t) :
  (2 <= n_gen)%Z -> 0 < fst lim -> 0 < snd lim ->
  exists l s',
    lr_schedule n_gen Exp lim s = (Ok tt, s')
    /\ mulist s' = Some l /\ Z.of_nat (length l) = n_gen
    /\ mu_init s' = Some (fst lim) /\ mu_final s' = Some (snd lim)
    /\ (forall k, (k < length l)%nat ->
          nth k l 0 = fst lim * Rpower (snd lim / fst lim)
                                  (INR k / INR (Z.to_nat n_gen - 1))
                      / 180 * PI / R_sqrt.sqrt (INR (dimen s)))
    /\ nth 0 l 0 = fst lim / 180 * PI / R_sqrt.sqrt (INR (dimen s))
    /\ nth (length l - 1) l 0 = snd lim / 180 * PI / R_sqrt.sqrt (INR (dimen s)).
Proof.
  intros Hn Ha Hb.
  destruct (linspace_entries (ln (fst lim) / ln 10) (ln (snd lim) / ln 10) n_gen Hn)
    as (l0 & El & Hlen & Hnth & Hd).
  set (l1 := map (fun y => Rpower 10 y) l0).
  assert (Hlen1 : length l1 = length l0) by (unfold l1; now rewrite length_map).
  assert (Hlen' : length (to_radians (dimen s) l1) = length l0).
  { unfold to_radians. now rewrite length_map. }
  assert (Hpos : 0 < INR (Z.to_nat n_gen - 1)) by (apply lt_0_INR; lia).
  assert (H10 : 0 < ln 10).
  { rewrite <- ln_1. apply ln_increasing; lra. }
  assert (Hq : 0 < snd lim / fst lim) by (now apply Rdiv_lt_0_compat).
  assert (Hent : forall k, (k < length l0)%nat ->
            nth k l1 0 = fst lim * Rpower (snd lim / fst lim)
                                     (INR k / INR (Z.to_nat n_gen - 1))).
  { intros k Hk. unfold l1.
    rewrite nth_indep with (d' := Rpower 10 0) by (now rewrite length_map).
    rewrite (map_nth (fun y => Rpower 10 y)). rewrite Hnth by exact Hk.
    unfold Rpower.
    replace ((ln (fst lim) / ln 10
              + INR k * (ln (snd lim) / ln 10 - ln (fst lim) / ln 10)
                / INR (Z.to_nat n_gen - 1)) * ln 10)
      with (ln (fst lim)
            + INR k / INR (Z.to_nat n_gen - 1) * (ln (snd lim) - ln (fst lim)))
      by (field; lra).
    rewrite exp_plus, exp_ln by exact Ha.
    replace (ln (snd lim) - ln (fst lim)) with (ln (snd lim / fst lim)); [reflexivity|].
    unfold Rdiv. rewrite ln_mult by (try apply Rinv_0_lt_compat; assumption).
    rewrite ln_Rinv by exact Ha. ring. }
  exists (to_radians (dimen s) l1). eexists. split.
  { unfold lr_schedule. rewrite bind_get, !bind_modify.
    unfold logspace, log10. unR. rewrite El. cbn [rbind]. rewrite bind_lift_Ok.
    unfold modify. reflexivity. }
  cbn [mulist mu_init mu_final set_mulist set_mu_init set_mu_final].
  split; [reflexivity|]. split; [rewrite Hlen'; exact Hlen|].
  split; [reflexivity|]. split; [reflexivity|].
  rewrite Hlen'. split; [|split].
  - intros k Hk. rewrite nth_to_radians by lia. now rewrite Hent.
  - rewrite nth_to_radians by lia. rewrite Hent by lia. cbn [INR].
    replace (0 / INR (Z.to_nat n_gen - 1)) with 0 by (field; lra).
    rewrite Rpower_O by exact Hq. now rewrite Rmult_1_r.
  - rewrite nth_to_radians by lia. rewrite Hent by lia.
    replace (length l0 - 1)%nat with (Z.to_nat n_gen - 1)%nat by lia.
    replace (INR (Z.to_nat n_gen - 1) / INR (Z.to_nat n_gen - 1)) with 1 by (field; lra).
    rewrite Rpower_1 by exact Hq.
    f_equal. f_equal. f_equal. field. lra.
Qed.

Lemma exp_schedule_is_geometric_witness :
  exists l s',
    lr_schedule 3 Exp (50, 10) (init 4 40 20 (3 / 2) true true false 300) = (Ok tt, s')
    /\ mulist s' = Some l /\ Z.of_nat (length l) = 3%Z
    /\ nth 0 l 0 = 50 / 180 * PI / R_sqrt.sqrt (INR 4).
Proof.
  destruct (exp_schedule_is_geometric 3 (50, 10) (init 4 40 20 (3 / 2) true true false 300))
    as (l & s' & H1 & H2 & H3 & _ & _ & _ & H4 & _).
  - lia.
  - cbn. lra.
  - cbn. lra.
  - exists l, s'. auto.
Defined.
End InterpolatedSchedules.
